(** * Verification of the media library core of [claudemusic.py]

    A shallow embedding of the path codec, the descriptor writers, the
    history logs, the fuzzy dispatcher and the player session of
    [src/claudemusic.py], and the properties its specification states
    about them.

    Conventions.  A Python [str] is a list of Unicode code points
    ([list N]); a [bytes] value is a [list Byte.byte].  A text file is the
    [str] it holds; a missing file is [None].  Functions of third-party
    libraries whose code is not part of the program (the similarity
    scorers of fuzzywuzzy, [hashlib.md5], [os.path.abspath], the Unicode
    case tables) are section variables. *)

From Stdlib Require Import List NArith ZArith Lia Bool String Ascii.
From Stdlib Require Import Strings.Byte.
From Stdlib Require Import Sorting.Permutation Sorting.Sorted.
Import ListNotations.

Open Scope N_scope.

(** ** Python strings *)

Module Py.

Definition str := list N.
Definition bytes := list Byte.byte.

(** A string literal of the development, as code points. *)
Definition lit (s : string) : str :=
  map N_of_ascii (list_ascii_of_string s).

Definition str_eqb (a b : str) : bool :=
  if list_eq_dec N.eq_dec a b then true else false.

(** A string that is true in a condition: not the empty one. *)
Definition nonempty (s : str) : bool :=
  match s with [] => false | _ :: _ => true end.

Fixpoint take_while (p : N -> bool) (s : str) : str :=
  match s with
  | [] => []
  | c :: s' => if p c then c :: take_while p s' else []
  end.

(** [x in xs] for a list or a set of strings: only membership is observed. *)
Definition mem (x : str) (xs : list str) : bool := existsb (str_eqb x) xs.

(** [c in s] for a one-character [c]. *)
Definition char_in (c : N) (s : str) : bool := existsb (N.eqb c) s.

(** [s.startswith(p)] and [s.endswith(p)]. *)
Fixpoint startswith (s p : str) {struct p} : bool :=
  match p, s with
  | [], _ => true
  | _ :: _, [] => false
  | a :: p', b :: s' => (a =? b) && startswith s' p'
  end.

Definition endswith (s p : str) : bool := startswith (rev s) (rev p).

(** [str.isspace] for one code point: the characters [str.strip()] removes. *)
Definition isspace (c : N) : bool :=
  ((9 <=? c) && (c <=? 13)) || ((28 <=? c) && (c <=? 32))
  || (c =? 133) || (c =? 160) || (c =? 5760)
  || ((8192 <=? c) && (c <=? 8202))
  || (c =? 8232) || (c =? 8233) || (c =? 8239) || (c =? 8287) || (c =? 12288).

Fixpoint lstrip (s : str) : str :=
  match s with
  | [] => []
  | c :: s' => if isspace c then lstrip s' else s
  end.

Definition rstrip (s : str) : str := rev (lstrip (rev s)).

(** [s.strip()] *)
Definition strip (s : str) : str := rstrip (lstrip s).

(** [s.replace(a, b)] for one-character [a] and [b]. *)
Definition replace (a b : N) (s : str) : str :=
  map (fun c => if c =? a then b else c) s.

(** [s.split(sep)] for a one-character separator: always at least one part. *)
Fixpoint split (sep : N) (s : str) : list str :=
  match s with
  | [] => [[]]
  | c :: s' =>
      if c =? sep then [] :: split sep s'
      else match split sep s' with
           | [] => [[c]]
           | p :: ps => (c :: p) :: ps
           end
  end.

End Py.

(** ** [urllib.parse.quote] and [urllib.parse.unquote]

    Both work through the UTF-8 form of a string: [quote] encodes the
    string (strictly: a lone surrogate raises [UnicodeEncodeError], here
    [None]) and escapes every byte outside the safe set as [%XX];
    [unquote] undoes the escapes inside every run of ASCII characters and
    decodes the bytes obtained, replacing what is not UTF-8 by U+FFFD. *)

Module Urllib.
Import Py.

Definition byte_of_N (n : N) : Byte.byte :=
  match Byte.of_N n with Some b => b | None => Byte.x00 end.

(** [chr(b)] for a byte [b]. *)
Definition chr (b : Byte.byte) : N := Byte.to_N b.

(** The UTF-8 form of one code point; [None] for a surrogate. *)
Definition utf8_encode_cp (c : N) : option bytes :=
  if c <? 128 then Some [byte_of_N c]
  else if c <? 2048 then
    Some [byte_of_N (192 + c / 64); byte_of_N (128 + c mod 64)]
  else if c <? 65536 then
    if (55296 <=? c) && (c <=? 57343) then None
    else Some [byte_of_N (224 + c / 4096);
               byte_of_N (128 + (c / 64) mod 64);
               byte_of_N (128 + c mod 64)]
  else if c <? 1114112 then
    Some [byte_of_N (240 + c / 262144);
          byte_of_N (128 + (c / 4096) mod 64);
          byte_of_N (128 + (c / 64) mod 64);
          byte_of_N (128 + c mod 64)]
  else None.

(** [s.encode('utf-8')], errors strict. *)
Fixpoint utf8_encode (s : str) : option bytes :=
  match s with
  | [] => Some []
  | c :: s' =>
      match utf8_encode_cp c, utf8_encode s' with
      | Some b, Some bs => Some (b ++ bs)
      | _, _ => None
      end
  end.

Definition in_range (lo hi b : N) : bool := (lo <=? b) && (b <=? hi).

(** A continuation byte. *)
Definition is_cont (b : N) : bool := in_range 128 191 b.

(** The second byte of a three-byte sequence: no overlong form (lead E0),
    no surrogate (lead ED). *)
Definition second3_ok (b0 b1 : N) : bool :=
  if b0 =? 224 then in_range 160 191 b1
  else if b0 =? 237 then in_range 128 159 b1
  else is_cont b1.

(** The second byte of a four-byte sequence: no overlong form (lead F0),
    nothing above U+10FFFF (lead F4). *)
Definition second4_ok (b0 b1 : N) : bool :=
  if b0 =? 240 then in_range 144 191 b1
  else if b0 =? 244 then in_range 128 143 b1
  else is_cont b1.

Definition replacement : N := 65533.

(** [bs.decode('utf-8', 'replace')] on the values of the bytes: every
    maximal ill-formed piece becomes one U+FFFD and decoding resumes at
    the byte that broke the sequence. *)
Fixpoint utf8_decode_N (bs : list N) : str :=
  match bs with
  | [] => []
  | b0 :: r0 =>
      if b0 <? 128 then b0 :: utf8_decode_N r0
      else if in_range 194 223 b0 then
        match r0 with
        | b1 :: r1 =>
            if is_cont b1
            then ((b0 - 192) * 64 + (b1 - 128)) :: utf8_decode_N r1
            else replacement :: utf8_decode_N r0
        | [] => [replacement]
        end
      else if in_range 224 239 b0 then
        match r0 with
        | b1 :: r1 =>
            if second3_ok b0 b1 then
              match r1 with
              | b2 :: r2 =>
                  if is_cont b2
                  then ((b0 - 224) * 4096 + (b1 - 128) * 64 + (b2 - 128))
                         :: utf8_decode_N r2
                  else replacement :: utf8_decode_N r1
              | [] => [replacement]
              end
            else replacement :: utf8_decode_N r0
        | [] => [replacement]
        end
      else if in_range 240 244 b0 then
        match r0 with
        | b1 :: r1 =>
            if second4_ok b0 b1 then
              match r1 with
              | b2 :: r2 =>
                  if is_cont b2 then
                    match r2 with
                    | b3 :: r3 =>
                        if is_cont b3
                        then ((b0 - 240) * 262144 + (b1 - 128) * 4096
                              + (b2 - 128) * 64 + (b3 - 128))
                               :: utf8_decode_N r3
                        else replacement :: utf8_decode_N r2
                    | [] => [replacement]
                    end
                  else replacement :: utf8_decode_N r1
              | [] => [replacement]
              end
            else replacement :: utf8_decode_N r0
        | [] => [replacement]
        end
      else replacement :: utf8_decode_N r0
  end.

Definition utf8_decode (bs : bytes) : str := utf8_decode_N (map Byte.to_N bs).

(** [_ALWAYS_SAFE] together with the default [safe='/']. *)
Definition safe_chars : str :=
  lit "ABCDEFGHIJKLMNOPQRSTUVWXYZabcdefghijklmnopqrstuvwxyz0123456789_.-~/".

Definition hex_digit (n : N) : N :=
  if n <? 10 then 48 + n else 55 + n.

(** The quoter: [chr(b)] for a safe byte, ['%{:02X}'.format(b)] otherwise. *)
Definition quote_byte (b : Byte.byte) : str :=
  let n := Byte.to_N b in
  if char_in n safe_chars then [n]
  else [37; hex_digit (n / 16); hex_digit (n mod 16)].

(** [urllib.parse.quote(s)] *)
Definition quote (s : str) : option str :=
  match utf8_encode s with
  | Some bs => Some (flat_map quote_byte bs)
  | None => None
  end.

(** The value of a hexadecimal digit, of either case. *)
Definition hex_value (c : N) : option N :=
  if (48 <=? c) && (c <=? 57) then Some (c - 48)
  else if (65 <=? c) && (c <=? 70) then Some (c - 55)
  else if (97 <=? c) && (c <=? 102) then Some (c - 87)
  else None.

(** [unquote_to_bytes] on the bytes of an ASCII string: [%XX] becomes the
    byte, a [%] that two hexadecimal digits do not follow stays. *)
Fixpoint unquote_to_bytes (s : list N) : bytes :=
  match s with
  | [] => []
  | c :: r =>
      if c =? 37 then
        match r with
        | h1 :: h2 :: r2 =>
            match hex_value h1, hex_value h2 with
            | Some a, Some b => byte_of_N (16 * a + b) :: unquote_to_bytes r2
            | _, _ => byte_of_N c :: unquote_to_bytes r
            end
        | _ => byte_of_N c :: unquote_to_bytes r
        end
      else byte_of_N c :: unquote_to_bytes r
  end.

(** One ASCII run of [unquote], given reversed. *)
Definition unquote_run (run : list N) : str :=
  utf8_decode (unquote_to_bytes (rev run)).

(** The split of [unquote] into runs of ASCII characters, which are
    unquoted and decoded, and the characters between them, which are kept. *)
Fixpoint unquote_runs (run : list N) (s : str) : str :=
  match s with
  | [] => unquote_run run
  | c :: s' =>
      if c <? 128 then unquote_runs (c :: run) s'
      else unquote_run run ++ c :: unquote_runs [] s'
  end.

(** [urllib.parse.unquote(s)] *)
Definition unquote (s : str) : str :=
  if char_in 37 s then unquote_runs [] s else s.

End Urllib.

(** ** Text files

    A file is the text it holds, [None] when it does not exist.  Writing
    in mode ["a"] appends to the text and creates the file; iterating over
    a file opened in text mode yields its lines, each line break (LF, CR or
    CR LF) read as one LF that ends the line. *)

Module TextFile.
Import Py.

Definition file := option str.

Definition nl : str := [10].

Fixpoint lines_from (cur : str) (s : str) : list str :=
  match s with
  | [] => match cur with [] => [] | _ :: _ => [rev cur] end
  | c :: r =>
      if c =? 10 then rev (10 :: cur) :: lines_from [] r
      else if c =? 13 then
        match r with
        | c' :: r' =>
            if c' =? 10 then rev (10 :: cur) :: lines_from [] r'
            else rev (10 :: cur) :: lines_from [] r
        | [] => [rev (10 :: cur)]
        end
      else lines_from (c :: cur) r
  end.

(** [for line in f] *)
Definition lines (content : str) : list str := lines_from [] content.

(** [open(path, "a").write(text)] *)
Definition append_text (f : file) (text : str) : file :=
  match f with
  | Some content => Some (content ++ text)
  | None => Some text
  end.

(** The files of one directory, by name, in the order [os.listdir] gives. *)
Definition directory := list (str * str).

Fixpoint read (name : str) (d : directory) : file :=
  match d with
  | [] => None
  | (n, c) :: d' => if str_eqb n name then Some c else read name d'
  end.

Fixpoint store (name : str) (content : str) (d : directory) : directory :=
  match d with
  | [] => [(name, content)]
  | (n, c) :: d' =>
      if str_eqb n name then (n, content) :: d'
      else (n, c) :: store name content d'
  end.

(** The directory after an operation [op] on the file [name]. *)
Definition update (name : str) (op : file -> file) (d : directory) : directory :=
  match op (read name d) with
  | Some content => store name content d
  | None => d
  end.

Definition listdir (d : directory) : list str := map fst d.

End TextFile.

(** ** Shapes of strings and files the properties speak of *)

Import Py TextFile Urllib.

(** A Unicode scalar value: a code point that is not a surrogate.  These
    are the code points [str.encode('utf-8')] accepts. *)
Definition scalar (c : N) : bool :=
  (c <? 1114112) && negb ((55296 <=? c) && (c <=? 57343)).

(** An ASCII character that is not white space. *)
Definition plain (c : N) : bool := (c <? 128) && negb (isspace c).

(** [s.encode('utf-8')] does not raise: [s] can be written to a text
    file and be quoted.  A lone surrogate, as [os.listdir] and [os.walk]
    give for a file name that is not valid UTF-8, makes it raise. *)
Definition encodable (s : str) : bool :=
  match utf8_encode s with
  | Some _ => true
  | None => false
  end.

Definition nonspace_head (s : str) : bool :=
  match s with
  | [] => false
  | c :: _ => negb (isspace c)
  end.

(** A non-empty string with no white space at either end: [s.strip()]
    leaves it as it is. *)
Definition trimmed (s : str) : bool :=
  nonspace_head s && nonspace_head (rev s).

Definition no_break (s : str) : bool :=
  forallb (fun c => negb (c =? 10) && negb (c =? 13)) s.

(** What one line of a log can hold: a trimmed string without a line
    break. *)
Definition one_line (s : str) : bool := trimmed s && no_break s.

(** A text whose last line is complete: empty, or ending in a line feed. *)
Definition complete (content : str) : bool :=
  match rev content with
  | [] => true
  | c :: _ => c =? 10
  end.

(** A log file whose last line is complete, or that does not exist. *)
Definition complete_file (f : file) : bool :=
  match f with
  | Some content => complete content
  | None => true
  end.

(** * Facts on the library model *)

(** ** Strings *)

Lemma str_eqb_eq a b : str_eqb a b = true <-> a = b.
Proof.
  unfold str_eqb. destruct (list_eq_dec N.eq_dec a b); split; congruence.
Qed.

Lemma str_eqb_refl a : str_eqb a a = true.
Proof. now apply str_eqb_eq. Qed.

Lemma mem_In x xs : mem x xs = true <-> In x xs.
Proof.
  unfold mem. rewrite existsb_exists. split.
  - intros [y [Hy E]]. apply str_eqb_eq in E. now subst.
  - intros H. exists x. split; [assumption | apply str_eqb_refl].
Qed.

Lemma char_in_In c s : char_in c s = true <-> In c s.
Proof.
  unfold char_in. rewrite existsb_exists. split.
  - intros [y [Hy E]]. apply N.eqb_eq in E. now subst.
  - intros H. exists c. split; [assumption | apply N.eqb_refl].
Qed.

Lemma startswith_app p s : startswith (p ++ s) p = true.
Proof. induction p as [|a p IH]; simpl; [reflexivity|]. now rewrite N.eqb_refl. Qed.

Lemma startswith_spec s p : startswith s p = true <-> exists t, s = p ++ t.
Proof.
  revert s. induction p as [|a p IH]; intros s; simpl.
  - split; [intros _; now exists s | reflexivity].
  - destruct s as [|b s]; simpl.
    + split; [discriminate | intros [t Ht]; discriminate].
    + rewrite andb_true_iff, N.eqb_eq, IH. split.
      * intros [-> [t ->]]. now exists t.
      * intros [t Ht]. injection Ht as -> ->. split; [reflexivity | now exists t].
Qed.


(** ** The codec *)

Ltac arith := zify; Z.to_euclidean_division_equations; lia.

Lemma to_N_byte_of_N n : n < 256 -> Byte.to_N (byte_of_N n) = n.
Proof.
  intros H. unfold byte_of_N. destruct (Byte.of_N n) as [b|] eqn:E.
  - now apply Byte.to_of_N.
  - apply Byte.of_N_None_iff in E. lia.
Qed.

Lemma byte_of_N_to_N b : byte_of_N (Byte.to_N b) = b.
Proof. unfold byte_of_N. now rewrite Byte.of_to_N. Qed.

Lemma in_range_true lo hi b : lo <= b <= hi -> in_range lo hi b = true.
Proof.
  intros [H1 H2]. unfold in_range.
  apply N.leb_le in H1, H2. now rewrite H1, H2.
Qed.

Lemma in_range_false lo hi b : b < lo \/ hi < b -> in_range lo hi b = false.
Proof.
  intros H. unfold in_range. apply andb_false_iff.
  destruct H as [H|H]; [left|right]; now apply N.leb_gt.
Qed.

Lemma ltb_false a b : b <= a -> (a <? b) = false.
Proof. apply N.ltb_ge. Qed.

Lemma second3_ok_true b0 b1 :
  128 <= b1 <= 191 -> (b0 = 224 -> 160 <= b1) -> (b0 = 237 -> b1 <= 159) ->
  second3_ok b0 b1 = true.
Proof.
  intros H Hlow Hsur. unfold second3_ok, is_cont.
  destruct (N.eqb_spec b0 224) as [E|E].
  - apply in_range_true. specialize (Hlow E). lia.
  - destruct (N.eqb_spec b0 237) as [E'|E']; apply in_range_true;
      [specialize (Hsur E')|]; lia.
Qed.

Lemma second4_ok_true b0 b1 :
  128 <= b1 <= 191 -> (b0 = 240 -> 144 <= b1) -> (b0 = 244 -> b1 <= 143) ->
  second4_ok b0 b1 = true.
Proof.
  intros H Hlow Hhigh. unfold second4_ok, is_cont.
  destruct (N.eqb_spec b0 240) as [E|E].
  - apply in_range_true. specialize (Hlow E). lia.
  - destruct (N.eqb_spec b0 244) as [E'|E']; apply in_range_true;
      [specialize (Hhigh E')|]; lia.
Qed.

Lemma decode1 b0 r : b0 < 128 -> utf8_decode_N (b0 :: r) = b0 :: utf8_decode_N r.
Proof. intros H. cbn [utf8_decode_N]. apply N.ltb_lt in H. now rewrite H. Qed.

Lemma decode2 b0 b1 r :
  194 <= b0 <= 223 -> 128 <= b1 <= 191 ->
  utf8_decode_N (b0 :: b1 :: r) = ((b0 - 192) * 64 + (b1 - 128)) :: utf8_decode_N r.
Proof.
  intros H0 H1. cbn [utf8_decode_N]. unfold is_cont.
  rewrite ltb_false by lia. now rewrite !in_range_true by lia.
Qed.

Lemma decode3 b0 b1 b2 r :
  224 <= b0 <= 239 -> 128 <= b1 <= 191 -> 128 <= b2 <= 191 ->
  (b0 = 224 -> 160 <= b1) -> (b0 = 237 -> b1 <= 159) ->
  utf8_decode_N (b0 :: b1 :: b2 :: r)
  = ((b0 - 224) * 4096 + (b1 - 128) * 64 + (b2 - 128)) :: utf8_decode_N r.
Proof.
  intros H0 H1 H2 Hlow Hsur. cbn [utf8_decode_N].
  rewrite ltb_false by lia.
  rewrite (in_range_false 194 223) by lia.
  rewrite (in_range_true 224 239) by lia.
  rewrite second3_ok_true by assumption.
  unfold is_cont. now rewrite in_range_true by lia.
Qed.

Lemma decode4 b0 b1 b2 b3 r :
  240 <= b0 <= 244 -> 128 <= b1 <= 191 -> 128 <= b2 <= 191 -> 128 <= b3 <= 191 ->
  (b0 = 240 -> 144 <= b1) -> (b0 = 244 -> b1 <= 143) ->
  utf8_decode_N (b0 :: b1 :: b2 :: b3 :: r)
  = ((b0 - 240) * 262144 + (b1 - 128) * 4096 + (b2 - 128) * 64 + (b3 - 128))
      :: utf8_decode_N r.
Proof.
  intros H0 H1 H2 H3 Hlow Hhigh. cbn [utf8_decode_N].
  rewrite ltb_false by lia.
  rewrite (in_range_false 194 223) by lia.
  rewrite (in_range_false 224 239) by lia.
  rewrite (in_range_true 240 244) by lia.
  rewrite second4_ok_true by assumption.
  unfold is_cont. now rewrite !in_range_true by lia.
Qed.
Lemma Some_eq {A} (x y : A) : Some x = Some y -> x = y.
Proof. congruence. Qed.

Ltac byte_values :=
  repeat match goal with
  | |- context [Byte.to_N (byte_of_N ?n)] =>
      rewrite (to_N_byte_of_N n) by arith
  end.

(** Decoding undoes the encoding of one code point. *)
Lemma utf8_decode_encode_cp c bs r :
  utf8_encode_cp c = Some bs ->
  utf8_decode_N (map Byte.to_N bs ++ r) = c :: utf8_decode_N r.
Proof.
  unfold utf8_encode_cp.
  destruct (N.ltb_spec c 128) as [H1|H1].
  { intros E. apply Some_eq in E. subst bs. cbn [map app].
    rewrite to_N_byte_of_N by lia. now apply decode1. }
  destruct (N.ltb_spec c 2048) as [H2|H2].
  { intros E. apply Some_eq in E. subst bs. cbn [map app]. byte_values.
    rewrite decode2 by arith. f_equal. arith. }
  destruct (N.ltb_spec c 65536) as [H3|H3].
  { destruct (N.leb_spec 55296 c) as [H4|H4]; cbn [andb].
    - destruct (N.leb_spec c 57343) as [H5|H5]; [discriminate|].
      intros E. apply Some_eq in E. subst bs. cbn [map app]. byte_values.
      rewrite decode3 by arith. f_equal. arith.
    - intros E. apply Some_eq in E. subst bs. cbn [map app]. byte_values.
      rewrite decode3 by arith. f_equal. arith. }
  destruct (N.ltb_spec c 1114112) as [H4|H4]; [|discriminate].
  intros E. apply Some_eq in E. subst bs. cbn [map app]. byte_values.
  rewrite decode4 by arith. f_equal. arith.
Qed.

Lemma utf8_decode_encode s bs : utf8_encode s = Some bs -> utf8_decode bs = s.
Proof.
  unfold utf8_decode. revert bs. induction s as [|c s IH]; intros bs; simpl.
  - now intros [= <-].
  - destruct (utf8_encode_cp c) as [b|] eqn:Ec; [|discriminate].
    destruct (utf8_encode s) as [bs'|]; [|discriminate].
    intros [= <-]. rewrite map_app, (utf8_decode_encode_cp _ _ _ Ec).
    f_equal. now apply IH.
Qed.

Lemma quote_byte_plain b : forallb plain (quote_byte b) = true.
Proof. destruct b; reflexivity. Qed.

Lemma unquote_quote_byte b r :
  unquote_to_bytes (quote_byte b ++ r) = b :: unquote_to_bytes r.
Proof. destruct b; reflexivity. Qed.

Lemma unquote_to_bytes_quote bs : unquote_to_bytes (flat_map quote_byte bs) = bs.
Proof.
  induction bs as [|b bs IH]; [reflexivity|].
  cbn [flat_map]. rewrite unquote_quote_byte. now f_equal.
Qed.

Lemma quoted_plain bs : forallb plain (flat_map quote_byte bs) = true.
Proof.
  induction bs as [|b bs IH]; [reflexivity|].
  cbn [flat_map]. rewrite forallb_app, quote_byte_plain. exact IH.
Qed.

Lemma quote_plain s q : quote s = Some q -> forallb plain q = true.
Proof.
  unfold quote. destruct (utf8_encode s); [|discriminate].
  intros E. apply Some_eq in E. subst q. apply quoted_plain.
Qed.

Lemma plain_ascii s : forallb plain s = true -> forallb (fun c => c <? 128) s = true.
Proof.
  rewrite !forallb_forall. intros H c Hc. specialize (H c Hc).
  unfold plain in H. now apply andb_true_iff in H.
Qed.

Lemma unquote_runs_ascii s run :
  forallb (fun c => c <? 128) s = true ->
  unquote_runs run s = unquote_run (rev s ++ run).
Proof.
  revert run. induction s as [|c s IH]; intros run H; [reflexivity|].
  cbn [forallb] in H. apply andb_true_iff in H. destruct H as [Hc Hs].
  cbn [unquote_runs]. rewrite Hc, IH by assumption.
  cbn [rev]. now rewrite <- app_assoc.
Qed.

Lemma decode_unescaped s :
  forallb (fun c => c <? 128) s = true -> char_in 37 s = false ->
  utf8_decode (unquote_to_bytes s) = s.
Proof.
  unfold utf8_decode. induction s as [|c s IH]; intros Ha Hp; [reflexivity|].
  cbn [forallb] in Ha. apply andb_true_iff in Ha. destruct Ha as [Hc Hs].
  unfold char_in in Hp. cbn [existsb] in Hp. apply orb_false_iff in Hp.
  destruct Hp as [Hc' Hp]. apply N.ltb_lt in Hc.
  cbn [unquote_to_bytes]. rewrite N.eqb_sym, Hc'. cbn [map].
  rewrite to_N_byte_of_N by lia. rewrite decode1 by assumption.
  f_equal. now apply IH.
Qed.

(** On ASCII text [unquote] is the decoding of the unescaped bytes. *)
Lemma unquote_ascii s :
  forallb (fun c => c <? 128) s = true ->
  unquote s = utf8_decode (unquote_to_bytes s).
Proof.
  intros H. unfold unquote. destruct (char_in 37 s) eqn:E.
  - rewrite unquote_runs_ascii by assumption. unfold unquote_run.
    now rewrite app_nil_r, rev_involutive.
  - symmetry. now apply decode_unescaped.
Qed.

(** [unquote] undoes [quote]. *)
Lemma unquote_quote s q : quote s = Some q -> unquote q = s.
Proof.
  intros H. rewrite unquote_ascii by (apply plain_ascii; eapply quote_plain; eassumption).
  unfold quote in H. destruct (utf8_encode s) as [bs|] eqn:E; [|discriminate].
  apply Some_eq in H. subst q. rewrite unquote_to_bytes_quote.
  now apply utf8_decode_encode.
Qed.

Lemma utf8_encode_scalar s :
  forallb scalar s = true -> exists bs, utf8_encode s = Some bs.
Proof.
  induction s as [|c s IH]; intros H; [now exists []|].
  cbn [forallb] in H. apply andb_true_iff in H. destruct H as [Hc Hs].
  destruct (IH Hs) as [bs Hbs]. cbn [utf8_encode]. rewrite Hbs.
  unfold scalar in Hc. apply andb_true_iff in Hc. destruct Hc as [Hlt Hsur].
  unfold utf8_encode_cp. rewrite Hlt.
  apply negb_true_iff in Hsur. rewrite Hsur.
  destruct (c <? 128); [eauto|]. destruct (c <? 2048); [eauto|].
  destruct (c <? 65536); eauto.
Qed.

Lemma quote_scalar s : forallb scalar s = true -> exists q, quote s = Some q.
Proof.
  intros H. destruct (utf8_encode_scalar s H) as [bs E].
  unfold quote. rewrite E. eauto.
Qed.

(** *** Stripping *)

Lemma forallb_rev_true (p : N -> bool) s :
  forallb p s = true -> forallb p (rev s) = true.
Proof.
  rewrite !forallb_forall. intros H c Hc. apply H. now apply in_rev.
Qed.

Lemma lstrip_spaces ws s : forallb isspace ws = true -> lstrip (ws ++ s) = lstrip s.
Proof.
  induction ws as [|w ws IH]; intros H; [reflexivity|].
  cbn [forallb] in H. apply andb_true_iff in H. destruct H as [Hw Hws].
  cbn [app lstrip]. rewrite Hw. now apply IH.
Qed.

Lemma lstrip_nonspace_head s : nonspace_head s = true -> lstrip s = s.
Proof.
  destruct s as [|c s]; [discriminate|]. cbn [nonspace_head lstrip].
  intros H. apply negb_true_iff in H. now rewrite H.
Qed.

Lemma nonspace_head_app s t : nonspace_head s = true -> nonspace_head (s ++ t) = true.
Proof. destruct s; [discriminate | trivial]. Qed.

(** Stripping a trimmed string followed by white space gives the string. *)
Lemma strip_trimmed s ws :
  trimmed s = true -> forallb isspace ws = true -> strip (s ++ ws) = s.
Proof.
  unfold trimmed. intros H Hws. apply andb_true_iff in H. destruct H as [Hh Hl].
  unfold strip, rstrip.
  rewrite (lstrip_nonspace_head (s ++ ws)) by now apply nonspace_head_app.
  rewrite rev_app_distr, lstrip_spaces by now apply forallb_rev_true.
  rewrite lstrip_nonspace_head by assumption. apply rev_involutive.
Qed.

Lemma strip_trimmed_nl s : trimmed s = true -> strip (s ++ nl) = s.
Proof. intros H. now apply strip_trimmed. Qed.

Lemma strip_trimmed_id s : trimmed s = true -> strip s = s.
Proof. intros H. rewrite <- (app_nil_r s) at 1. now apply strip_trimmed. Qed.

Lemma trimmed_of_nonspace s :
  nonempty s = true -> forallb (fun c => negb (isspace c)) s = true ->
  trimmed s = true.
Proof.
  intros Hne H. unfold trimmed. apply andb_true_iff. split.
  - destruct s as [|c s]; [discriminate|]. cbn [forallb] in H.
    now apply andb_true_iff in H.
  - apply forallb_rev_true in H. destruct (rev s) as [|c r] eqn:E.
    + apply (f_equal (@List.length N)) in E. rewrite length_rev in E.
      destruct s; discriminate.
    + cbn [forallb] in H. now apply andb_true_iff in H.
Qed.

Lemma plain_nonspace s :
  forallb plain s = true -> forallb (fun c => negb (isspace c)) s = true.
Proof.
  rewrite !forallb_forall. intros H c Hc. specialize (H c Hc).
  unfold plain in H. now apply andb_true_iff in H.
Qed.

(** ** Lines of a text file *)

Lemma lines_from_line e cur :
  no_break e = true -> lines_from cur (e ++ nl) = [rev cur ++ e ++ nl].
Proof.
  revert cur. induction e as [|c e IH]; intros cur H.
  - reflexivity.
  - unfold no_break in H. cbn [forallb] in H. apply andb_true_iff in H.
    destruct H as [Hc He]. apply andb_true_iff in Hc. destruct Hc as [H10 H13].
    apply negb_true_iff in H10, H13.
    cbn [app lines_from]. rewrite H10, H13, IH by exact He.
    cbn [rev]. now rewrite <- app_assoc.
Qed.

Lemma complete_cons c r : r <> [] -> complete (c :: r) = complete r.
Proof.
  intros H. unfold complete. cbn [rev].
  destruct (rev r) as [|z zs] eqn:E; [|reflexivity].
  apply (f_equal (@rev N)) in E. rewrite rev_involutive in E. contradiction.
Qed.

Lemma complete_single c : complete [c] = (c =? 10).
Proof. reflexivity. Qed.

Lemma lines_from_lf cur r :
  lines_from cur (10 :: r) = rev (10 :: cur) :: lines_from [] r.
Proof. reflexivity. Qed.

Lemma lines_from_crlf cur r :
  lines_from cur (13 :: 10 :: r) = rev (10 :: cur) :: lines_from [] r.
Proof. reflexivity. Qed.

Lemma lines_from_cr cur c r :
  c <> 10 -> lines_from cur (13 :: c :: r) = rev (10 :: cur) :: lines_from [] (c :: r).
Proof.
  intros H. apply N.eqb_neq in H.
  change (lines_from cur (13 :: c :: r))
    with (if c =? 10 then rev (10 :: cur) :: lines_from [] r
          else rev (10 :: cur) :: lines_from [] (c :: r)).
  now rewrite H.
Qed.

Lemma lines_from_other cur c r :
  c <> 10 -> c <> 13 -> lines_from cur (c :: r) = lines_from (c :: cur) r.
Proof.
  intros H10 H13. apply N.eqb_neq in H10, H13.
  change (lines_from cur (c :: r))
    with (if c =? 10 then rev (10 :: cur) :: lines_from [] r
          else if c =? 13 then
                 match r with
                 | c' :: r' =>
                     if c' =? 10 then rev (10 :: cur) :: lines_from [] r'
                     else rev (10 :: cur) :: lines_from [] r
                 | [] => [rev (10 :: cur)]
                 end
               else lines_from (c :: cur) r).
  now rewrite H10, H13.
Qed.

(** What follows a complete text starts a line of its own. *)
Lemma lines_from_app s : forall cur t,
  s <> [] -> complete s = true ->
  lines_from cur (s ++ t) = lines_from cur s ++ lines_from [] t.
Proof.
  remember (List.length s) as n eqn:En.
  revert s En. induction n as [n IH] using lt_wf_ind.
  intros s En cur t Hne Hc. destruct s as [|c r]; [contradiction|].
  assert (Hrec : forall s' cur', (List.length s' < n)%nat -> s' <> [] ->
             complete s' = true ->
             lines_from cur' (s' ++ t) = lines_from cur' s' ++ lines_from [] t).
  { intros s' cur' Hlt Hne' Hc'. now apply (IH (List.length s')). }
  clear IH. subst n. cbn [List.length] in Hrec.
  rewrite <- app_comm_cons.
  destruct (N.eq_dec c 10) as [->|Hc10].
  { rewrite !lines_from_lf. destruct r as [|c' r']; [reflexivity|].
    rewrite complete_cons in Hc by discriminate.
    rewrite Hrec; [reflexivity | cbn [List.length]; lia | discriminate | exact Hc]. }
  destruct r as [|c' r'].
  { rewrite complete_single in Hc. apply N.eqb_eq in Hc. contradiction. }
  rewrite complete_cons in Hc by discriminate.
  destruct (N.eq_dec c 13) as [->|Hc13].
  - rewrite <- app_comm_cons. destruct (N.eq_dec c' 10) as [->|Hc'].
    + rewrite !lines_from_crlf. destruct r' as [|c'' r'']; [reflexivity|].
      rewrite complete_cons in Hc by discriminate.
      rewrite Hrec; [reflexivity | cbn [List.length]; lia | discriminate | exact Hc].
    + rewrite !lines_from_cr by assumption. rewrite app_comm_cons.
      rewrite Hrec; [reflexivity | cbn [List.length]; lia | discriminate | exact Hc].
  - rewrite !lines_from_other by assumption.
    rewrite Hrec; [reflexivity | cbn [List.length]; lia | discriminate | exact Hc].
Qed.

(** Appending one line to a complete text adds that line. *)
Lemma lines_append content e :
  complete content = true -> no_break e = true ->
  lines (content ++ e ++ nl) = lines content ++ [e ++ nl].
Proof.
  intros Hc He. unfold lines. destruct content as [|c r].
  - cbn [app]. now rewrite lines_from_line.
  - rewrite lines_from_app by (trivial; discriminate).
    now rewrite lines_from_line.
Qed.

Lemma complete_append content e : complete (content ++ e ++ nl) = true.
Proof.
  unfold complete. now rewrite !rev_app_distr.
Qed.

Lemma trimmed_nonempty s : trimmed s = true -> nonempty s = true.
Proof. destruct s; [discriminate | reflexivity]. Qed.

(** *** What [strip] removes *)

Lemma lstrip_split s :
  exists l, s = l ++ lstrip s /\ forallb isspace l = true.
Proof.
  induction s as [|c s [l [E Hl]]]; [now exists []|].
  cbn [lstrip]. destruct (isspace c) eqn:Hc.
  - exists (c :: l). cbn [app forallb]. rewrite Hc, Hl. split; [now f_equal | reflexivity].
  - now exists [].
Qed.

Lemma lstrip_head s : lstrip s = [] \/ nonspace_head (lstrip s) = true.
Proof.
  induction s as [|c s IH]; [now left|].
  cbn [lstrip]. destruct (isspace c) eqn:Hc; [exact IH|].
  right. cbn [nonspace_head]. now rewrite Hc.
Qed.

Lemma rstrip_split s :
  exists r, s = rstrip s ++ r /\ forallb isspace r = true.
Proof.
  destruct (lstrip_split (rev s)) as [l [E Hl]].
  exists (rev l). split; [|now apply forallb_rev_true].
  unfold rstrip. rewrite <- rev_app_distr, <- E. now rewrite rev_involutive.
Qed.

(** [s.strip()] is [s] without the white space around it: the string
    is the result between two runs of white space, and the result is
    empty or has no white space at either end. *)
Lemma strip_split s :
  exists l r, s = l ++ strip s ++ r
              /\ forallb isspace l = true /\ forallb isspace r = true
              /\ (strip s = [] \/ trimmed (strip s) = true).
Proof.
  destruct (lstrip_split s) as [l [El Hl]].
  destruct (rstrip_split (lstrip s)) as [r [Er Hr]].
  exists l, r. fold (strip s) in Er. repeat split; try assumption.
  - now rewrite <- Er.
  - destruct (strip s) as [|c t] eqn:E; [now left|]. right.
    unfold trimmed. apply andb_true_iff. split.
    + destruct (lstrip_head s) as [H|H].
      * rewrite H in Er. discriminate.
      * rewrite Er in H. exact H.
    + rewrite <- E. unfold strip, rstrip. rewrite rev_involutive.
      destruct (lstrip_head (rev (lstrip s))) as [H|H]; [|exact H].
      unfold strip, rstrip in E. rewrite H in E. discriminate.
Qed.

Lemma strip_incl s c : In c (strip s) -> In c s.
Proof.
  destruct (strip_split s) as [l [r [E _]]]. intros H.
  rewrite E. apply in_or_app. right. apply in_or_app. now left.
Qed.

Lemma firstn_incl (n : nat) (s : str) c : In c (firstn n s) -> In c s.
Proof.
  intros H. rewrite <- (firstn_skipn n s). apply in_or_app. now left.
Qed.

(** ASCII text is encoded character by character. *)
Lemma encodable_scalar s : forallb scalar s = true -> encodable s = true.
Proof.
  intros H. unfold encodable. now destruct (utf8_encode_scalar s H) as [bs ->].
Qed.

Lemma utf8_encode_ascii s :
  forallb (fun c => c <? 128) s = true ->
  utf8_encode s = Some (map byte_of_N s).
Proof.
  induction s as [|c s IH]; intros H; [reflexivity|].
  cbn [forallb] in H. apply andb_true_iff in H. destruct H as [Hc Hs].
  cbn [utf8_encode map]. rewrite (IH Hs). unfold utf8_encode_cp. now rewrite Hc.
Qed.

(** ** Directories *)

Lemma read_store_same n c d : read n (store n c d) = Some c.
Proof.
  induction d as [|[m c'] d IH]; cbn [store read].
  - now rewrite str_eqb_refl.
  - destruct (str_eqb m n) eqn:E; cbn [read]; now rewrite E.
Qed.

Lemma read_store_other n m c d : m <> n -> read n (store m c d) = read n d.
Proof.
  intros Hne.
  assert (Hmn : str_eqb m n = false).
  { destruct (str_eqb m n) eqn:E; [|reflexivity].
    apply str_eqb_eq in E. contradiction. }
  induction d as [|[x c'] d IH]; cbn [store read].
  - now rewrite Hmn.
  - destruct (str_eqb x m) eqn:E; cbn [read].
    + apply str_eqb_eq in E. subst x. now rewrite Hmn.
    + now rewrite IH.
Qed.

(** Appending to a file of a directory shows in that file and in no other. *)
Lemma read_append_same n text d :
  read n (update n (fun f => append_text f text) d) = append_text (read n d) text.
Proof.
  unfold update. destruct (read n d) as [c|]; cbn [append_text];
    apply read_store_same.
Qed.

Lemma listdir_store n c d :
  listdir (store n c d) = listdir d \/ listdir (store n c d) = listdir d ++ [n].
Proof.
  unfold listdir. induction d as [|[m c'] d IH]; cbn [store map fst].
  - now right.
  - destruct (str_eqb m n); cbn [map fst]; [now left|].
    destruct IH as [-> | ->]; [now left | now right].
Qed.

Lemma read_update_same n op d c :
  op (read n d) = Some c -> read n (update n op d) = Some c.
Proof. intros H. unfold update. rewrite H. apply read_store_same. Qed.

Lemma read_update_other n m op d : m <> n -> read n (update m op d) = read n d.
Proof.
  intros Hne. unfold update. destruct (op (read m d)); [|reflexivity].
  now apply read_store_other.
Qed.

(** ** Lists *)

Lemma filter_eq_app {A} (p : A -> bool) (l a : list A) x b :
  filter p l = a ++ x :: b ->
  exists a' b', l = a' ++ x :: b' /\ filter p a' = a /\ filter p b' = b.
Proof.
  revert a. induction l as [|y l IH]; intros a H; cbn [filter] in H.
  - destruct a; discriminate.
  - destruct (p y) eqn:Hy.
    + destruct a as [|z a]; cbn [app] in H.
      * injection H as -> Hb. exists [], l. cbn [filter app]. now repeat split.
      * injection H as -> Hb. destruct (IH a Hb) as [a' [b' [E [Ha Hb']]]].
        exists (z :: a'), b'. cbn [filter app]. rewrite Hy, Ha, E. now repeat split.
    + destruct (IH a H) as [a' [b' [E [Ha Hb']]]].
      exists (y :: a'), b'. cbn [filter app]. rewrite Hy, Ha, E. now repeat split.
Qed.

Lemma lstrip_snoc t c :
  isspace c = false -> exists t', lstrip (t ++ [c]) = t' ++ [c].
Proof.
  intros Hc. induction t as [|x t [t' IH]]; cbn [app lstrip].
  - rewrite Hc. now exists [].
  - destruct (isspace x); [now exists t' | now exists (x :: t)].
Qed.

(** Stripping keeps a first character that is not white space. *)
Lemma strip_keeps_head c s :
  isspace c = false -> exists t, strip (c :: s) = c :: t.
Proof.
  intros Hc. unfold strip, rstrip. cbn [lstrip]. rewrite Hc. cbn [rev].
  destruct (lstrip_snoc (rev s) c Hc) as [t' E]. rewrite E.
  exists (rev t'). now rewrite rev_app_distr.
Qed.

(** ** Data of the program *)

(** An entry of [all_media_items]: the dictionary built by
    [refresh_library]. *)
Record LibraryEntry := {
  name : str;
  type : str;
  path : str;
  playlist : option str;
  artist : str;
  album : str
}.

(** The player session: the globals [VLC_SOCKET] and [VLC_PROCESS],
    together with the processes and connections they stand for.  Handles
    are numbers, given out in order. *)
Record Session := {
  VLC_SOCKET : option nat;
  VLC_PROCESS : option nat;
  running : list nat;          (* processes started and not terminated *)
  connected : list nat;        (* sockets connected and not closed *)
  killed : list nat;           (* handles that received [kill()] *)
  started : list (nat * str);  (* every process started, with its target *)
  next_handle : nat
}.

(** One call of [launch_vlc]: the target, whether [subprocess.Popen]
    started the player, and whether the connection attempt that the call
    starts reached the player's control port within its five seconds. *)
Record Launch := {
  target : str;
  popen_ok : bool;
  connect_ok : bool
}.

(** What [search_and_open] reports in its message box. *)
Inductive Report :=
| NoData
| NoMatch (query : str)
| OpeningPlaylist (title : str)
| NotInHistory
| MissingFile (pdf_path : str)
| OpeningPDF (title : str)
| OpenFailed (pdf_path : str)
| Raised.

(** What [search_and_open] works on: the playlist folder, which other
    files exist, the player session, and the documents handed to the
    default application. *)
Record Desk := {
  folder : directory;
  on_disk : str -> bool;
  session : Session;
  opened : list str
}.

(** A scorer for examples: 100 for equal strings, 0 otherwise.  Every
    similarity ratio of the program agrees with it on equal strings. *)
Definition exact_score (a b : str) : Z :=
  if str_eqb a b then 100%Z else 0%Z.

(** [str.lower] on ASCII text. *)
Definition ascii_lower (s : str) : str :=
  map (fun c => if (65 <=? c) && (c <=? 90) then c + 32 else c) s.

(** The session before any launch. *)
Definition idle : Session :=
  {| VLC_SOCKET := None; VLC_PROCESS := None; running := []; connected := [];
     killed := []; started := []; next_handle := 0 |}.

(** *** Inputs of the examples *)

(** An audio entry of the library, and a desk with one descriptor, the two
    history logs of the scans and one document in the document log. *)
Definition abbey_road : LibraryEntry :=
  {| name := lit "Track1"; type := lit "Music";
     path := lit "/music/The Beatles/Abbey Road/Track1.aif";
     playlist := Some (lit "playlists/Track1.m3u");
     artist := lit "The Beatles"; album := lit "Abbey Road" |}.

Definition shelf : directory :=
  [(lit "Inception.m3u", lit "# Movie: Inception" ++ nl
                         ++ lit "file:////v/Inception.mkv" ++ nl);
   (lit "history.m3u", lit "file:////music/a.aif" ++ nl);
   (lit "pdf_history.txt", lit "/docs/report.pdf" ++ nl)].

Definition desk (exists_ : str -> bool) : Desk :=
  {| folder := shelf; on_disk := exists_; session := idle; opened := [] |}.

(** ** The program *)

Section Program.

Set Default Proof Using "Type".

(** The platform: [os.sep], [os.altsep], [os.path.abspath]; the Unicode
    tables behind [str.lower]; [hashlib.md5(s.encode()).hexdigest()]; and
    the two similarity scores of fuzzywuzzy, [process.fuzz.ratio] and the
    score [process.extractOne] gives a choice. *)
Variable os_sep : N.
Variable os_altsep : option N.
Variable abspath : str -> str.
Variable lower : str -> str.
Variable md5_hexdigest : str -> str.
Variable ratio : str -> str -> Z.
Variable extract_score : str -> str -> Z.

(** *** [os.path] *)

Definition is_sep (c : N) : bool :=
  (c =? os_sep) || match os_altsep with Some a => c =? a | None => false end.

(** [os.path.basename]: what follows the last separator (the drive
    letters of [ntpath] apart). *)
Definition basename (p : str) : str :=
  rev (take_while (fun c => negb (is_sep c)) (rev p)).

(** [os.path.splitext]: the extension starts at the last dot of the last
    component, unless only dots come before it there. *)
Definition splitext (p : str) : str * str :=
  let ext_r := take_while (fun c => negb (c =? 46) && negb (is_sep c)) (rev p) in
  match skipn (List.length ext_r) (rev p) with
  | c :: before_r =>
      if (c =? 46)
         && existsb (fun c => negb (c =? 46))
                    (take_while (fun c => negb (is_sep c)) before_r)
      then (rev before_r, 46 :: rev ext_r)
      else (p, [])
  | [] => (p, [])
  end.

(** [os.path.join(a, b)] *)
Definition join (a b : str) : str :=
  if startswith b [os_sep] then b
  else if negb (nonempty a) || endswith a [os_sep] then a ++ b
  else a ++ os_sep :: b.

(** *** Constants *)

Definition MAX_FILENAME_LENGTH : nat := 215.

Definition VALID_CHARS : str :=
  lit "-_.() "
  ++ lit "abcdefghijklmnopqrstuvwxyzABCDEFGHIJKLMNOPQRSTUVWXYZ"
  ++ lit "0123456789".

Definition PLAYLIST_FOLDER : str := lit "playlists".
Definition HISTORY_AUDIO : str := lit "history.m3u".
Definition HISTORY_VIDEO : str := lit "history2.m3u".
Definition PDF_HISTORY_FILE : str := lit "pdf_history.txt".
Definition PDF_OPENED_HISTORY_FILE : str := lit "pdf_opened_history.txt".
Definition SEARCH_HISTORY_FILE : str := lit "search_history.txt".

Definition m3u : str := lit ".m3u".
Definition scheme : str := lit "file:///".

(** *** Descriptor writers *)

(** [MKVPlaylistGenerator.sanitize_playlist_name] *)
Definition sanitize_playlist_name (name : str) : str :=
  strip (filter (fun c => char_in c VALID_CHARS) name).

(** [safe_name[:MAX_FILENAME_LENGTH - len(".m3u")]] *)
Definition truncate (safe_name : str) : str :=
  firstn (MAX_FILENAME_LENGTH - List.length m3u) safe_name.

(** The [playlist_entry] of a path: [f"file:///{urllib.parse.quote(p)}"]. *)
Definition playlist_entry (file_path : str) : option str :=
  match Urllib.quote file_path with
  | Some encoded_path => Some (scheme ++ encoded_path)
  | None => None
  end.

(** The [safe_name] that [create_mkv_playlists] (and [create_mp4_playlists])
    gives the descriptor of [file_path]. *)
Definition mkv_safe_name (file_path : str) : str :=
  truncate (sanitize_playlist_name (fst (splitext (basename file_path)))).

(** One turn of the loop of [create_mkv_playlists]: the descriptor's file
    name and text; [None] when [quote] raises. *)
Definition mkv_playlist (file_path : str) : option (str * str) :=
  let filename := fst (splitext (basename file_path)) in
  match playlist_entry file_path with
  | Some entry =>
      Some (mkv_safe_name file_path ++ m3u,
            lit "# Movie: " ++ filename ++ nl ++ entry ++ nl)
  | None => None
  end.

Fixpoint write_mkv_playlists (mkv_files : list str) (d : directory)
  : bool * directory :=
  match mkv_files with
  | [] => (true, d)
  | file_path :: rest =>
      match mkv_playlist file_path with
      | Some (file_name, text) => write_mkv_playlists rest (store file_name text d)
      | None => (false, d)
      end
  end.

(** [create_mkv_playlists], given the walk of the source directory as
    pairs of a directory and a file name in it. *)
Definition create_mkv_playlists (walk : list (str * str)) (d : directory)
  : bool * directory :=
  let mkv_files :=
    map (fun rf => abspath (join (fst rf) (snd rf)))
        (filter (fun rf => endswith (lower (snd rf)) (lit ".mkv")) walk) in
  match mkv_files with
  | [] => (false, d)
  | _ :: _ => write_mkv_playlists mkv_files d
  end.

(** The [safe_name] of [write_playlist] in [create_music_playlists];
    [None] when [name.encode()] raises: the fallback hashes the encoded
    name, and [md5_hexdigest] stands for that hash on the names that can
    be encoded. *)
Definition music_safe_name (name : str) : option str :=
  let safe_name := strip (filter (fun c => char_in c VALID_CHARS) name) in
  if nonempty safe_name then Some (truncate safe_name)
  else if encodable name
       then Some (truncate (lit "playlist_" ++ firstn 8 (md5_hexdigest name)))
       else None.

Fixpoint song_lines (songs : list str) : str :=
  match songs with
  | [] => []
  | song_path :: rest =>
      match Urllib.quote (abspath song_path) with
      | Some encoded_path => scheme ++ encoded_path ++ nl ++ song_lines rest
      | None => []
      end
  end.

(** [write_playlist(name, songs, prefix)]: the folder after it, and
    [false] when the exception of [name.encode()] is on its way out, the
    folder as it was.  Inside the [try], the file is opened and emptied;
    the header cannot be written when the name cannot be encoded, and
    [quote] raises at a song whose path cannot be: the file keeps the
    lines written before. *)
Definition write_playlist (name : str) (songs : list str) (prefix : str)
    (d : directory) : directory * bool :=
  match music_safe_name name with
  | None => (d, false)
  | Some safe_name =>
      (store (safe_name ++ m3u)
             (if encodable name
              then lit "# " ++ prefix ++ lit ": " ++ name ++ nl ++ song_lines songs
              else [])
             d,
       true)
  end.

(** *** History logs *)

(** [[line.strip() for line in f if line.strip()]] *)
Definition stripped_lines (content : str) : list str :=
  filter nonempty (map strip (lines content)).

(** [log_pdf_opened(pdf_path)], on the opened-documents log, for a path
    that [write] can encode: its callers pass a line of the document log,
    read as UTF-8 text.  The theorems on paths of another origin assume
    that they can be encoded. *)
Definition log_pdf_opened (pdf_path : str) (f : file) : file :=
  match f with
  | None => Some (pdf_path ++ nl)
  | Some content =>
      if mem pdf_path (stripped_lines content) then f
      else append_text f (pdf_path ++ nl)
  end.

(** [open(path, "a").write(text)] under an [except] that passes: a text
    that cannot be encoded leaves the file as it was, created if it was
    missing. *)
Definition try_append (text : str) (f : file) : file :=
  if encodable text then append_text f text
  else match f with
       | Some content => f
       | None => Some []
       end.

(** [log_search_history(name)], on the folder. *)
Definition log_search_history (name : str) (d : directory) : directory :=
  update SEARCH_HISTORY_FILE (try_append (name ++ nl)) d.

(** The key of a log line in [log_history]:
    [urllib.parse.unquote(line).replace("\\", "/").lower()]. *)
Definition normalize (line : str) : str :=
  lower (replace 92 47 (Urllib.unquote line)).

(** [encoded_entry] of [log_history]. *)
Definition encoded_entry (playlist_path : str) : option str :=
  match Urllib.quote (replace os_sep 47 (abspath playlist_path)) with
  | Some q => Some (scheme ++ q)
  | None => None
  end.

(** [existing_entries] of [log_history]. *)
Definition existing_entries (f : file) : list str :=
  match f with
  | None => []
  | Some content =>
      map normalize
          (filter (fun line => nonempty line && negb (startswith line (lit "#")))
                  (map strip (lines content)))
  end.

(** [log_history(playlist_path)], on the history log; [None] when
    [quote] raises. *)
Definition log_history (playlist_path : str) (f : file) : option file :=
  match encoded_entry playlist_path with
  | None => None
  | Some entry =>
      if mem (normalize entry) (existing_entries f) then Some f
      else Some (append_text f (entry ++ nl))
  end.

(** The lines [scan_and_log_files] writes for [new_files]; the flag tells
    whether the loop reached its end: [quote] raises on a path that cannot
    be encoded, and so does the write of the path itself. *)
Fixpoint history_lines (encode : bool) (new_files : list str) : str * bool :=
  match new_files with
  | [] => ([], true)
  | file_path :: rest =>
      if encode then
        match Urllib.quote file_path with
        | Some encoded_path =>
            let (text, done) := history_lines encode rest in
            (scheme ++ encoded_path ++ nl ++ text, done)
        | None => ([], false)
        end
      else if encodable file_path then
        let (text, done) := history_lines encode rest in
        (file_path ++ nl ++ text, done)
      else ([], false)
  end.

(** [scan_and_log_files(folder, extensions, history_file)], on the log
    [history_file], given whether [folder] is a directory and its walk.
    The result is [None] when an exception leaves the function. *)
Definition scan_and_log_files (isdir : bool) (walk : list (str * str))
    (extensions : list str) (history_file : str) (f : file)
  : option bool * file :=
  if negb isdir then (Some false, f)
  else
    let files :=
      map (fun rf => abspath (join (fst rf) (snd rf)))
          (filter (fun rf => existsb (endswith (lower (snd rf))) extensions) walk) in
    match files with
    | [] => (Some false, f)
    | _ :: _ =>
        let existing_files :=
          match f with
          | Some content => stripped_lines content
          | None => []
          end in
        let new_files := filter (fun x => negb (mem x existing_files)) files in
        match new_files with
        | [] => (Some false, f)
        | _ :: _ =>
            let (text, done) := history_lines (endswith history_file m3u) new_files in
            (if done then Some true else None, append_text f text)
        end
    end.

(** *** The player session *)

Definition remove_handle (h : nat) (hs : list nat) : list nat :=
  filter (fun x => negb (Nat.eqb x h)) hs.

(** [VLC_SOCKET.close(); VLC_SOCKET = None] when a socket is held. *)
Definition close_socket (s : Session) : Session :=
  match VLC_SOCKET s with
  | Some c =>
      {| VLC_SOCKET := None; VLC_PROCESS := VLC_PROCESS s;
         running := running s; connected := remove_handle c (connected s);
         killed := killed s; started := started s;
         next_handle := next_handle s |}
  | None => s
  end.

(** [VLC_PROCESS.kill()] when a process handle is held: the process is
    sent the request and stops; the handle stays in [VLC_PROCESS]. *)
Definition kill_process (s : Session) : Session :=
  match VLC_PROCESS s with
  | Some p =>
      {| VLC_SOCKET := VLC_SOCKET s; VLC_PROCESS := VLC_PROCESS s;
         running := remove_handle p (running s); connected := connected s;
         killed := p :: killed s; started := started s;
         next_handle := next_handle s |}
  | None => s
  end.

(** [VLC_PROCESS = subprocess.Popen(cmd)] *)
Definition popen (media_path : str) (s : Session) : Session :=
  let p := next_handle s in
  {| VLC_SOCKET := VLC_SOCKET s; VLC_PROCESS := Some p;
     running := p :: running s; connected := connected s;
     killed := killed s; started := (p, media_path) :: started s;
     next_handle := S p |}.

(** [connect_vlc_socket()], when a connection is made before the five
    seconds are over: the socket is kept in [VLC_SOCKET]. *)
Definition connect_vlc_socket (s : Session) : Session :=
  let c := next_handle s in
  {| VLC_SOCKET := Some c; VLC_PROCESS := VLC_PROCESS s;
     running := running s; connected := c :: connected s;
     killed := killed s; started := started s;
     next_handle := S c |}.

(** [launch_vlc(media_path)].  The connection attempt the call starts on
    a thread of its own is taken at its outcome: it has connected or given
    up before the next call. *)
Definition launch_vlc (l : Launch) (s : Session) : Session :=
  let s := close_socket s in
  let s := kill_process s in
  if popen_ok l then
    let s := popen (target l) s in
    if connect_ok l then connect_vlc_socket s else s
  else s.

(** A sequence of calls of [launch_vlc], from the session [s]. *)
Definition launches (ls : list Launch) (s : Session) : Session :=
  fold_left (fun s l => launch_vlc l s) ls s.

(** *** Best-match dispatch *)

(** [playlist_titles] of [search_and_open]. *)
Definition playlist_titles (d : directory) : list str :=
  map (fun f => fst (splitext f))
      (filter (fun f => endswith f m3u) (listdir d)).

(** [pdf_paths] of [search_and_open], empty without a document log. *)
Definition pdf_paths (d : directory) : list str :=
  match read PDF_HISTORY_FILE d with
  | Some content => stripped_lines content
  | None => []
  end.

(** [all_titles] of [search_and_open]. *)
Definition all_titles (d : directory) : list str :=
  playlist_titles d ++ map basename (pdf_paths d).

(** [max(best_list, key=lambda i: i[1])], from a first element on: a later
    element wins only with a greater score. *)
Fixpoint max_by_score (best : str * Z) (rest : list (str * Z)) : str * Z :=
  match rest with
  | [] => best
  | x :: rest' =>
      if (snd best <? snd x)%Z then max_by_score x rest'
      else max_by_score best rest'
  end.

(** [process.extractOne(query, choices)], with its [score_cutoff] of 0;
    [None] when no choice is left. *)
Definition extractOne (query : str) (choices : list str) : option (str * Z) :=
  match filter (fun cs => (0 <=? snd cs)%Z)
               (map (fun c => (c, extract_score query c)) choices) with
  | [] => None
  | x :: rest => Some (max_by_score x rest)
  end.

Definition with_folder (d : directory) (k : Desk) : Desk :=
  {| folder := d; on_disk := on_disk k; session := session k;
     opened := opened k |}.

(** [search_and_open(query)]; [spawns] and [connects] tell how a launch of
    the player goes, [opens] whether [open_file_with_default_app] returns
    or raises. *)
Definition search_and_open (query : str) (spawns connects opens : bool)
    (k : Desk) : Report * Desk :=
  let playlist_titles := playlist_titles (folder k) in
  let all_titles := all_titles (folder k) in
  match all_titles with
  | [] => (NoData, k)
  | _ :: _ =>
      match extractOne query all_titles with
      | None => (Raised, k)
      | Some (best_match, score) =>
          if (score <? 60)%Z then (NoMatch query, k)
          else if mem best_match playlist_titles then
            let playlist_path := join PLAYLIST_FOLDER (best_match ++ m3u) in
            (OpeningPlaylist best_match,
             {| folder := log_search_history best_match (folder k);
                on_disk := on_disk k;
                session :=
                  launch_vlc {| target := playlist_path; popen_ok := spawns;
                                connect_ok := connects |} (session k);
                opened := opened k |})
          else
            match filter (fun p => str_eqb (basename p) best_match)
                         (pdf_paths (folder k)) with
            | [] => (NotInHistory, k)
            | pdf_path :: _ =>
                if negb (on_disk k pdf_path) then (MissingFile pdf_path, k)
                else if negb opens then (OpenFailed pdf_path, k)
                else
                  (OpeningPDF best_match,
                   {| folder :=
                        log_search_history best_match
                          (update PDF_OPENED_HISTORY_FILE
                                  (log_pdf_opened pdf_path) (folder k));
                      on_disk := on_disk k;
                      session := session k;
                      opened := opened k ++ [pdf_path] |})
            end
      end
  end.

(** *** The live filter *)

Definition SCORE_THRESHOLD : Z := 70.

(** [MKVPlayerApp.filter_library]: the items it hands to [populate_tree],
    for the text of the search entry. *)
Definition filter_library (entry : str) (all_media_items : list LibraryEntry)
  : list LibraryEntry :=
  let query := lower (strip entry) in
  if negb (nonempty query) then all_media_items
  else
    match map strip (split 44 query) with
    | [term] =>
        filter (fun item =>
                  existsb (fun score => (SCORE_THRESHOLD <=? score)%Z)
                          [ratio term (lower (name item));
                           ratio term (lower (album item));
                           ratio term (lower (artist item))])
               all_media_items
    | [album_q; artist_q] =>
        filter (fun item =>
                  nonempty (album item) && nonempty (artist item)
                  && ((SCORE_THRESHOLD <=? ratio album_q (lower (album item)))%Z
                      && (SCORE_THRESHOLD <=? ratio artist_q (lower (artist item)))%Z))
               all_media_items
    | [song_q; album_q; artist_q] =>
        filter (fun item =>
                  nonempty (name item) && nonempty (album item)
                  && nonempty (artist item)
                  && ((SCORE_THRESHOLD <=? ratio song_q (lower (name item)))%Z
                      && (SCORE_THRESHOLD <=? ratio album_q (lower (album item)))%Z
                      && (SCORE_THRESHOLD <=? ratio artist_q (lower (artist item)))%Z))
               all_media_items
    | _ => []
    end.

(** The parts of a query: the text of the entry trimmed and lower-cased,
    split on commas, each part trimmed. *)
Definition query_parts (entry : str) : list str :=
  map strip (split 44 (lower (strip entry))).

(** The acceptance rule of the live filter, as the specification words it:
    with one part any of the three fields reaches the threshold; with two
    the entry has album and artist and both reach it; with three it has
    name, album and artist and all three reach it; no other number of
    parts has a rule. *)
Definition reaches (term field : str) : bool :=
  (70 <=? ratio term (lower field))%Z.

Definition qualifies (parts : list str) (e : LibraryEntry) : bool :=
  match parts with
  | [term] =>
      reaches term (name e) || reaches term (album e) || reaches term (artist e)
  | [p1; p2] =>
      nonempty (album e) && nonempty (artist e)
      && reaches p1 (album e) && reaches p2 (artist e)
  | [p1; p2; p3] =>
      nonempty (name e) && nonempty (album e) && nonempty (artist e)
      && reaches p1 (name e) && reaches p2 (album e) && reaches p3 (artist e)
  | _ => false
  end.

(** *** Session exclusivity *)

(** The live handles are at most the one the global holds. *)
Definition at_most_current (held : option nat) (live : list nat) : Prop :=
  live = [] \/ exists h, live = [h] /\ held = Some h.

(** The session holds every process and connection it started that is
    still alive, and every handle it holds was given out. *)
Definition exclusive (s : Session) : Prop :=
  at_most_current (VLC_PROCESS s) (running s)
  /\ at_most_current (VLC_SOCKET s) (connected s)
  /\ (forall p, VLC_PROCESS s = Some p -> (p < next_handle s)%nat)
  /\ (forall c, VLC_SOCKET s = Some c -> (c < next_handle s)%nat).

(** *** Logs as the writers leave them *)

(** The file [f'] holds what [f] held, and maybe more after it. *)
Definition extends (f f' : file) : Prop :=
  match f, f' with
  | None, _ => True
  | Some c, Some c' => exists t, c' = c ++ t
  | Some _, None => False
  end.

(** The entries of a log: its stripped lines that are not blank. *)
Definition entries (f : file) : list str :=
  match f with
  | Some content => stripped_lines content
  | None => []
  end.

(** The opened-documents log after [log_pdf_opened] was called on the
    paths [ps] in turn, from no log at all. *)
Definition opened_log (ps : list str) : file :=
  fold_left (fun f p => log_pdf_opened p f) ps None.

(** The files [scan_and_log_files] finds in a walk. *)
Definition scanned_files (walk : list (str * str)) (extensions : list str)
  : list str :=
  map (fun rf => abspath (join (fst rf) (snd rf)))
      (filter (fun rf => existsb (endswith (lower (snd rf))) extensions) walk).

(** *** Commands of the player *)

(** [send_vlc_command(cmd)]; [delivered] tells whether the line of the
    command was encoded and [sendall] wrote it.  The result is the value
    returned and the session: a socket that failed is forgotten, not
    closed. *)
Definition send_vlc_command (cmd : str) (delivered : bool) (s : Session)
  : bool * Session :=
  match VLC_SOCKET s with
  | Some c =>
      if delivered then (true, s)
      else (false,
            {| VLC_SOCKET := None; VLC_PROCESS := VLC_PROCESS s;
               running := running s; connected := connected s;
               killed := killed s; started := started s;
               next_handle := next_handle s |})
  | None => (false, s)
  end.

(** What the user does with the player: launches and commands. *)
Inductive Event :=
| Launches (l : Launch)
| Sends (cmd : str) (delivered : bool).

Definition step (s : Session) (e : Event) : Session :=
  match e with
  | Launches l => launch_vlc l s
  | Sends cmd delivered => snd (send_vlc_command cmd delivered s)
  end.

Definition run (es : list Event) (s : Session) : Session := fold_left step es s.

(** The process held is the only one that may run. *)
Definition one_player (s : Session) : Prop :=
  at_most_current (VLC_PROCESS s) (running s).

(** *** The connection threads *)

(** [launch_vlc] starts [connect_vlc_socket] on a thread of its own and
    returns.  The thread tries to connect for five seconds and, when it
    has a socket, stores it in [VLC_SOCKET].  A session with its threads:
    how many are still trying, and the sockets that a thread has
    connected and not stored yet. *)
Record Threads := {
  globals : Session;
  trying : nat;
  holding : list nat
}.

(** What the program does next. *)
Inductive Move :=
| Calls (media_path : str) (spawns : bool)  (* [launch_vlc], up to its return *)
| ThreadConnects                            (* [s.connect(...)] returns *)
| ThreadStores (c : nat)                    (* [VLC_SOCKET = s] *)
| ThreadGivesUp.                            (* the five seconds are over *)

(** [launch_vlc(media_path)] up to its return; the thread is started
    after [Popen], inside the same [try]. *)
Definition launch_call (media_path : str) (spawns : bool) (t : Threads) : Threads :=
  let s := kill_process (close_socket (globals t)) in
  if spawns then
    {| globals := popen media_path s; trying := S (trying t);
       holding := holding t |}
  else {| globals := s; trying := trying t; holding := holding t |}.

(** [s.connect((VLC_RC_HOST, VLC_RC_PORT))] returns in a thread that was
    trying: a player runs and listens. *)
Definition thread_connects (t : Threads) : option Threads :=
  match trying t, running (globals t) with
  | S n, _ :: _ =>
      let s := globals t in
      let c := next_handle s in
      Some {| globals :=
                {| VLC_SOCKET := VLC_SOCKET s; VLC_PROCESS := VLC_PROCESS s;
                   running := running s; connected := c :: connected s;
                   killed := killed s; started := started s;
                   next_handle := S c |};
              trying := n; holding := c :: holding t |}
  | _, _ => None
  end.

(** [VLC_SOCKET = s] in the thread that connected [c]; no statement
    closes the socket that [VLC_SOCKET] held before. *)
Definition thread_stores (c : nat) (t : Threads) : option Threads :=
  if existsb (Nat.eqb c) (holding t) then
    let s := globals t in
    Some {| globals :=
              {| VLC_SOCKET := Some c; VLC_PROCESS := VLC_PROCESS s;
                 running := running s; connected := connected s;
                 killed := killed s; started := started s;
                 next_handle := next_handle s |};
            trying := trying t; holding := remove_handle c (holding t) |}
  else None.

(** A thread leaves its loop without a socket. *)
Definition thread_gives_up (t : Threads) : option Threads :=
  match trying t with
  | S n => Some {| globals := globals t; trying := n; holding := holding t |}
  | O => None
  end.

Definition move (m : Move) (t : Threads) : option Threads :=
  match m with
  | Calls media_path spawns => Some (launch_call media_path spawns t)
  | ThreadConnects => thread_connects t
  | ThreadStores c => thread_stores c t
  | ThreadGivesUp => thread_gives_up t
  end.

(** The moves [ms] in turn; [None] when one of them cannot happen. *)
Fixpoint interleave (ms : list Move) (t : Threads) : option Threads :=
  match ms with
  | [] => Some t
  | m :: ms' =>
      match move m t with
      | Some t' => interleave ms' t'
      | None => None
      end
  end.

(** A session without threads. *)
Definition quiet (s : Session) : Threads :=
  {| globals := s; trying := 0; holding := [] |}.

(** The moves of one call of [launch_vlc] whose thread has connected or
    given up before anything else happens. *)
Definition alone (l : Launch) (s : Session) : list Move :=
  Calls (target l) (popen_ok l)
  :: (if popen_ok l
      then if connect_ok l
           then [ThreadConnects; ThreadStores (S (next_handle s))]
           else [ThreadGivesUp]
      else []).

(** *** Playing at random from a log *)

(** What the buttons that play at random report. *)
Inductive Notice :=
| NoHistory
| EmptyHistory
| Missing (file_path : str)
| Playing (target : str)
| Opening (pdf_path : str)
| NotOpened (pdf_path : str).

(** [[line.strip() for line in f if line.strip() and not line.startswith("#")]] *)
Definition history_entries (content : str) : list str :=
  map strip
      (filter (fun line => nonempty (strip line) && negb (startswith line (lit "#")))
              (lines content)).

(** [random.choice(seq)] for a sequence that is not empty, given the
    number drawn. *)
Definition random_choice (r : nat) (seq : list str) : str :=
  nth (r mod List.length seq) seq [].

(** [MKVPlayerApp.play_random_media(history_file, description)], on the
    log [history_file]. *)
Definition play_random_media (history_file : file) (r : nat)
    (spawns connects : bool) (s : Session) : Notice * Session :=
  match history_file with
  | None => (NoHistory, s)
  | Some content =>
      match history_entries content with
      | [] => (EmptyHistory, s)
      | e :: es =>
          let selected := random_choice r (e :: es) in
          let selected :=
            if startswith selected scheme then Urllib.unquote (skipn 8 selected)
            else selected in
          (Playing selected,
           launch_vlc {| target := selected; popen_ok := spawns;
                         connect_ok := connects |} s)
      end
  end.

(** [play_random_pdf_opened()], on the opened-documents log; [opens]
    tells whether [open_file_with_default_app] returns. *)
Definition play_random_pdf_opened (log : file) (r : nat) (exists_ : str -> bool)
    (opens : bool) : Notice :=
  match log with
  | None => NoHistory
  | Some content =>
      match stripped_lines content with
      | [] => EmptyHistory
      | p :: ps =>
          let selected_pdf := random_choice r (p :: ps) in
          if negb (exists_ selected_pdf) then Missing selected_pdf
          else if opens then Opening selected_pdf
          else NotOpened selected_pdf
      end
  end.

(** *** The index of the library *)

(** [os.path.normpath] *)
Variable normpath : str -> str.

(** [media_type] by the extension of the path of a [file:///] line. *)
Definition media_type_of (media_path : str) : str :=
  let ext := lower (snd (splitext media_path)) in
  if str_eqb ext (lit ".mkv") then lit "MKV"
  else if str_eqb ext (lit ".mp4") then lit "MP4"
  else if str_eqb ext (lit ".avi") then lit "AVI"
  else if mem ext [lit ".aif"; lit ".aiff"] then lit "Music"
  else lit "Video".

(** The line loop of [refresh_library] over a descriptor: [media_path]
    and [media_type] when it ends. *)
Fixpoint read_descriptor (descriptor_lines : list str) : str * str :=
  match descriptor_lines with
  | [] => ([], lit "Video")
  | line :: rest =>
      let line := strip line in
      if startswith line scheme then
        let media_path := Urllib.unquote (skipn 8 line) in
        (media_path, media_type_of media_path)
      else if nonempty line && negb (startswith line (lit "#")) then
        (line, lit "Video")
      else read_descriptor rest
  end.

(** [artist] and [album] of an entry: the last two directories of a
    music path. *)
Definition artist_album (media_type media_path : str) : str * str :=
  if str_eqb media_type (lit "Music") && nonempty media_path then
    let path_parts := split os_sep (normpath media_path) in
    if (3 <=? List.length path_parts)%nat then
      (nth (List.length path_parts - 3) path_parts [],
       nth (List.length path_parts - 2) path_parts [])
    else ([], [])
  else ([], []).

(** The entry of the descriptor [f] of the folder. *)
Definition descriptor_item (d : directory) (f : str) : LibraryEntry :=
  let playlist_path := join PLAYLIST_FOLDER f in
  let (media_path, media_type) :=
    match read f d with
    | Some content => read_descriptor (lines content)
    | None => ([], lit "Video")
    end in
  let (artist, album) := artist_album media_type media_path in
  {| name := fst (splitext f); type := media_type; path := media_path;
     playlist := Some playlist_path; artist := artist; album := album |}.

(** The entry of a document of the document log. *)
Definition pdf_item (pdf_path : str) : LibraryEntry :=
  {| name := fst (splitext (basename pdf_path)); type := lit "PDF";
     path := pdf_path; playlist := None; artist := []; album := [] |}.

(** [MKVPlayerApp.refresh_library]: [all_media_items] after it, from the
    playlist folder and the files that exist. *)
Definition refresh_library (d : directory) (exists_ : str -> bool)
  : list LibraryEntry :=
  map (descriptor_item d)
      (filter (fun f => endswith f m3u
                        && negb (mem f [lit "history.m3u"; lit "history2.m3u"]))
              (listdir d))
  ++ match read PDF_HISTORY_FILE d with
     | Some content =>
         map pdf_item
             (filter (fun pdf_path => nonempty pdf_path && exists_ pdf_path)
                     (map strip (lines content)))
     | None => []
     end.

(** *** The music scan *)

(** The order of [str]: by code points, a prefix before what extends
    it. *)
Fixpoint str_ltb (a b : str) : bool :=
  match a, b with
  | _, [] => false
  | [], _ :: _ => true
  | x :: a', y :: b' => (x <? y) || ((x =? y) && str_ltb a' b')
  end.

Fixpoint insert_sorted (x : str) (l : list str) : list str :=
  match l with
  | [] => [x]
  | y :: l' => if str_ltb x y then x :: l else y :: insert_sorted x l'
  end.

(** [list.sort()] on a list of [str]. *)
Definition sort (l : list str) : list str := fold_right insert_sorted [] l.

(** [song_file.lower().endswith(('.aif', '.aiff'))] *)
Definition is_song (song_file : str) : bool :=
  existsb (endswith (lower song_file)) [lit ".aif"; lit ".aiff"].

(** [album_songs[i:] + album_songs[:i]] *)
Definition rotated (album_songs : list str) (i : nat) : list str :=
  skipn i album_songs ++ firstn i album_songs.

(** One turn of the loop over [enumerate(album_songs)]: the descriptor of
    the song at [i].  A scan carries the folder and whether it is still
    running: [false] when an exception is on its way out. *)
Definition write_song_playlist (album_songs : list str)
    (w : directory * bool) (i : nat) : directory * bool :=
  if negb (snd w) then w
  else
    let song_path := nth i album_songs [] in
    let song_title := fst (splitext (basename song_path)) in
    write_playlist song_title (rotated album_songs i) (lit "# Song") (fst w).

(** One turn of the loop over the names in the directory of an artist:
    [listing] is what [os.listdir(album_path)] gives when the name is a
    directory.  The first component is [all_artist_songs]. *)
Definition album_scan (artist_name artist_path : str)
    (acc : list str * (directory * bool)) (entry : str * option (list str))
  : list str * (directory * bool) :=
  let (album_name, listing) := entry in
  if negb (snd (snd acc)) then acc
  else
    match listing with
    | None => acc
    | Some song_files =>
        let album_path := join artist_path album_name in
        match map (join album_path) (filter is_song song_files) with
        | [] => acc
        | song_path :: rest =>
            let album_songs := sort (song_path :: rest) in
            let w :=
              fold_left (write_song_playlist album_songs)
                        (seq 0 (List.length album_songs)) (snd acc) in
            if negb (snd w) then (fst acc, w)
            else
              let w :=
                write_playlist (artist_name ++ lit " - " ++ album_name)
                               album_songs (lit "# Album") (fst w) in
              if negb (snd w) then (fst acc, w)
              else (fst acc ++ album_songs, w)
        end
    end.

(** One turn of the loop over the names in [folder]. *)
Definition artist_scan (folder : str) (w : directory * bool)
    (entry : str * option (list (str * option (list str))))
  : directory * bool :=
  let (artist_name, listing) := entry in
  if negb (snd w) then w
  else
    match listing with
    | None => w
    | Some albums =>
        let artist_path := join folder artist_name in
        let (all_artist_songs, w) :=
          fold_left (album_scan artist_name artist_path) albums ([], w) in
        if negb (snd w) then w
        else
          match all_artist_songs with
          | [] => w
          | _ :: _ =>
              write_playlist artist_name (sort all_artist_songs) (lit "# Artist")
                             (fst w)
          end
    end.

(** [create_music_playlists(folder, playlist_dest)], on the playlist
    folder; [tree] is the listing of [folder] when it is a directory,
    each name with its own listing when it is one, two levels deep.  The
    result is [None] when an exception leaves the function. *)
Definition create_music_playlists (folder : str)
    (tree : option (list (str * option (list (str * option (list str))))))
    (d : directory) : option bool * directory :=
  if negb (nonempty folder) then (Some false, d)
  else
    match tree with
    | None => (Some false, d)
    | Some artists =>
        let w := fold_left (artist_scan folder) artists (d, true) in
        (if snd w then Some true else None, fst w)
    end.

(** [a] is not after [b]. *)
Definition str_le (a b : str) : Prop := str_ltb b a = false.

(** The files a sequence of writes leaves alone. *)
Definition only_descriptors (d d' : directory) : Prop :=
  (forall n, endswith n m3u = false -> read n d' = read n d)
  /\ (forall n, In n (listdir d') -> In n (listdir d) \/ endswith n m3u = true).

(** *** The playlist converter and the reader of its files *)

(** [s.replace(old, new)] for a non-empty [old]: the occurrences are
    taken from the left, none overlapping another; [skip] counts the
    characters of an occurrence that are still to pass. *)
Fixpoint replace_from (old new : str) (skip : nat) (s : str) : str :=
  match s with
  | [] => []
  | c :: s' =>
      match skip with
      | S k => replace_from old new k s'
      | O =>
          if startswith s old
          then new ++ replace_from old new (List.length old - 1) s'
          else c :: replace_from old new 0 s'
      end
  end.

Definition replace_str (old new s : str) : str := replace_from old new 0 s.

(** [old in s] *)
Fixpoint occurs (old s : str) : bool :=
  startswith s old
  || match s with
     | [] => false
     | _ :: s' => occurs old s'
     end.

(** The line boundaries of [str.splitlines]. *)
Definition is_linebreak (c : N) : bool :=
  ((10 <=? c) && (c <=? 13)) || ((28 <=? c) && (c <=? 30))
  || (c =? 133) || (c =? 8232) || (c =? 8233).

Fixpoint splitlines_from (cur : str) (s : str) : list str :=
  match s with
  | [] => match cur with [] => [] | _ :: _ => [rev cur] end
  | c :: r =>
      if is_linebreak c then
        rev cur
        :: (if c =? 13 then
              match r with
              | c' :: r' =>
                  if c' =? 10 then splitlines_from [] r' else splitlines_from [] r
              | [] => []
              end
            else splitlines_from [] r)
      else splitlines_from (c :: cur) r
  end.

(** [text.splitlines()] *)
Definition splitlines (text : str) : list str := splitlines_from [] text.

(** [sep.join(parts)] *)
Fixpoint str_join (sep : str) (parts : list str) : str :=
  match parts with
  | [] => []
  | p :: rest =>
      match rest with
      | [] => p
      | _ :: _ => p ++ sep ++ str_join sep rest
      end
  end.

(** One turn of the loop of [parse_m3u_paths]: the name a line gives, if
    it gives one. *)
Definition parse_line (decode_percent : bool) (raw_line : str) : option str :=
  let line := strip raw_line in
  if negb (nonempty line) then None
  else if startswith line (lit "#") then None
  else
    let path_part := if startswith (lower line) scheme then skipn 8 line else line in
    let path_part := if decode_percent then Urllib.unquote path_part else path_part in
    let filename := basename path_part in
    let filename :=
      if endswith (lower filename) m3u
      then firstn (List.length filename - 4) filename
      else filename in
    let filename := strip filename in
    if nonempty filename then Some filename else None.

(** [parse_m3u_paths(text, decode_percent=...)] *)
Definition parse_m3u_paths (text : str) (decode_percent : bool) : list str :=
  flat_map (fun raw_line =>
              match parse_line decode_percent raw_line with
              | Some filename => [filename]
              | None => []
              end)
           (splitlines text).

(** [build_playlist_lines(names, prefix=...)] *)
Definition build_playlist_lines (names : list str) (prefix : str) : str :=
  str_join nl (map (fun n => prefix ++ n) names)
  ++ (match names with [] => [] | _ :: _ => nl end).

(** [convert_file_uris_m3u_to_playlist_lines], on the text of the input
    file. *)
Definition convert_file_uris_m3u_to_playlist_lines (text : str)
    (decode_percent : bool) : list str * str :=
  let names := parse_m3u_paths text decode_percent in
  (names, build_playlist_lines names (lit "# Playlist: ")).

(** [os.linesep]: what a file opened for writing as text puts for each
    line feed. *)
Variable linesep : str.

Definition newlines (text : str) : str :=
  flat_map (fun c => if c =? 10 then linesep else [c]) text.

(** [out_path.write_text(block, encoding='utf-8')]: the bytes of the file
    written; [None] when [block] cannot be encoded. *)
Definition write_text (block : str) : option bytes :=
  Urllib.utf8_encode (newlines block).

(** What [open(path, 'r')] makes of the bytes of a file, in the encoding
    of the locale; [None] when it raises [UnicodeDecodeError]. *)
Variable locale_decode : bytes -> option str.

(** [read_m3u_file(m3u_file_path)], on the bytes of the file. *)
Definition read_m3u_file (data : bytes) : option (list str) :=
  match locale_decode data with
  | Some content =>
      Some (map (fun line => strip (replace_str (lit "# Playlist:") [] (strip line)))
                (filter (fun line => startswith line (lit "# Playlist:"))
                        (lines content)))
  | None => None
  end.

(** *** Replaying the history of the music player *)

(** [play_random_from_history()], on the history log: the entry handed
    to the player, as it stands in the log. *)
Definition play_random_from_history (history : file) (r : nat) : Notice :=
  match history with
  | None => NoHistory
  | Some content =>
      match history_entries content with
      | [] => EmptyHistory
      | e :: es => Playing (random_choice r (e :: es))
      end
  end.

(** The history log after [log_history] was called on the descriptors
    [ps] in turn, from the log [f]; [None] when a call raised. *)
Definition log_all (ps : list str) (f : file) : option file :=
  fold_left (fun log p => match log with
                          | Some f => log_history p f
                          | None => None
                          end)
            ps (Some f).

(** The lines of a log that [play_random_from_history] chooses from. *)
Definition logged (f : file) : list str :=
  match f with
  | Some content => history_entries content
  | None => []
  end.

(** What a sequence of calls of [log_history] keeps: the last line of the
    log is complete, the keys of the log are those of its lines, in
    order, and no key occurs twice. *)
Definition kept (f : file) : Prop :=
  complete_file f = true
  /\ existing_entries f = map normalize (logged f)
  /\ NoDup (existing_entries f).

(** * Properties of the program *)

(** ** The path codec *)

(** The scheme marker followed by quoted text is a trimmed string. *)
Lemma entry_trimmed q : forallb plain q = true -> trimmed (scheme ++ q) = true.
Proof.
  intros H. apply trimmed_of_nonspace; [reflexivity|].
  rewrite forallb_app. apply andb_true_iff. split; [reflexivity|].
  now apply plain_nonspace.
Qed.

Lemma entry_no_break q : forallb plain q = true -> no_break (scheme ++ q) = true.
Proof.
  intros H. unfold no_break. rewrite forallb_app.
  apply andb_true_iff. split; [reflexivity|].
  rewrite forallb_forall in *. intros c Hc. specialize (H c Hc).
  unfold plain in H. apply andb_true_iff in H. destruct H as [_ H].
  apply negb_true_iff in H.
  destruct (N.eqb_spec c 10) as [->|_]; [discriminate|].
  destruct (N.eqb_spec c 13) as [->|_]; [discriminate|]. reflexivity.
Qed.

Lemma read_descriptor_comment s rest :
  read_descriptor ((35 :: s) :: rest) = read_descriptor rest.
Proof.
  cbn [read_descriptor]. destruct (strip_keeps_head 35 s eq_refl) as [t E].
  now rewrite E.
Qed.

Lemma read_descriptor_entry q ws rest :
  forallb plain q = true -> forallb isspace ws = true ->
  read_descriptor (((scheme ++ q) ++ ws) :: rest)
  = (Urllib.unquote q, media_type_of (Urllib.unquote q)).
Proof.
  intros Hq Hws. cbn [read_descriptor].
  rewrite strip_trimmed by (trivial; now apply entry_trimmed).
  now rewrite startswith_app.
Qed.

(** C7 (amended).  Path codec round trip: for every path [p] that can
    be encoded (every string of Unicode scalar values: spaces, non-ASCII
    characters and all), the entry [file:///quote(p)] that the
    descriptor writers write exists, and the line loop of
    [refresh_library] gets [p] back from it, with the type of its
    extension: from the bare entry, from the line it was written as, and
    from a descriptor that holds that line.  A path with a lone
    surrogate has no entry: [quote] raises. *)
Theorem path_codec_round_trip (p : str) :
  forallb scalar p = true ->
  exists e, playlist_entry p = Some e
            /\ read_descriptor [e] = (p, media_type_of p)
            /\ read_descriptor [e ++ nl] = (p, media_type_of p)
            /\ forall f d, path (descriptor_item (store f (e ++ nl) d) f) = p.
Proof.
  intros H. destruct (quote_scalar p H) as [q Hq].
  exists (scheme ++ q). unfold playlist_entry. rewrite Hq.
  pose proof (quote_plain _ _ Hq) as Hp.
  pose proof (unquote_quote _ _ Hq) as Hu.
  split; [reflexivity|].
  assert (H1 : read_descriptor [(scheme ++ q) ++ nl] = (p, media_type_of p)).
  { rewrite read_descriptor_entry by trivial. now rewrite Hu. }
  split; [|split; [exact H1|]].
  - rewrite <- (app_nil_r (scheme ++ q)). rewrite read_descriptor_entry by trivial.
    now rewrite Hu.
  - intros f d. unfold descriptor_item. rewrite read_store_same.
    unfold lines. rewrite lines_from_line by now apply entry_no_break.
    cbn [rev app]. rewrite H1. now destruct (artist_album _ _).
Qed.

(** ** History logs *)

Lemma stripped_lines_append content e :
  complete content = true -> one_line e = true ->
  stripped_lines (content ++ e ++ nl) = stripped_lines content ++ [e].
Proof.
  unfold one_line. intros Hc He. apply andb_true_iff in He.
  destruct He as [Ht Hb]. unfold stripped_lines.
  rewrite lines_append, map_app, filter_app by assumption.
  cbn [map filter]. rewrite strip_trimmed_nl by assumption.
  now rewrite trimmed_nonempty.
Qed.

Lemma stripped_lines_single e :
  one_line e = true -> stripped_lines (e ++ nl) = [e].
Proof.
  intros He. change (e ++ nl) with ([] ++ e ++ nl).
  now rewrite stripped_lines_append.
Qed.

Lemma mem_app_r x xs : mem x (xs ++ [x]) = true.
Proof. apply mem_In, in_or_app. right. now left. Qed.

Lemma scalar_replace a s :
  forallb scalar s = true -> forallb scalar (replace a 47 s) = true.
Proof.
  unfold replace. rewrite !forallb_forall. intros H c Hc.
  apply in_map_iff in Hc. destruct Hc as [x [<- Hx]].
  destruct (x =? a); [reflexivity | now apply H].
Qed.

Lemma encoded_entry_shape p e :
  encoded_entry p = Some e -> exists q, e = scheme ++ q /\ forallb plain q = true.
Proof.
  unfold encoded_entry.
  destruct (quote (replace os_sep 47 (abspath p))) as [q|] eqn:E; [|discriminate].
  intros H. apply Some_eq in H. subst e. exists q. split; [reflexivity|].
  eapply quote_plain; eassumption.
Qed.

Lemma encoded_entry_scalar p :
  forallb scalar (abspath p) = true -> exists e, encoded_entry p = Some e.
Proof.
  intros H. unfold encoded_entry.
  destruct (quote_scalar _ (scalar_replace os_sep _ H)) as [q E].
  rewrite E. eauto.
Qed.

(** The entries of a log after a line [scheme ++ q] was appended. *)
Lemma existing_entries_append f q :
  complete_file f = true -> forallb plain q = true ->
  existing_entries (append_text f ((scheme ++ q) ++ nl))
  = existing_entries f ++ [normalize (scheme ++ q)].
Proof.
  intros Hf Hq.
  assert (Hline : forall content, complete content = true ->
            existing_entries (Some (content ++ (scheme ++ q) ++ nl))
            = existing_entries (Some content) ++ [normalize (scheme ++ q)]).
  { intros content Hc. unfold existing_entries.
    rewrite lines_append by (trivial; now apply entry_no_break).
    rewrite map_app, filter_app, map_app. cbn [map filter].
    rewrite strip_trimmed_nl by now apply entry_trimmed.
    reflexivity. }
  destruct f as [content|]; cbn [append_text].
  - now apply Hline.
  - apply (Hline []). reflexivity.
Qed.

(** A second [log_history] of the same path leaves the log as the first
    call left it. *)
Lemma log_history_idempotent p f f1 :
  complete_file f = true ->
  log_history p f = Some f1 -> log_history p f1 = Some f1.
Proof.
  intros Hf. unfold log_history.
  destruct (encoded_entry p) as [e|] eqn:E; [|discriminate].
  destruct (encoded_entry_shape _ _ E) as [q [-> Hq]].
  destruct (mem (normalize (scheme ++ q)) (existing_entries f)) eqn:M.
  - intros H. apply Some_eq in H. subst f1. now rewrite M.
  - intros H. apply Some_eq in H. subst f1.
    rewrite existing_entries_append by assumption.
    now rewrite mem_app_r.
Qed.

(** X1.  Duplicate detection of [log_history] by normalized key: after a
    path was logged, a path whose entry has the same key (decoded,
    separators made [/], lower-cased) is not appended. *)
Lemma log_history_same_key p1 p2 e1 e2 f f1 :
  complete_file f = true ->
  encoded_entry p1 = Some e1 -> encoded_entry p2 = Some e2 ->
  normalize e1 = normalize e2 ->
  log_history p1 f = Some f1 -> log_history p2 f1 = Some f1.
Proof.
  intros Hf E1 E2 Hk. unfold log_history. rewrite E1, E2.
  destruct (encoded_entry_shape _ _ E1) as [q [-> Hq]]. rewrite <- Hk.
  destruct (mem (normalize (scheme ++ q)) (existing_entries f)) eqn:M.
  - intros H. apply Some_eq in H. subst f1. now rewrite M.
  - intros H. apply Some_eq in H. subst f1.
    rewrite existing_entries_append by assumption.
    now rewrite mem_app_r.
Qed.

Lemma log_pdf_opened_idempotent p f :
  complete_file f = true -> one_line p = true ->
  log_pdf_opened p (log_pdf_opened p f) = log_pdf_opened p f.
Proof.
  intros Hf Hp. destruct f as [content|]; cbn [log_pdf_opened].
  - destruct (mem p (stripped_lines content)) eqn:M.
    + cbn [log_pdf_opened]. now rewrite M.
    + cbn [append_text log_pdf_opened].
      rewrite stripped_lines_append by assumption.
      now rewrite mem_app_r.
  - rewrite stripped_lines_single by assumption.
    cbn [mem existsb]. now rewrite str_eqb_refl.
Qed.

(** C1 (amended).  Idempotent append: on a history log whose last line is
    complete (or that does not exist yet), a second [log_history] of the
    same path changes nothing, for every path, and the first call
    returns whenever the absolute path can be encoded; a second
    [log_pdf_opened] of the same path changes nothing when the path is
    one trimmed line, as the paths read back from the document log are. *)
Theorem history_append_idempotent (p : str) (f : file) :
  complete_file f = true ->
  (forall f1, log_history p f = Some f1 -> log_history p f1 = Some f1)
  /\ (forallb scalar (abspath p) = true -> exists f1, log_history p f = Some f1)
  /\ (one_line p = true ->
      log_pdf_opened p (log_pdf_opened p f) = log_pdf_opened p f).
Proof.
  intros Hf. split; [|split].
  - intros f1. now apply log_history_idempotent.
  - intros H. destruct (encoded_entry_scalar p H) as [e E].
    unfold log_history. rewrite E.
    destruct (mem (normalize e) (existing_entries f)); eauto.
  - intros Hp. now apply log_pdf_opened_idempotent.
Qed.

(** ** Descriptor names *)

Lemma VALID_CHARS_ascii c : In c VALID_CHARS -> c < 128.
Proof.
  intros H. apply N.ltb_lt.
  assert (A : forallb (fun c => c <? 128) VALID_CHARS = true) by reflexivity.
  rewrite forallb_forall in A. now apply A.
Qed.

Lemma sanitized_valid name c :
  In c (truncate (sanitize_playlist_name name)) -> In c VALID_CHARS.
Proof.
  unfold truncate, sanitize_playlist_name. intros H.
  apply firstn_incl, strip_incl, filter_In in H.
  now apply char_in_In.
Qed.

(** The names of the files [write_mkv_playlists] adds to the folder. *)
Lemma write_mkv_playlists_names mkv_files : forall d n,
  In n (listdir (snd (write_mkv_playlists mkv_files d))) ->
  In n (listdir d)
  \/ exists file_path, In file_path mkv_files /\ n = mkv_safe_name file_path ++ m3u.
Proof.
  induction mkv_files as [|p ps IH]; intros d n; cbn [write_mkv_playlists snd];
    [now left|].
  unfold mkv_playlist. destruct (playlist_entry p) as [entry|]; [|now left].
  intros H. destruct (IH _ _ H) as [H' | [q [Hq ->]]].
  - destruct (listdir_store (mkv_safe_name p ++ m3u)
                (lit "# Movie: " ++ fst (splitext (basename p)) ++ nl ++ entry ++ nl) d)
      as [E | E]; rewrite E in H'.
    + now left.
    + apply in_app_or in H'. destruct H' as [H' | [<- | []]]; [now left|].
      right. exists p. split; [now left | reflexivity].
  - right. exists q. split; [now right | reflexivity].
Qed.

(** C8.  Filename sanitization.  For every display name, the name the
    descriptor writer gives the file of a video with that display name
    (the name of the video without its extension) is made so: the
    characters of the allowed set are kept, in order, the white space
    around them is stripped, and the first 211 characters of that are
    taken; they are as many bytes, so that with [.m3u] the file name has
    at most 215 bytes.  The writer writes the descriptor of every video
    whose path can be encoded under that name, and every file that
    [create_mkv_playlists] adds to the folder is named so.  The display
    name ["Movie: Part 2?"] gives ["Movie Part 2"]. *)
Theorem filename_sanitization (name : str) :
  let kept := filter (fun c => char_in c VALID_CHARS) name in
  let safe_name := firstn 211 (strip kept) in
  (forall c, In c kept <-> In c name /\ In c VALID_CHARS)
  /\ (exists l r, kept = l ++ strip kept ++ r
                  /\ forallb isspace l = true /\ forallb isspace r = true
                  /\ (strip kept = [] \/ trimmed (strip kept) = true))
  /\ sanitize_playlist_name name = strip kept
  /\ truncate (sanitize_playlist_name name) = safe_name
  /\ (List.length safe_name <= 211)%nat
  /\ (forall c, In c safe_name -> In c VALID_CHARS)
  /\ (exists bs, Urllib.utf8_encode (safe_name ++ lit ".m3u") = Some bs
                 /\ (List.length bs <= 215)%nat)
  /\ (forall file_path,
        fst (splitext (basename file_path)) = name ->
        mkv_safe_name file_path = safe_name
        /\ (forall file_name text,
              mkv_playlist file_path = Some (file_name, text) ->
              file_name = safe_name ++ lit ".m3u")
        /\ (forallb scalar file_path = true ->
            exists text,
              mkv_playlist file_path = Some (safe_name ++ lit ".m3u", text)))
  /\ (forall walk d n,
        In n (listdir (snd (create_mkv_playlists walk d))) ->
        In n (listdir d)
        \/ exists p, n = firstn 211 (strip (filter (fun c => char_in c VALID_CHARS)
                                                   (fst (splitext (basename p)))))
                         ++ lit ".m3u")
  /\ sanitize_playlist_name (lit "Movie: Part 2?") = lit "Movie Part 2".
Proof.
  intros kept safe_name.
  assert (Hsafe : forall p, mkv_safe_name p
                  = firstn 211 (strip (filter (fun c => char_in c VALID_CHARS)
                                              (fst (splitext (basename p)))))).
  { reflexivity. }
  assert (Hvalid : forall c, In c safe_name -> In c VALID_CHARS).
  { intros c. apply sanitized_valid. }
  split; [intros c; unfold kept; rewrite filter_In, char_in_In; reflexivity|].
  split; [apply strip_split|].
  split; [reflexivity|].
  split; [reflexivity|].
  split; [apply firstn_le_length|].
  split; [exact Hvalid|].
  split.
  { exists (map byte_of_N (safe_name ++ lit ".m3u")). split.
    - apply utf8_encode_ascii. rewrite forallb_app. apply andb_true_iff.
      split; [|reflexivity]. apply forallb_forall. intros c Hc.
      now apply N.ltb_lt, VALID_CHARS_ascii, Hvalid.
    - rewrite length_map, length_app.
      pose proof (firstn_le_length 211 (strip kept)) as Hl. fold safe_name in Hl.
      change (List.length (lit ".m3u")) with 4%nat. lia. }
  split.
  { intros file_path Hname.
    assert (E : mkv_safe_name file_path = safe_name).
    { rewrite Hsafe, Hname. reflexivity. }
    split; [exact E|]. split.
    - intros file_name text. unfold mkv_playlist.
      destruct (playlist_entry file_path); [|discriminate].
      intros H. apply Some_eq in H. apply (f_equal fst) in H. cbn [fst] in H.
      now rewrite <- H, E.
    - intros Hs. destruct (quote_scalar file_path Hs) as [q Hq].
      unfold mkv_playlist, playlist_entry. rewrite Hq, E. eauto. }
  split.
  - intros walk d n. unfold create_mkv_playlists.
    destruct (map _ _) as [|p ps]; cbn [snd]; [now left|].
    intros Hin. destruct (write_mkv_playlists_names _ _ _ Hin) as [H' | [q [_ ->]]];
      [now left|].
    right. exists q. now rewrite Hsafe.
  - reflexivity.
Qed.

(** X2.  [write_playlist] never names a file by the extension alone.
    When it names a file at all, the name before [.m3u] is not empty: a
    display name without any allowed character gets [playlist_] and eight
    characters of the hash of its encoding.  It names no file, and raises,
    exactly when the display name has no allowed character and cannot be
    encoded; the folder is then as it was. *)
Theorem music_safe_name_fallback (name : str) (songs : list str)
    (prefix : str) (d : directory) :
  (forall safe_name, music_safe_name name = Some safe_name ->
     nonempty safe_name = true
     /\ safe_name ++ m3u <> m3u
     /\ (sanitize_playlist_name name = [] ->
         encodable name = true
         /\ safe_name = lit "playlist_" ++ firstn 8 (md5_hexdigest name))
     /\ write_playlist name songs prefix d
        = (store (safe_name ++ m3u)
                 (if encodable name
                  then lit "# " ++ prefix ++ lit ": " ++ name ++ nl ++ song_lines songs
                  else [])
                 d, true))
  /\ (music_safe_name name = None
      <-> sanitize_playlist_name name = [] /\ encodable name = false)
  /\ (music_safe_name name = None -> write_playlist name songs prefix d = (d, false))
  /\ (forall n, In n (listdir (fst (write_playlist name songs prefix d))) ->
        In n (listdir d) \/ (n <> m3u /\ endswith n m3u = true)).
Proof.
  assert (Hfall : (List.length (lit "playlist_" ++ firstn 8 (md5_hexdigest name))
                   <= 211)%nat).
  { rewrite length_app, length_firstn.
    change (List.length (lit "playlist_")) with 9%nat. lia. }
  assert (Hsome : forall safe_name, music_safe_name name = Some safe_name ->
            nonempty safe_name = true
            /\ (sanitize_playlist_name name = [] ->
                encodable name = true
                /\ safe_name = lit "playlist_" ++ firstn 8 (md5_hexdigest name))).
  { intros safe_name. unfold music_safe_name. fold (sanitize_playlist_name name).
    destruct (sanitize_playlist_name name) as [|c r] eqn:Es; cbn [nonempty].
    - destruct (encodable name); [|discriminate].
      intros H. apply Some_eq in H. subst safe_name.
      unfold truncate.
      change (MAX_FILENAME_LENGTH - List.length m3u)%nat with 211%nat.
      rewrite firstn_all2 by exact Hfall. split; [reflexivity|].
      intros _. now split.
    - intros H. apply Some_eq in H. subst safe_name.
      split; [reflexivity | discriminate]. }
  assert (Hne : forall safe_name : str,
            nonempty safe_name = true -> safe_name ++ m3u <> m3u).
  { intros [|c r] Hn; [discriminate|]. intros H.
    apply (f_equal (@List.length N)) in H.
    rewrite length_app in H. cbn [List.length] in H. lia. }
  split; [|split; [|split]].
  - intros safe_name E. destruct (Hsome safe_name E) as [Hn Hf].
    split; [exact Hn|]. split; [now apply Hne|]. split; [exact Hf|].
    unfold write_playlist. now rewrite E.
  - unfold music_safe_name. fold (sanitize_playlist_name name).
    destruct (sanitize_playlist_name name) as [|c r]; cbn [nonempty].
    + destruct (encodable name).
      * split; [discriminate | intros [_ H]; discriminate].
      * split; [intros _; now split | reflexivity].
    + split; [discriminate | intros [H _]; discriminate].
  - intros E. unfold write_playlist. now rewrite E.
  - intros n. unfold write_playlist.
    destruct (music_safe_name name) as [safe_name|] eqn:E; cbn [fst];
      [|now left].
    destruct (Hsome safe_name eq_refl) as [Hn _].
    destruct (listdir_store (safe_name ++ m3u)
                (if encodable name
                 then lit "# " ++ prefix ++ lit ": " ++ name ++ nl ++ song_lines songs
                 else []) d) as [-> | ->]; [now left|].
    rewrite in_app_iff. intros [H | [<- | []]]; [now left|]. right.
    split; [now apply Hne|]. unfold endswith. rewrite rev_app_distr.
    apply startswith_app.
Qed.

(** ** The player session *)

Lemma remove_handle_single h : remove_handle h [h] = [].
Proof. unfold remove_handle. cbn [filter]. now rewrite Nat.eqb_refl. Qed.

Lemma close_socket_spec s :
  at_most_current (VLC_SOCKET s) (connected s) ->
  close_socket s
  = {| VLC_SOCKET := None; VLC_PROCESS := VLC_PROCESS s; running := running s;
       connected := []; killed := killed s; started := started s;
       next_handle := next_handle s |}.
Proof.
  destruct s as [sock proc run conn kil sta nxt]. unfold close_socket. cbn -[remove_handle].
  intros [-> | [c [-> ->]]].
  - destruct sock; reflexivity.
  - now rewrite remove_handle_single.
Qed.

Lemma kill_process_spec s :
  at_most_current (VLC_PROCESS s) (running s) ->
  kill_process s
  = {| VLC_SOCKET := VLC_SOCKET s; VLC_PROCESS := VLC_PROCESS s; running := [];
       connected := connected s;
       killed := match VLC_PROCESS s with
                 | Some p => p :: killed s
                 | None => killed s
                 end;
       started := started s; next_handle := next_handle s |}.
Proof.
  destruct s as [sock proc run conn kil sta nxt]. unfold kill_process. cbn -[remove_handle].
  intros [-> | [p [-> ->]]].
  - destruct proc; reflexivity.
  - now rewrite remove_handle_single.
Qed.

(** [launch_vlc] first leaves no process running and no socket connected. *)
Lemma teardown s :
  exclusive s ->
  kill_process (close_socket s)
  = {| VLC_SOCKET := None; VLC_PROCESS := VLC_PROCESS s; running := [];
       connected := [];
       killed := match VLC_PROCESS s with
                 | Some p => p :: killed s
                 | None => killed s
                 end;
       started := started s; next_handle := next_handle s |}.
Proof.
  intros [Hp [Hc _]]. rewrite (close_socket_spec s Hc).
  now rewrite kill_process_spec.
Qed.

Lemma launch_vlc_exclusive l s : exclusive s -> exclusive (launch_vlc l s).
Proof.
  intros H. pose proof H as [_ [_ [Hn _]]].
  unfold launch_vlc. rewrite (teardown s H).
  destruct (popen_ok l).
  - destruct (connect_ok l); unfold exclusive, at_most_current; cbn;
      repeat split; eauto; try discriminate; intros p E; injection E as <-; lia.
  - unfold exclusive, at_most_current. cbn. repeat split; auto. discriminate.
Qed.

Lemma idle_exclusive : exclusive idle.
Proof. unfold exclusive, at_most_current. cbn. repeat split; auto; discriminate. Qed.

Lemma launches_exclusive ls s : exclusive s -> exclusive (launches ls s).
Proof.
  unfold launches. revert s. induction ls as [|l ls IH]; intros s H; [exact H|].
  cbn [fold_left]. apply IH. now apply launch_vlc_exclusive.
Qed.

Lemma at_most_current_length held live :
  at_most_current held live -> (List.length live <= 1)%nat.
Proof. intros [-> | [h [-> _]]]; cbn; lia. Qed.

(** Launches one after another, each with its connection thread at its
    end before the next.  After any sequence of such calls of
    [launch_vlc], at most one process of the session runs and at most one
    of its sockets is connected, and they are the ones [VLC_PROCESS] and
    [VLC_SOCKET] hold.  The next launch first closes the socket held and
    sends the process held its termination request.  When two launches in
    a row both start their player, the second leaves exactly its own
    process running, and the process of the first was sent the request. *)
Theorem session_exclusivity (ls : list Launch) (a b : Launch) :
  let s := launches ls idle in
  let sa := launch_vlc a s in
  let sb := launch_vlc b sa in
  (List.length (running s) <= 1)%nat
  /\ (List.length (connected s) <= 1)%nat
  /\ (forall p, In p (running s) -> VLC_PROCESS s = Some p)
  /\ (forall c, In c (connected s) -> VLC_SOCKET s = Some c)
  /\ (forall c, VLC_SOCKET s = Some c -> ~ In c (connected sa))
  /\ (forall p, VLC_PROCESS s = Some p -> In p (killed sa) /\ ~ In p (running sa))
  /\ (popen_ok a = true -> popen_ok b = true ->
      exists pa pb,
        VLC_PROCESS sa = Some pa /\ In (pa, target a) (started sa)
        /\ running sa = [pa]
        /\ VLC_PROCESS sb = Some pb /\ In (pb, target b) (started sb)
        /\ running sb = [pb]
        /\ pa <> pb /\ In pa (killed sb)).
Proof.
  intros s sa sb.
  assert (Hs : exclusive s) by (apply launches_exclusive, idle_exclusive).
  assert (Hsa : exclusive sa) by now apply launch_vlc_exclusive.
  pose proof Hs as [Hp [Hc [Hnp Hnc]]].
  split; [now apply (at_most_current_length (VLC_PROCESS s))|].
  split; [now apply (at_most_current_length (VLC_SOCKET s))|].
  split.
  { intros p Hin. destruct Hp as [E | [h [E ->]]]; rewrite E in Hin.
    - destruct Hin.
    - destruct Hin as [-> | []]. reflexivity. }
  split.
  { intros c Hin. destruct Hc as [E | [h [E ->]]]; rewrite E in Hin.
    - destruct Hin.
    - destruct Hin as [-> | []]. reflexivity. }
  split.
  { intros c E Hin. specialize (Hnc c E). revert Hin.
    unfold sa, launch_vlc. rewrite (teardown s Hs).
    destruct (popen_ok a); [destruct (connect_ok a)|]; cbn; intros Hin;
      try destruct Hin as [Hin | []]; try contradiction; lia. }
  split.
  { intros p E. unfold sa, launch_vlc. rewrite (teardown s Hs), E.
    specialize (Hnp p E).
    destruct (popen_ok a); [destruct (connect_ok a)|]; cbn;
      (split; [now left | intros Hin; try destruct Hin as [Hin | []];
                          try contradiction; lia]). }
  intros Ha Hb. exists (next_handle s).
  pose proof Hsa as [_ [_ [Hnpa _]]].
  assert (Ea : VLC_PROCESS sa = Some (next_handle s)
               /\ In (next_handle s, target a) (started sa)
               /\ running sa = [next_handle s]).
  { unfold sa, launch_vlc. rewrite (teardown s Hs), Ha.
    destruct (connect_ok a); cbn; repeat split; now left. }
  destruct Ea as [Ea1 [Ea2 Ea3]]. exists (next_handle sa).
  specialize (Hnpa _ Ea1).
  assert (Eb : VLC_PROCESS sb = Some (next_handle sa)
               /\ In (next_handle sa, target b) (started sb)
               /\ running sb = [next_handle sa]
               /\ In (next_handle s) (killed sb)).
  { unfold sb, launch_vlc. rewrite (teardown sa Hsa), Hb, Ea1.
    destruct (connect_ok b); cbn; repeat split; now left. }
  destruct Eb as [Eb1 [Eb2 [Eb3 Eb4]]].
  repeat split; try assumption. lia.
Qed.

(** ** The connection threads *)

(** [launch_vlc] is the schedule in which the thread of a call has
    connected or given up before anything else happens. *)
Lemma launch_vlc_alone l s :
  interleave (alone l s) (quiet s) = Some (quiet (launch_vlc l s)).
Proof.
  assert (Hn : next_handle (kill_process (close_socket s)) = next_handle s).
  { unfold kill_process, close_socket.
    destruct (VLC_SOCKET s); cbn; destruct (VLC_PROCESS s); reflexivity. }
  unfold alone, launch_vlc, quiet.
  destruct (popen_ok l); [destruct (connect_ok l)|];
    cbn [interleave move]; unfold launch_call; cbn [globals trying holding];
    set (s0 := kill_process (close_socket s)) in *; clearbody s0.
  - unfold thread_connects, thread_stores, popen, connect_vlc_socket, remove_handle.
    cbn -[Nat.eqb]. rewrite Hn, Nat.eqb_refl. cbn -[Nat.eqb].
    reflexivity.
  - reflexivity.
  - reflexivity.
Qed.

(** The threads touch neither the process held nor the processes
    running. *)
Lemma move_one_player m t t' :
  move m t = Some t' -> one_player (globals t) -> one_player (globals t').
Proof.
  unfold one_player. destruct m as [media_path spawns | | c |]; cbn [move].
  - intros E H. apply Some_eq in E. subst t'. unfold launch_call.
    assert (Hc : VLC_PROCESS (close_socket (globals t)) = VLC_PROCESS (globals t)
                 /\ running (close_socket (globals t)) = running (globals t)).
    { unfold close_socket. destruct (VLC_SOCKET (globals t)); now split. }
    destruct Hc as [Hp Hr].
    rewrite (kill_process_spec (close_socket (globals t))) by now rewrite Hp, Hr.
    destruct spawns; cbn; unfold at_most_current; eauto.
  - unfold thread_connects. destruct (trying t); [discriminate|].
    destruct (running (globals t)) eqn:R; [discriminate|].
    intros E H. apply Some_eq in E. subst t'. cbn. exact H.
  - unfold thread_stores. destruct (existsb _ _); [|discriminate].
    intros E H. apply Some_eq in E. subst t'. exact H.
  - unfold thread_gives_up. destruct (trying t); [discriminate|].
    intros E H. apply Some_eq in E. subst t'. exact H.
Qed.

Lemma interleave_one_player ms : forall t t',
  interleave ms t = Some t' -> one_player (globals t) -> one_player (globals t').
Proof.
  induction ms as [|m ms IH]; intros t t'; cbn [interleave].
  - intros E H. apply Some_eq in E. now subst t'.
  - destruct (move m t) as [t1|] eqn:M; [|discriminate].
    intros E H. apply (IH t1 t' E). eapply move_one_player; eassumption.
Qed.

(** C3 fails on [launch_vlc] when the second call comes before the
    connection thread of the first has a socket.  The second call finds
    no socket to close, sends the first player its termination request
    and starts the second; then both threads connect to the second
    player.  When the first thread has stored its socket and the second
    has connected, two sockets are open for one player, and the call that
    ended the first session closed neither.  When the thread of the
    first call connects before the second call and stores its socket
    after it, [VLC_SOCKET] holds a socket of the player that was
    terminated.  On every schedule, at most one process runs, the one
    that [VLC_PROCESS] holds. *)
Theorem connection_threads_race :
  interleave [Calls (lit "a.m3u") true; Calls (lit "b.m3u") true;
              ThreadConnects; ThreadStores 2; ThreadConnects] (quiet idle)
  = Some {| globals :=
              {| VLC_SOCKET := Some 2%nat; VLC_PROCESS := Some 1%nat;
                 running := [1%nat]; connected := [3; 2]%nat; killed := [0%nat];
                 started := [(1%nat, lit "b.m3u"); (0%nat, lit "a.m3u")];
                 next_handle := 4%nat |};
            trying := 0%nat; holding := [3%nat] |}
  /\ interleave [Calls (lit "a.m3u") true; ThreadConnects;
                 Calls (lit "b.m3u") true; ThreadStores 1] (quiet idle)
     = Some {| globals :=
                 {| VLC_SOCKET := Some 1%nat; VLC_PROCESS := Some 2%nat;
                    running := [2%nat]; connected := [1%nat]; killed := [0%nat];
                    started := [(2%nat, lit "b.m3u"); (0%nat, lit "a.m3u")];
                    next_handle := 3%nat |};
               trying := 1%nat; holding := [] |}
  /\ launches [{| target := lit "a.m3u"; popen_ok := true; connect_ok := true |};
               {| target := lit "b.m3u"; popen_ok := true; connect_ok := true |}]
              idle
     = {| VLC_SOCKET := Some 3%nat; VLC_PROCESS := Some 2%nat;
          running := [2%nat]; connected := [3%nat]; killed := [0%nat];
          started := [(2%nat, lit "b.m3u"); (0%nat, lit "a.m3u")];
          next_handle := 4%nat |}
  /\ forall ms t, interleave ms (quiet idle) = Some t ->
       (List.length (running (globals t)) <= 1)%nat
       /\ forall p, In p (running (globals t)) -> VLC_PROCESS (globals t) = Some p.
Proof.
  split; [reflexivity|]. split; [reflexivity|]. split; [reflexivity|].
  intros ms t E.
  assert (H : one_player (globals t)).
  { apply (interleave_one_player ms (quiet idle) t E).
    unfold one_player, at_most_current. now left. }
  split; [now apply (at_most_current_length (VLC_PROCESS (globals t)))|].
  intros p Hin. destruct H as [R | [h [R ->]]]; rewrite R in Hin.
  - destruct Hin.
  - destruct Hin as [-> | []]. reflexivity.
Qed.

(** ** Best-match dispatch *)

(** [max_by_score] returns the first element of greatest score. *)
Lemma max_by_score_first best rest :
  exists pre post,
    best :: rest = pre ++ max_by_score best rest :: post
    /\ (forall x, In x pre -> (snd x < snd (max_by_score best rest))%Z)
    /\ (forall x, In x post -> (snd x <= snd (max_by_score best rest))%Z).
Proof.
  revert best. induction rest as [|x rest IH]; intros best; cbn [max_by_score].
  - exists [], []. repeat split; intros y [].
  - destruct (Z.ltb_spec (snd best) (snd x)) as [Hlt|Hge].
    + destruct (IH x) as [pre [post [E [Hpre Hpost]]]].
      exists (best :: pre), post.
      split; [cbn [app]; f_equal; exact E|]. split; [|exact Hpost].
      intros y [<- | Hy]; [|now apply Hpre].
      destruct pre as [|z pre]; cbn [app] in E.
      * injection E as E _. rewrite <- E. exact Hlt.
      * injection E as E _. subst z.
        specialize (Hpre x (or_introl eq_refl)). lia.
    + destruct (IH best) as [pre [post [E [Hpre Hpost]]]].
      destruct pre as [|z pre]; cbn [app] in E.
      * injection E as E1 E2. subst post. rewrite <- E1 in *.
        exists [], (x :: rest). split; [reflexivity|]. split.
        -- intros y [].
        -- intros y [<- | Hy]; [exact Hge | now apply Hpost].
      * injection E as E1 E2. subst z. exists (best :: x :: pre), post.
        split; [cbn [app]; do 2 f_equal; exact E2|]. split; [|exact Hpost].
        intros y [<- | [<- | Hy]].
        -- apply Hpre. now left.
        -- specialize (Hpre best (or_introl eq_refl)). lia.
        -- apply Hpre. now right.
Qed.

(** [extractOne] returns the first choice of greatest score. *)
Lemma extractOne_first query choices best score :
  extractOne query choices = Some (best, score) ->
  exists pre post,
    choices = pre ++ best :: post
    /\ score = extract_score query best
    /\ (0 <= score)%Z
    /\ (forall t, In t pre -> (extract_score query t < score)%Z)
    /\ (forall t, In t post -> (extract_score query t <= score)%Z).
Proof.
  unfold extractOne.
  set (scored := map (fun c => (c, extract_score query c)) choices).
  destruct (filter (fun cs => (0 <=? snd cs)%Z) scored) as [|x rest] eqn:F;
    [discriminate|].
  intros H. apply Some_eq in H.
  destruct (max_by_score_first x rest) as [pre [post [E [Hpre Hpost]]]].
  rewrite H in E, Hpre, Hpost. cbn [snd] in Hpre, Hpost.
  rewrite E in F. destruct (filter_eq_app _ _ _ _ _ F) as [a [b [Es [Fa Fb]]]].
  assert (Hin : In (best, score) (filter (fun cs => (0 <=? snd cs)%Z) scored)).
  { rewrite F. apply in_or_app. right. now left. }
  apply filter_In in Hin. destruct Hin as [_ H0]. cbn [snd] in H0.
  apply Z.leb_le in H0.
  unfold scored in Es. apply map_eq_app in Es.
  destruct Es as [pre' [rest' [-> [Ea Er]]]].
  apply map_eq_cons in Er. destruct Er as [b0 [post' [-> [Eb Ep]]]].
  injection Eb as -> Esc.
  exists pre', post'. repeat split; try assumption; try (now symmetry).
  - intros t Ht.
    destruct (Z.leb_spec 0 (extract_score query t)) as [Hge|Hneg]; [|lia].
    apply (Hpre (t, extract_score query t)). rewrite <- Fa, <- Ea.
    apply filter_In. split.
    + apply in_map_iff. now exists t.
    + now apply Z.leb_le.
  - intros t Ht.
    destruct (Z.leb_spec 0 (extract_score query t)) as [Hge|Hneg]; [|lia].
    apply (Hpost (t, extract_score query t)). rewrite <- Fb, <- Ep.
    apply filter_In. split.
    + apply in_map_iff. now exists t.
    + now apply Z.leb_le.
Qed.

(** With scores that are not negative, [extractOne] finds a choice in
    every list that has one. *)
Lemma extractOne_total query choices :
  choices <> [] ->
  (forall t, In t choices -> (0 <= extract_score query t)%Z) ->
  exists best score, extractOne query choices = Some (best, score).
Proof.
  intros Hne Hpos. unfold extractOne.
  destruct choices as [|c cs]; [contradiction|].
  cbn [map filter]. cbn [snd].
  replace (0 <=? extract_score query c)%Z with true
    by (symmetry; apply Z.leb_le, Hpos; now left).
  destruct (max_by_score (c, extract_score query c)
              (filter (fun cs0 => (0 <=? snd cs0)%Z)
                      (map (fun c0 => (c0, extract_score query c0)) cs)))
    as [best score]. eauto.
Qed.

Lemma pdf_title_source d best :
  In best (all_titles d) -> mem best (playlist_titles d) = false ->
  exists pdf_path rest,
    filter (fun p => str_eqb (basename p) best) (pdf_paths d) = pdf_path :: rest
    /\ In pdf_path (pdf_paths d) /\ basename pdf_path = best.
Proof.
  intros Hin Hno. unfold all_titles in Hin. apply in_app_or in Hin.
  destruct Hin as [Hin | Hin].
  - apply mem_In in Hin. congruence.
  - apply in_map_iff in Hin. destruct Hin as [p [Hb Hp]].
    assert (Hf : In p (filter (fun p => str_eqb (basename p) best) (pdf_paths d))).
    { apply filter_In. split; [exact Hp | now apply str_eqb_eq]. }
    destruct (filter (fun p => str_eqb (basename p) best) (pdf_paths d))
      as [|pdf_path rest] eqn:F; [destruct Hf|].
    exists pdf_path, rest. split; [reflexivity|].
    assert (Hin : In pdf_path (pdf_path :: rest)) by now left.
    rewrite <- F in Hin. apply filter_In in Hin. destruct Hin as [H1 H2].
    split; [exact H1 | now apply str_eqb_eq].
Qed.

(** What [log_search_history] leaves in the search history. *)
Lemma read_log_search_history name d :
  read SEARCH_HISTORY_FILE (log_search_history name d)
  = try_append (name ++ nl) (read SEARCH_HISTORY_FILE d).
Proof.
  unfold log_search_history.
  destruct (try_append (name ++ nl) (read SEARCH_HISTORY_FILE d)) as [c|] eqn:E.
  - now apply read_update_same.
  - unfold try_append in E. destruct (encodable (name ++ nl)).
    + destruct (read SEARCH_HISTORY_FILE d); discriminate.
    + destruct (read SEARCH_HISTORY_FILE d); discriminate.
Qed.

Lemma try_append_scalar text f :
  forallb scalar text = true -> try_append text f = append_text f text.
Proof. intros H. unfold try_append. now rewrite encodable_scalar. Qed.

Lemma scalar_line name : forallb scalar name = true -> forallb scalar (name ++ nl) = true.
Proof. intros H. rewrite forallb_app, H. reflexivity. Qed.

(** C4 (amended).  Best-match dispatch.  [search_and_open] takes the first
    title of greatest score among the candidates.  Below 60 it reports no
    match and leaves everything as it was.  From 60 on, a playlist title
    is handed to the player and appended to the search history; a
    document title is looked up in the document log, and the document is
    opened, logged as opened and its title appended to the search history
    when its file exists and the default application opens it; when the
    file does not exist, or the default application raises, that is
    reported and everything is left as it was.  A title is appended when
    it can be encoded; the write of one that cannot fails under an
    [except] that passes. *)
Theorem best_match_dispatch (query : str) (spawns connects opens : bool)
    (k : Desk) :
  (all_titles (folder k) <> [] ->
   (forall t, In t (all_titles (folder k)) -> (0 <= extract_score query t)%Z) ->
   exists best score, extractOne query (all_titles (folder k)) = Some (best, score))
  /\ forall best score,
      extractOne query (all_titles (folder k)) = Some (best, score) ->
      (exists pre post,
          all_titles (folder k) = pre ++ best :: post
          /\ score = extract_score query best
          /\ (forall t, In t pre -> (extract_score query t < score)%Z)
          /\ (forall t, In t post -> (extract_score query t <= score)%Z))
      /\ ((score < 60)%Z ->
          search_and_open query spawns connects opens k = (NoMatch query, k))
      /\ ((60 <= score)%Z -> In best (playlist_titles (folder k)) ->
          search_and_open query spawns connects opens k
          = (OpeningPlaylist best,
             {| folder := log_search_history best (folder k);
                on_disk := on_disk k;
                session :=
                  launch_vlc {| target := join PLAYLIST_FOLDER (best ++ m3u);
                                popen_ok := spawns; connect_ok := connects |}
                             (session k);
                opened := opened k |})
          /\ (forallb scalar best = true ->
              read SEARCH_HISTORY_FILE (log_search_history best (folder k))
              = append_text (read SEARCH_HISTORY_FILE (folder k)) (best ++ nl)))
      /\ ((60 <= score)%Z -> ~ In best (playlist_titles (folder k)) ->
          exists pdf_path,
            In pdf_path (pdf_paths (folder k)) /\ basename pdf_path = best
            /\ (on_disk k pdf_path = false ->
                search_and_open query spawns connects opens k
                = (MissingFile pdf_path, k))
            /\ (on_disk k pdf_path = true -> opens = false ->
                search_and_open query spawns connects opens k
                = (OpenFailed pdf_path, k))
            /\ (on_disk k pdf_path = true -> opens = true ->
                search_and_open query spawns connects opens k
                = (OpeningPDF best,
                   {| folder :=
                        log_search_history best
                          (update PDF_OPENED_HISTORY_FILE
                                  (log_pdf_opened pdf_path) (folder k));
                      on_disk := on_disk k;
                      session := session k;
                      opened := opened k ++ [pdf_path] |})
                /\ (forallb scalar best = true ->
                    read SEARCH_HISTORY_FILE
                      (log_search_history best
                         (update PDF_OPENED_HISTORY_FILE
                                 (log_pdf_opened pdf_path) (folder k)))
                    = append_text (read SEARCH_HISTORY_FILE (folder k))
                                  (best ++ nl)))).
Proof.
  split; [apply extractOne_total|].
  intros best score E.
  destruct (extractOne_first _ _ _ _ E) as [pre [post [Et [Es [H0 [Hpre Hpost]]]]]].
  assert (Hne : exists t ts, all_titles (folder k) = t :: ts).
  { rewrite Et. destruct pre as [|t pre]; cbn [app]; eauto. }
  destruct Hne as [t [ts Hts]].
  split; [exists pre, post; now repeat split|].
  split; [|split].
  - intros Hlt. unfold search_and_open. rewrite Hts, <- Hts, E.
    apply Z.ltb_lt in Hlt. now rewrite Hlt.
  - intros Hge Hin. split.
    + unfold search_and_open. rewrite Hts, <- Hts, E.
      replace (score <? 60)%Z with false by (symmetry; apply Z.ltb_ge; exact Hge).
      apply mem_In in Hin. now rewrite Hin.
    + intros Hs. rewrite read_log_search_history.
      apply try_append_scalar. now apply scalar_line.
  - intros Hge Hno.
    assert (Hm : mem best (playlist_titles (folder k)) = false).
    { destruct (mem best (playlist_titles (folder k))) eqn:M; [|reflexivity].
      apply mem_In in M. contradiction. }
    assert (Hb : In best (all_titles (folder k))).
    { rewrite Et. apply in_or_app. right. now left. }
    destruct (pdf_title_source _ _ Hb Hm) as [pdf_path [rest [F [Hp Hbase]]]].
    exists pdf_path. split; [exact Hp|]. split; [exact Hbase|].
    split; [|split].
    + intros Hd. unfold search_and_open. rewrite Hts, <- Hts, E.
      replace (score <? 60)%Z with false by (symmetry; apply Z.ltb_ge; exact Hge).
      now rewrite Hm, F, Hd.
    + intros Hd Ho. unfold search_and_open. rewrite Hts, <- Hts, E.
      replace (score <? 60)%Z with false by (symmetry; apply Z.ltb_ge; exact Hge).
      now rewrite Hm, F, Hd, Ho.
    + intros Hd Ho. split.
      * unfold search_and_open. rewrite Hts, <- Hts, E.
        replace (score <? 60)%Z with false by (symmetry; apply Z.ltb_ge; exact Hge).
        now rewrite Hm, F, Hd, Ho.
      * intros Hs. rewrite read_log_search_history.
        rewrite read_update_other by discriminate.
        apply try_append_scalar. now apply scalar_line.
Qed.

(** C6 (amended).  The candidates of the best match: every candidate is
    the name, without its extension, of a [.m3u] file of the playlist
    folder, or the base name, extension kept, of a line of the document
    log; the name of every [.m3u] file that is not a history log is a
    candidate, and so is the base name of every line of the document
    log.  The index that [refresh_library] builds plays no part. *)
Theorem best_match_title_universe (d : directory) :
  (forall t, In t (all_titles d) ->
     (exists f, In f (listdir d) /\ endswith f m3u = true /\ t = fst (splitext f))
     \/ (exists content p,
           read PDF_HISTORY_FILE d = Some content
           /\ In p (stripped_lines content) /\ t = basename p))
  /\ (forall f, In f (listdir d) -> endswith f m3u = true ->
               f <> HISTORY_AUDIO -> f <> HISTORY_VIDEO ->
               In (fst (splitext f)) (all_titles d))
  /\ (forall content p,
        read PDF_HISTORY_FILE d = Some content -> In p (stripped_lines content) ->
        In (basename p) (all_titles d)).
Proof.
  unfold all_titles, playlist_titles, pdf_paths. split; [|split].
  - intros t Ht. apply in_app_or in Ht. destruct Ht as [Ht | Ht].
    + left. apply in_map_iff in Ht. destruct Ht as [f [<- Hf]].
      apply filter_In in Hf. destruct Hf as [Hf He]. now exists f.
    + right. apply in_map_iff in Ht. destruct Ht as [p [<- Hp]].
      destruct (read PDF_HISTORY_FILE d) as [content|]; [|destruct Hp].
      now exists content, p.
  - intros f Hf He _ _. apply in_or_app. left.
    apply in_map_iff. exists f. split; [reflexivity|].
    apply filter_In. now split.
  - intros content p Hr Hp. apply in_or_app. right. rewrite Hr.
    apply in_map_iff. now exists p.
Qed.

(** ** The live filter *)

Lemma split_nonempty sep s : split sep s <> [].
Proof.
  destruct s as [|c s]; cbn [split]; [discriminate|].
  destruct (c =? sep); [discriminate|]. destruct (split sep s); discriminate.
Qed.

(** A text has one part more than it has separators. *)
Lemma split_length sep s :
  List.length (split sep s) = S (List.length (filter (fun c => c =? sep) s)).
Proof.
  induction s as [|c s IH]; [reflexivity|]. cbn [split filter].
  destruct (c =? sep); cbn [List.length].
  - now rewrite IH.
  - destruct (split sep s) as [|p ps] eqn:E.
    + now destruct (split_nonempty sep s).
    + exact IH.
Qed.

Lemma filter_none {A} (p : A -> bool) (l : list A) :
  (forall x, p x = false) -> filter p l = [].
Proof.
  intros H. induction l as [|x l IH]; [reflexivity|].
  cbn [filter]. now rewrite H.
Qed.

Lemma filter_library_nonempty entry items :
  nonempty (lower (strip entry)) = true ->
  filter_library entry items = filter (qualifies (query_parts entry)) items.
Proof.
  intros Hq. unfold filter_library, query_parts. rewrite Hq. cbn [negb].
  destruct (map strip (split 44 (lower (strip entry)))) as [|p1 [|p2 [|p3 [|p4 ps]]]].
  - symmetry. now apply filter_none.
  - apply filter_ext. intros e. cbn [existsb qualifies]. unfold reaches, SCORE_THRESHOLD.
    now rewrite orb_false_r, orb_assoc.
  - apply filter_ext. intros e. cbn [qualifies]. unfold reaches, SCORE_THRESHOLD.
    now rewrite !andb_assoc.
  - apply filter_ext. intros e. cbn [qualifies]. unfold reaches, SCORE_THRESHOLD.
    now rewrite !andb_assoc.
  - symmetry. now apply filter_none.
Qed.

(** C5 (amended).  The live filter.  For a query that is not empty once
    trimmed, the entries shown are exactly the entries of the library that
    the acceptance rule of the parts of the query admits, in the order
    of the library: one part, any of name, album and artist reaches 70;
    two parts, the entry has album and artist and both reach 70; three
    parts, it has name, album and artist and all three reach 70.  For a
    query that is empty once trimmed the whole library is shown. *)
Theorem live_filter_rules (entry : str) (items : list LibraryEntry) :
  (nonempty (lower (strip entry)) = true ->
   filter_library entry items = filter (qualifies (query_parts entry)) items
   /\ forall e, In e (filter_library entry items)
                <-> In e items /\ qualifies (query_parts entry) e = true)
  /\ (nonempty (lower (strip entry)) = false -> filter_library entry items = items)
  /\ (forall term e, qualifies [term] e
        = ((70 <=? ratio term (lower (name e)))%Z
           || (70 <=? ratio term (lower (album e)))%Z
           || (70 <=? ratio term (lower (artist e)))%Z))
  /\ (forall p1 p2 e, qualifies [p1; p2] e = true
        <-> album e <> [] /\ artist e <> []
            /\ (70 <= ratio p1 (lower (album e)))%Z
            /\ (70 <= ratio p2 (lower (artist e)))%Z)
  /\ (forall p1 p2 p3 e, qualifies [p1; p2; p3] e = true
        <-> name e <> [] /\ album e <> [] /\ artist e <> []
            /\ (70 <= ratio p1 (lower (name e)))%Z
            /\ (70 <= ratio p2 (lower (album e)))%Z
            /\ (70 <= ratio p3 (lower (artist e)))%Z).
Proof.
  assert (Hne : forall s, nonempty s = true <-> s <> []).
  { intros s. destruct s; split; try discriminate; try reflexivity; congruence. }
  split; [|split; [|split; [|split]]].
  - intros Hq. rewrite filter_library_nonempty by exact Hq.
    split; [reflexivity|]. intros e. apply filter_In.
  - intros Hq. unfold filter_library. now rewrite Hq.
  - reflexivity.
  - intros p1 p2 e. cbn [qualifies]. unfold reaches.
    rewrite !andb_true_iff, !Hne, !Z.leb_le. clear. tauto.
  - intros p1 p2 p3 e. cbn [qualifies]. unfold reaches.
    rewrite !andb_true_iff, !Hne, !Z.leb_le. clear. tauto.
Qed.

(** C10.  A query of four or more parts shows nothing, whatever the
    library holds. *)
Theorem four_parts_show_nothing (entry : str) (items : list LibraryEntry) :
  (4 <= List.length (query_parts entry))%nat ->
  filter_library entry items = [].
Proof.
  intros H. destruct (nonempty (lower (strip entry))) eqn:Hq.
  - rewrite filter_library_nonempty by exact Hq.
    destruct (query_parts entry) as [|p1 [|p2 [|p3 [|p4 ps]]]];
      cbn [List.length] in H; try lia.
    now apply filter_none.
  - unfold query_parts in H. destruct (lower (strip entry)); [|discriminate].
    cbn in H. lia.
Qed.

(** ** Descriptors read back *)

(** X3.  Descriptor round trip: from the descriptor that
    [create_mkv_playlists] writes for a video, a header line and the
    entry, the line loop of [refresh_library] gets the path of the video
    back, with the type of its extension, and so the entry of the index
    for that descriptor holds them, when the name of the video holds no
    line break. *)
Theorem descriptor_round_trip (file_path file_name text : str) (d : directory) :
  no_break (fst (splitext (basename file_path))) = true ->
  mkv_playlist file_path = Some (file_name, text) ->
  read_descriptor (lines text) = (file_path, media_type_of file_path)
  /\ path (descriptor_item (store file_name text d) file_name) = file_path
  /\ type (descriptor_item (store file_name text d) file_name)
     = media_type_of file_path.
Proof.
  intros Hb. unfold mkv_playlist, playlist_entry.
  destruct (Urllib.quote file_path) as [q|] eqn:Hq; [|discriminate].
  intros H. apply Some_eq in H. apply (f_equal snd) in H. cbn [snd] in H.
  subst text.
  pose proof (quote_plain _ _ Hq) as Hp.
  set (filename := fst (splitext (basename file_path))) in *.
  assert (Hh : no_break (lit "# Movie: " ++ filename) = true).
  { unfold no_break. rewrite forallb_app. apply andb_true_iff. now split. }
  assert (Hr : read_descriptor
                 (lines (lit "# Movie: " ++ filename ++ nl ++ (scheme ++ q) ++ nl))
               = (file_path, media_type_of file_path)).
  { replace (lit "# Movie: " ++ filename ++ nl ++ (scheme ++ q) ++ nl)
      with (((lit "# Movie: " ++ filename) ++ nl) ++ (scheme ++ q) ++ nl)
      by now rewrite <- !app_assoc.
    rewrite lines_append;
      [| apply (complete_append []) | now apply entry_no_break].
    change ((lit "# Movie: " ++ filename) ++ nl)
      with ([] ++ (lit "# Movie: " ++ filename) ++ nl).
    rewrite lines_append by trivial. cbn [lines lines_from app].
    change ((lit "# Movie: " ++ filename) ++ nl)
      with (35 :: ((lit " Movie: " ++ filename) ++ nl)).
    rewrite read_descriptor_comment, read_descriptor_entry by trivial.
    now rewrite (unquote_quote _ _ Hq). }
  split; [exact Hr|].
  unfold descriptor_item. rewrite read_store_same, Hr.
  destruct (artist_album _ _). now split.
Qed.

(** * More of the program

    The functions around the ones above: the other writers and readers of
    the logs, the commands of the player session, the index of the
    library and what is played from it. *)

(** ** Lines read back from a file *)

Lemma strip_spaces_after s ws :
  forallb isspace ws = true -> strip (s ++ ws) = strip s.
Proof.
  intros Hws. induction s as [|c s IH].
  - cbn [app]. unfold strip.
    replace (lstrip ws) with (@nil N); [reflexivity|].
    rewrite <- (app_nil_r ws). now rewrite lstrip_spaces.
  - unfold strip in *. cbn [app lstrip]. destruct (isspace c); [exact IH|].
    unfold rstrip. change (c :: s ++ ws) with ((c :: s) ++ ws).
    rewrite rev_app_distr, lstrip_spaces by now apply forallb_rev_true.
    reflexivity.
Qed.

Lemma no_break_app a b : no_break (a ++ b) = no_break a && no_break b.
Proof. unfold no_break. apply forallb_app. Qed.

Lemma no_break_rev a : no_break (rev a) = no_break a.
Proof.
  unfold no_break. destruct (forallb _ a) eqn:E.
  - now apply forallb_rev_true.
  - destruct (forallb _ (rev a)) eqn:E'; [|reflexivity].
    apply forallb_rev_true in E'. rewrite rev_involutive in E'. congruence.
Qed.

(** A line of a text is a text without a line break, with or without the
    line feed that ends it. *)
Lemma lines_from_shape s : forall cur l,
  no_break cur = true -> In l (lines_from cur s) ->
  exists body, no_break body = true /\ (l = body ++ nl \/ l = body).
Proof.
  remember (List.length s) as n eqn:En.
  revert s En. induction n as [n IH] using lt_wf_ind.
  intros s En cur l Hcur Hin.
  assert (Hrec : forall s' cur', (List.length s' < n)%nat -> no_break cur' = true ->
             In l (lines_from cur' s') ->
             exists body, no_break body = true /\ (l = body ++ nl \/ l = body)).
  { intros s' cur' Hlt Hc Hl. now apply (IH (List.length s') Hlt s' eq_refl cur'). }
  clear IH. subst n.
  assert (Hline : exists body, no_break body = true /\ rev (10 :: cur) = body ++ nl).
  { exists (rev cur). split; [now rewrite no_break_rev | reflexivity]. }
  destruct s as [|c r].
  - cbn [lines_from] in Hin. destruct cur as [|x cur]; [destruct Hin|].
    destruct Hin as [<- | []]. exists (rev (x :: cur)).
    split; [now rewrite no_break_rev | now right].
  - destruct (N.eq_dec c 10) as [->|Hc10].
    { rewrite lines_from_lf in Hin. destruct Hin as [<- | Hin].
      - destruct Hline as [body [Hb E]]. exists body. split; [exact Hb | now left].
      - apply (Hrec r []); [cbn [List.length]; lia | reflexivity | exact Hin]. }
    destruct (N.eq_dec c 13) as [->|Hc13].
    { destruct r as [|c' r'].
      - cbn in Hin. destruct Hin as [<- | []].
        destruct Hline as [body [Hb E]]. exists body. split; [exact Hb | now left].
      - destruct (N.eq_dec c' 10) as [->|Hc'].
        + rewrite lines_from_crlf in Hin. destruct Hin as [<- | Hin].
          * destruct Hline as [body [Hb E]]. exists body. split; [exact Hb | now left].
          * apply (Hrec r' []); [cbn [List.length]; lia | reflexivity | exact Hin].
        + rewrite lines_from_cr in Hin by exact Hc'. destruct Hin as [<- | Hin].
          * destruct Hline as [body [Hb E]]. exists body. split; [exact Hb | now left].
          * apply (Hrec (c' :: r') []); [cbn [List.length]; lia | reflexivity | exact Hin]. }
    rewrite lines_from_other in Hin by assumption.
    apply (Hrec r (c :: cur)); [cbn [List.length]; lia | | exact Hin].
    unfold no_break in *. cbn [forallb]. rewrite Hcur.
    apply N.eqb_neq in Hc10, Hc13. now rewrite Hc10, Hc13.
Qed.

Lemma no_break_strip s : no_break s = true -> no_break (strip s) = true.
Proof.
  unfold no_break. rewrite !forallb_forall. intros H c Hc.
  apply H. now apply strip_incl.
Qed.

(** What a reader gets from a log, line by line, stripped and without the
    blank lines, are single trimmed lines. *)
Lemma stripped_lines_one_line content p :
  In p (stripped_lines content) -> one_line p = true.
Proof.
  unfold stripped_lines. intros H. apply filter_In in H. destruct H as [H Hne].
  apply in_map_iff in H. destruct H as [l [<- Hl]].
  destruct (lines_from_shape content [] l eq_refl Hl) as [body [Hb E]].
  assert (Es : strip l = strip body).
  { destruct E as [-> | ->]; [now apply strip_spaces_after | reflexivity]. }
  rewrite Es in *. unfold one_line. apply andb_true_iff. split.
  - destruct (strip_split body) as [_ [_ [_ [_ [_ [E0 | Ht]]]]]]; [|exact Ht].
    rewrite E0 in Hne. discriminate.
  - now apply no_break_strip.
Qed.

(** Lines appended to a complete text are read back as they were written. *)
Lemma lines_concat content es :
  complete content = true -> forallb no_break es = true ->
  lines (content ++ flat_map (fun e => e ++ nl) es)
  = lines content ++ map (fun e => e ++ nl) es
  /\ complete (content ++ flat_map (fun e => e ++ nl) es) = true.
Proof.
  revert content. induction es as [|e es IH]; intros content Hc He.
  - cbn [flat_map map]. now rewrite !app_nil_r.
  - cbn [forallb] in He. apply andb_true_iff in He. destruct He as [He Hes].
    cbn [flat_map map].
    replace (content ++ (e ++ nl) ++ flat_map (fun e0 => e0 ++ nl) es)
      with ((content ++ e ++ nl) ++ flat_map (fun e0 => e0 ++ nl) es)
      by now rewrite <- !app_assoc.
    destruct (IH (content ++ e ++ nl) (complete_append content e) Hes) as [E C].
    rewrite E, lines_append by assumption. split; [|exact C].
    now rewrite <- app_assoc.
Qed.

(** ** The logs and their writers *)

Lemma extends_refl f : extends f f.
Proof. destruct f as [c|]; cbn; [|exact I]. exists []. now rewrite app_nil_r. Qed.

Lemma extends_append f text : extends f (append_text f text).
Proof. destruct f as [c|]; cbn; [|exact I]. now exists text. Qed.

Lemma history_lines_plain new_files :
  forallb (forallb scalar) new_files = true ->
  history_lines false new_files = (flat_map (fun p => p ++ nl) new_files, true).
Proof.
  induction new_files as [|p ps IH]; intros H; [reflexivity|].
  cbn [forallb] in H. apply andb_true_iff in H. destruct H as [Hp Hps].
  cbn [history_lines flat_map]. rewrite (encodable_scalar p Hp), (IH Hps).
  now rewrite <- app_assoc.
Qed.

Lemma stripped_lines_concat content es :
  complete content = true -> forallb one_line es = true ->
  stripped_lines (content ++ flat_map (fun e => e ++ nl) es)
  = stripped_lines content ++ es
  /\ complete (content ++ flat_map (fun e => e ++ nl) es) = true.
Proof.
  intros Hc He.
  assert (Hb : forallb no_break es = true).
  { rewrite forallb_forall in *. intros e Hin. specialize (He e Hin).
    unfold one_line in He. now apply andb_true_iff in He. }
  destruct (lines_concat content es Hc Hb) as [E C]. split; [|exact C].
  unfold stripped_lines. rewrite E, map_app, filter_app. f_equal.
  clear E C Hb. induction es as [|e es IH]; [reflexivity|].
  cbn [forallb] in He. apply andb_true_iff in He. destruct He as [He Hes].
  unfold one_line in He. apply andb_true_iff in He. destruct He as [Ht _].
  cbn [map filter]. rewrite strip_trimmed_nl, trimmed_nonempty by exact Ht.
  f_equal. now apply IH.
Qed.

Lemma log_pdf_opened_extends p f : extends f (log_pdf_opened p f).
Proof.
  destruct f as [c|]; cbn [log_pdf_opened]; [|exact I].
  destruct (mem p (stripped_lines c)); [apply extends_refl | apply extends_append].
Qed.

(** X4.  The logs are only ever appended to: after [log_pdf_opened],
    [log_history], [scan_and_log_files] and [log_search_history] the log
    holds what it held before, followed by what the call added. *)
Theorem logs_append_only (p : str) (f : file) :
  extends f (log_pdf_opened p f)
  /\ (forall f1, log_history p f = Some f1 -> extends f f1)
  /\ (forall isdir walk extensions history_file,
        extends f (snd (scan_and_log_files isdir walk extensions history_file f)))
  /\ (forall d, extends (read SEARCH_HISTORY_FILE d)
                        (read SEARCH_HISTORY_FILE (log_search_history p d))).
Proof.
  split; [|split; [|split]].
  - apply log_pdf_opened_extends.
  - intros f1. unfold log_history. destruct (encoded_entry p) as [e|]; [|discriminate].
    destruct (mem (normalize e) (existing_entries f)); intros H;
      apply Some_eq in H; subst f1; [apply extends_refl | apply extends_append].
  - intros isdir walk extensions history_file. unfold scan_and_log_files.
    destruct (negb isdir); [apply extends_refl|].
    destruct (map _ _) as [|x xs]; [apply extends_refl|].
    destruct (filter _ (x :: xs)) as [|y ys]; [apply extends_refl|].
    destruct (history_lines _ _) as [text done]. apply extends_append.
  - intros d. rewrite read_log_search_history. unfold try_append.
    destruct (encodable (p ++ nl)); [apply extends_append|].
    destruct (read SEARCH_HISTORY_FILE d); [apply extends_refl | exact I].
Qed.

(** One call of [log_pdf_opened] with a path of one line: the log stays
    complete, and the path joins the entries unless it is one of them. *)
Lemma log_pdf_opened_entries p f :
  complete_file f = true -> one_line p = true ->
  complete_file (log_pdf_opened p f) = true
  /\ entries (log_pdf_opened p f)
     = if mem p (entries f) then entries f else entries f ++ [p].
Proof.
  intros Hf Hp. destruct f as [content|]; cbn [log_pdf_opened entries].
  - destruct (mem p (stripped_lines content)) eqn:M; cbn [entries complete_file].
    + now split.
    + cbn [append_text entries complete_file]. split.
      * apply complete_append.
      * now apply stripped_lines_append.
  - cbn [mem existsb complete_file]. split.
    + apply (complete_append []).
    + now apply stripped_lines_single.
Qed.

Lemma opened_log_from ps : forall f,
  complete_file f = true -> forallb one_line ps = true -> NoDup (entries f) ->
  complete_file (fold_left (fun f p => log_pdf_opened p f) ps f) = true
  /\ NoDup (entries (fold_left (fun f p => log_pdf_opened p f) ps f))
  /\ (forall p, In p (entries (fold_left (fun f p => log_pdf_opened p f) ps f))
                <-> In p (entries f) \/ In p ps)
  /\ extends f (fold_left (fun f p => log_pdf_opened p f) ps f).
Proof.
  induction ps as [|p ps IH]; intros f Hf Hps Hnd; cbn [fold_left].
  - split; [exact Hf|]. split; [exact Hnd|].
    split; [|apply extends_refl].
    intros p. split; [now left | intros [H | []]; exact H].
  - cbn [forallb] in Hps. apply andb_true_iff in Hps. destruct Hps as [Hp Hps].
    destruct (log_pdf_opened_entries p f Hf Hp) as [Hc He].
    assert (Hnd' : NoDup (entries (log_pdf_opened p f))).
    { rewrite He. destruct (mem p (entries f)) eqn:M; [exact Hnd|].
      apply NoDup_app; [exact Hnd | apply NoDup_cons; [intros [] | apply NoDup_nil] |].
      intros x Hx [<- | []]. apply mem_In in Hx. congruence. }
    destruct (IH (log_pdf_opened p f) Hc Hps Hnd') as [H1 [H2 [H3 H4]]].
    split; [exact H1|]. split; [exact H2|]. split.
    + intros x. rewrite H3, He. cbn [In].
      destruct (mem p (entries f)) eqn:M.
      * apply mem_In in M. split.
        -- intros [H | H]; [now left | now right; right].
        -- intros [H | [<- | H]]; [now left | now left | now right].
      * rewrite in_app_iff. cbn [In]. split.
        -- intros [[H | [H | []]] | H];
             [now left | now right; left | now right; right].
        -- intros [H | [H | H]];
             [now left; left | now left; right; left | now right].
    + pose proof (log_pdf_opened_extends p f) as Hx.
      set (g := fold_left _ ps _) in *. clearbody g.
      destruct f as [c|]; [|exact I].
      destruct (log_pdf_opened p (Some c)) as [c1|]; [|destruct Hx].
      destruct g as [c2|]; [|destruct H4].
      destruct Hx as [t1 ->]. destruct H4 as [t2 ->].
      exists (t1 ++ t2). now rewrite app_assoc.
Qed.

(** X5.  The opened-documents log holds no document twice: after any
    sequence of calls of [log_pdf_opened], from no log at all, with paths
    of one line each that can be encoded, the last line of the log is
    complete, no entry occurs twice, and the entries are exactly the
    paths that were logged. *)
Theorem opened_log_no_duplicates (ps : list str) :
  forallb one_line ps = true ->
  forallb (forallb scalar) ps = true ->
  complete_file (opened_log ps) = true
  /\ NoDup (entries (opened_log ps))
  /\ (forall p, In p (entries (opened_log ps)) <-> In p ps).
Proof.
  intros Hps _.
  destruct (opened_log_from ps None eq_refl Hps (NoDup_nil _)) as [H1 [H2 [H3 _]]].
  split; [exact H1|]. split; [exact H2|].
  intros p. rewrite (H3 p). cbn [entries In].
  split; [intros [[] | H]; exact H | now right].
Qed.

Lemma filter_all {A} (p : A -> bool) (l : list A) :
  (forall x, In x l -> p x = true) -> filter p l = l.
Proof.
  induction l as [|x l IH]; intros H; [reflexivity|].
  cbn [filter]. rewrite (H x (or_introl eq_refl)). f_equal.
  apply IH. intros y Hy. apply H. now right.
Qed.

Lemma filter_none_in {A} (p : A -> bool) (l : list A) :
  (forall x, In x l -> p x = false) -> filter p l = [].
Proof.
  induction l as [|x l IH]; intros H; [reflexivity|].
  cbn [filter]. rewrite (H x (or_introl eq_refl)).
  apply IH. intros y Hy. apply H. now right.
Qed.

(** [scan_and_log_files] on a log of plain paths, in one step: the files
    found that are no entry yet are appended, if there are any. *)
Lemma scan_plain_log walk extensions history_file f :
  endswith history_file m3u = false ->
  forallb (forallb scalar) (scanned_files walk extensions) = true ->
  scan_and_log_files true walk extensions history_file f
  = match filter (fun x => negb (mem x (entries f)))
                 (scanned_files walk extensions) with
    | [] => (Some false, f)
    | y :: ys =>
        (Some true, append_text f (flat_map (fun p => p ++ nl) (y :: ys)))
    end.
Proof.
  intros Hm Hs. unfold scan_and_log_files. cbn [negb].
  fold (scanned_files walk extensions). fold (entries f).
  destruct (scanned_files walk extensions) as [|x xs]; [reflexivity|].
  destruct (filter _ (x :: xs)) as [|y ys] eqn:F; [reflexivity|].
  rewrite Hm, history_lines_plain; [reflexivity|].
  apply forallb_forall. intros p Hp. rewrite <- F in Hp.
  apply filter_In in Hp. rewrite forallb_forall in Hs. now apply Hs.
Qed.

(** X6.  A log of plain paths takes every scanned file once: when the log
    is not an [.m3u] file, its last line is complete and the files found
    are paths of one line that can be encoded, [scan_and_log_files]
    returns, every file found is an entry of the log afterwards, and a
    second scan of the same folder finds nothing new: it returns [False]
    and leaves the log as it is.  (The write of a path with a lone
    surrogate raises, and the exception leaves the function.) *)
Theorem rescan_of_plain_log (walk : list (str * str)) (extensions : list str)
    (history_file : str) (f : file) :
  endswith history_file m3u = false ->
  complete_file f = true ->
  forallb one_line (scanned_files walk extensions) = true ->
  forallb (forallb scalar) (scanned_files walk extensions) = true ->
  exists r,
    fst (scan_and_log_files true walk extensions history_file f) = Some r
    /\ (forall p, In p (scanned_files walk extensions) ->
                  In p (entries (snd (scan_and_log_files true walk extensions
                                        history_file f))))
    /\ scan_and_log_files true walk extensions history_file
         (snd (scan_and_log_files true walk extensions history_file f))
       = (Some false, snd (scan_and_log_files true walk extensions history_file f)).
Proof.
  intros Hm Hf Hone Hsc.
  rewrite (scan_plain_log walk extensions history_file f Hm Hsc).
  set (files := scanned_files walk extensions) in *.
  assert (Hold : forall p, In p files ->
            In p (entries f)
            \/ In p (filter (fun x => negb (mem x (entries f))) files)).
  { intros p Hp. destruct (mem p (entries f)) eqn:M.
    - left. now apply mem_In.
    - right. apply filter_In. split; [exact Hp | now rewrite M]. }
  destruct (filter (fun x => negb (mem x (entries f))) files) as [|y ys] eqn:Enew.
  - exists false. cbn [fst snd]. split; [reflexivity|]. split.
    + intros p Hp. destruct (Hold p Hp) as [H | []]. exact H.
    + rewrite (scan_plain_log walk extensions history_file f Hm Hsc).
      fold files. now rewrite Enew.
  - exists true. cbn [fst snd]. split; [reflexivity|].
    assert (Hnew : forallb one_line (y :: ys) = true).
    { rewrite forallb_forall in *. intros p Hp. apply Hone.
      rewrite <- Enew in Hp. apply filter_In in Hp. apply Hp. }
    assert (Hent : entries (append_text f (flat_map (fun p => p ++ nl) (y :: ys)))
                   = entries f ++ y :: ys).
    { destruct f as [c|]; cbn [append_text entries].
      - now apply stripped_lines_concat.
      - apply (stripped_lines_concat [] (y :: ys) eq_refl Hnew). }
    split.
    + intros p Hp. rewrite Hent. apply in_or_app. now apply Hold.
    + rewrite (scan_plain_log walk extensions history_file _ Hm Hsc).
      fold files. rewrite Hent.
      rewrite filter_none_in; [reflexivity|].
      intros p Hp. apply negb_false_iff, mem_In, in_or_app. now apply Hold.
Qed.

(** ** What a search leaves alone *)

Lemma playlist_titles_store n c d :
  endswith n m3u = false -> playlist_titles (store n c d) = playlist_titles d.
Proof.
  intros Hn. unfold playlist_titles.
  destruct (listdir_store n c d) as [-> | ->]; [reflexivity|].
  rewrite filter_app. cbn [filter]. rewrite Hn. now rewrite app_nil_r.
Qed.

Lemma all_titles_update n op d :
  endswith n m3u = false -> n <> PDF_HISTORY_FILE ->
  all_titles (update n op d) = all_titles d.
Proof.
  intros Hn Hp. unfold update. destruct (op (read n d)) as [c|]; [|reflexivity].
  unfold all_titles, pdf_paths.
  now rewrite playlist_titles_store, read_store_other.
Qed.

(** X7.  A search changes no descriptor and not the document log: after
    [search_and_open] every file of the playlist folder other than the
    search history and the opened-documents log reads as before, the
    candidate titles are the same, and so a later search chooses among
    the same titles. *)
Theorem search_keeps_candidates (query : str) (spawns connects opens : bool)
    (k : Desk) :
  all_titles (folder (snd (search_and_open query spawns connects opens k)))
  = all_titles (folder k)
  /\ (forall n, n <> SEARCH_HISTORY_FILE -> n <> PDF_OPENED_HISTORY_FILE ->
        read n (folder (snd (search_and_open query spawns connects opens k)))
        = read n (folder k))
  /\ on_disk (snd (search_and_open query spawns connects opens k)) = on_disk k.
Proof.
  unfold search_and_open.
  destruct (all_titles (folder k)) as [|t ts] eqn:Et; [now repeat split|].
  rewrite <- Et.
  destruct (extractOne query (all_titles (folder k))) as [[best score]|];
    [|now repeat split].
  destruct (score <? 60)%Z; [now repeat split|].
  destruct (mem best (playlist_titles (folder k))); cbn [snd folder on_disk].
  - unfold log_search_history. split; [|split; [|reflexivity]].
    + now apply all_titles_update.
    + intros n Hs _. apply read_update_other. congruence.
  - destruct (filter _ (pdf_paths (folder k))) as [|pdf_path rest];
      [now repeat split|].
    destruct (on_disk k pdf_path); cbn [negb snd folder on_disk];
      [|now repeat split].
    destruct opens; cbn [negb snd folder on_disk]; [|now repeat split].
    unfold log_search_history. split; [|split; [|reflexivity]].
    + rewrite all_titles_update by (reflexivity || discriminate).
      now apply all_titles_update.
    + intros n Hs Ho. rewrite read_update_other by congruence.
      apply read_update_other. congruence.
Qed.

(** X8.  A document opened through a search is logged once: when
    [search_and_open] opens a document and the opened-documents log was
    complete, the document handed to the default application is a path of
    the document log whose file exists, it is an entry of the
    opened-documents log afterwards, logging it once more would change
    nothing, and the player session is as it was. *)
Theorem searched_document_logged_once (query title : str)
    (spawns connects opens : bool) (k k' : Desk) :
  search_and_open query spawns connects opens k = (OpeningPDF title, k') ->
  complete_file (read PDF_OPENED_HISTORY_FILE (folder k)) = true ->
  exists pdf_path,
    opened k' = opened k ++ [pdf_path]
    /\ In pdf_path (pdf_paths (folder k)) /\ on_disk k pdf_path = true
    /\ basename pdf_path = title
    /\ In pdf_path (entries (read PDF_OPENED_HISTORY_FILE (folder k')))
    /\ log_pdf_opened pdf_path (read PDF_OPENED_HISTORY_FILE (folder k'))
       = read PDF_OPENED_HISTORY_FILE (folder k')
    /\ session k' = session k.
Proof.
  unfold search_and_open.
  destruct (all_titles (folder k)) as [|t ts]; [discriminate|].
  destruct (extractOne query (t :: ts)) as [[best score]|]; [|discriminate].
  destruct (score <? 60)%Z; [discriminate|].
  destruct (mem best (playlist_titles (folder k))); [discriminate|].
  destruct (filter (fun p => str_eqb (basename p) best) (pdf_paths (folder k)))
    as [|pdf_path rest] eqn:F; [discriminate|].
  destruct (on_disk k pdf_path) eqn:Hd; cbn [negb]; [|discriminate].
  destruct opens; cbn [negb]; [|discriminate].
  intros H Hc. apply (f_equal snd) in H as Hk. apply (f_equal fst) in H.
  cbn [fst snd] in H, Hk. subst k'. cbn [opened folder session].
  assert (Hin : In pdf_path (pdf_path :: rest)) by now left.
  rewrite <- F in Hin. apply filter_In in Hin. destruct Hin as [Hp Hb].
  apply str_eqb_eq in Hb.
  assert (Hone : one_line pdf_path = true).
  { unfold pdf_paths in Hp.
    destruct (read PDF_HISTORY_FILE (folder k)) as [c|]; [|destruct Hp].
    eapply stripped_lines_one_line; eassumption. }
  exists pdf_path. split; [reflexivity|]. split; [exact Hp|]. split; [exact Hd|].
  split; [congruence|].
  unfold log_search_history. rewrite read_update_other by discriminate.
  set (f := read PDF_OPENED_HISTORY_FILE (folder k)) in *.
  assert (Hr : read PDF_OPENED_HISTORY_FILE
                 (update PDF_OPENED_HISTORY_FILE (log_pdf_opened pdf_path) (folder k))
               = log_pdf_opened pdf_path f).
  { destruct (log_pdf_opened pdf_path f) as [c|] eqn:E.
    - now apply read_update_same.
    - destruct f; cbn in E; [destruct (mem _ _)|]; discriminate. }
  rewrite Hr. destruct (log_pdf_opened_entries pdf_path f Hc Hone) as [_ He].
  split; [|split; [now apply log_pdf_opened_idempotent | reflexivity]].
  rewrite He. destruct (mem pdf_path (entries f)) eqn:M.
  - now apply mem_In.
  - apply in_or_app. right. now left.
Qed.

(** ** Commands of the player *)

Lemma launch_vlc_one_player l s : one_player s -> one_player (launch_vlc l s).
Proof.
  unfold one_player, launch_vlc. intros H.
  assert (Hc : VLC_PROCESS (close_socket s) = VLC_PROCESS s
               /\ running (close_socket s) = running s).
  { unfold close_socket. destruct (VLC_SOCKET s); now split. }
  destruct Hc as [Hp Hr].
  rewrite (kill_process_spec (close_socket s)) by now rewrite Hp, Hr.
  destruct (popen_ok l); [destruct (connect_ok l)|]; cbn;
    unfold at_most_current; eauto.
Qed.

Lemma teardown_socket s : VLC_SOCKET (kill_process (close_socket s)) = None.
Proof.
  assert (H : VLC_SOCKET (close_socket s) = None).
  { unfold close_socket. destruct (VLC_SOCKET s) eqn:E; [reflexivity | exact E]. }
  unfold kill_process. destruct (VLC_PROCESS (close_socket s)); exact H.
Qed.

Lemma send_keeps_process cmd delivered s :
  VLC_PROCESS (snd (send_vlc_command cmd delivered s)) = VLC_PROCESS s
  /\ running (snd (send_vlc_command cmd delivered s)) = running s
  /\ killed (snd (send_vlc_command cmd delivered s)) = killed s
  /\ started (snd (send_vlc_command cmd delivered s)) = started s.
Proof.
  unfold send_vlc_command. destruct (VLC_SOCKET s); [destruct delivered|];
    now repeat split.
Qed.

Lemma run_one_player es s : one_player s -> one_player (run es s).
Proof.
  unfold run. revert s. induction es as [|e es IH]; intros s H; [exact H|].
  cbn [fold_left]. apply IH. destruct e as [l | cmd delivered]; cbn [step].
  - now apply launch_vlc_one_player.
  - unfold one_player in *.
    destruct (send_keeps_process cmd delivered s) as [-> [-> _]]. exact H.
Qed.

Lemma dropped_commands cs : forall s,
  VLC_SOCKET s = None ->
  run (map (fun c => Sends (fst c) (snd c)) cs) s = s
  /\ forall c, In c cs -> fst (send_vlc_command (fst c) (snd c) s) = false.
Proof.
  induction cs as [|c cs IH]; intros s Hs; [split; [reflexivity | intros c []]|].
  assert (E : send_vlc_command (fst c) (snd c) s = (false, s)).
  { unfold send_vlc_command. now rewrite Hs. }
  destruct (IH s Hs) as [Hrun Hall]. split.
  - unfold run in *. cbn [map fold_left step]. now rewrite E.
  - intros x [<- | Hx]; [now rewrite E | now apply Hall].
Qed.

(** X9.  Commands of the player.  Without a socket [send_vlc_command]
    returns [False] and changes nothing, so after a launch whose
    connection attempt gave up every command is dropped; a send that
    fails forgets the socket, and every command after it is dropped;
    with a socket that delivers it returns [True] and changes nothing.
    No command starts or stops a process, and whatever launches and
    commands came before, at most one player of the session runs: the
    one [VLC_PROCESS] holds. *)
Theorem player_commands (es : list Event) (cmd : str) (delivered : bool)
    (cs : list (str * bool)) (l : Launch) :
  let s := run es idle in
  (VLC_SOCKET s = None -> send_vlc_command cmd delivered s = (false, s))
  /\ (connect_ok l = false ->
      run (map (fun c => Sends (fst c) (snd c)) cs) (launch_vlc l s) = launch_vlc l s
      /\ forall c, In c cs ->
           fst (send_vlc_command (fst c) (snd c) (launch_vlc l s)) = false)
  /\ (run (map (fun c => Sends (fst c) (snd c)) cs)
          (snd (send_vlc_command cmd false s))
      = snd (send_vlc_command cmd false s)
      /\ forall c, In c cs ->
           fst (send_vlc_command (fst c) (snd c)
                  (snd (send_vlc_command cmd false s))) = false)
  /\ (forall c, VLC_SOCKET s = Some c -> send_vlc_command cmd true s = (true, s))
  /\ (VLC_PROCESS (snd (send_vlc_command cmd delivered s)) = VLC_PROCESS s
      /\ running (snd (send_vlc_command cmd delivered s)) = running s
      /\ killed (snd (send_vlc_command cmd delivered s)) = killed s
      /\ started (snd (send_vlc_command cmd delivered s)) = started s)
  /\ (List.length (running s) <= 1)%nat
  /\ (forall p, In p (running s) -> VLC_PROCESS s = Some p).
Proof.
  intros s.
  assert (Hone : one_player s).
  { apply run_one_player. unfold one_player, at_most_current. now left. }
  split; [|split; [|split; [|split; [|split; [|split]]]]].
  - intros Hs. unfold send_vlc_command. now rewrite Hs.
  - intros Hl. apply dropped_commands.
    unfold launch_vlc. destruct (popen_ok l); [rewrite Hl|].
    + cbn [popen VLC_SOCKET]. apply teardown_socket.
    + apply teardown_socket.
  - apply dropped_commands. unfold send_vlc_command.
    destruct (VLC_SOCKET s) eqn:E; [reflexivity | exact E].
  - intros c Hc. unfold send_vlc_command. now rewrite Hc.
  - apply send_keeps_process.
  - now apply (at_most_current_length (VLC_PROCESS s)).
  - intros p Hin. destruct Hone as [E | [h [E ->]]]; rewrite E in Hin.
    + destruct Hin.
    + destruct Hin as [-> | []]. reflexivity.
Qed.

(** ** Playing at random from a log *)

Lemma random_choice_In r x xs : In (random_choice r (x :: xs)) (x :: xs).
Proof.
  unfold random_choice. apply nth_In. apply Nat.mod_upper_bound. discriminate.
Qed.

(** The lines [scan_and_log_files] writes into an [.m3u] log for files
    whose paths can be encoded. *)
Lemma history_lines_encoded files :
  forallb (forallb scalar) files = true ->
  exists es,
    history_lines true files = (flat_map (fun e => e ++ nl) es, true)
    /\ Forall2 (fun p e => playlist_entry p = Some e) files es.
Proof.
  induction files as [|p ps IH]; intros H.
  - exists []. split; [reflexivity | constructor].
  - cbn [forallb] in H. apply andb_true_iff in H. destruct H as [Hp Hps].
    destruct (IH Hps) as [es [E F]]. destruct (quote_scalar p Hp) as [q Hq].
    exists ((scheme ++ q) :: es). split.
    + cbn [history_lines flat_map]. rewrite Hq, E. now rewrite <- !app_assoc.
    + constructor; [|exact F]. unfold playlist_entry. now rewrite Hq.
Qed.

Lemma playlist_entry_shape p e :
  playlist_entry p = Some e ->
  exists q, e = scheme ++ q /\ Urllib.quote p = Some q /\ forallb plain q = true.
Proof.
  unfold playlist_entry. destruct (Urllib.quote p) as [q|] eqn:E; [|discriminate].
  intros H. apply Some_eq in H. subst e. exists q.
  split; [reflexivity|]. split; [reflexivity|]. eapply quote_plain; eassumption.
Qed.

(** The entries read back from the lines written for encoded paths. *)
Lemma history_entries_encoded files es :
  Forall2 (fun p e => playlist_entry p = Some e) files es ->
  history_entries (flat_map (fun e => e ++ nl) es) = es.
Proof.
  intros F.
  assert (Hes : forall e, In e es -> exists q, e = scheme ++ q /\ forallb plain q = true).
  { clear -F. induction F as [|p e ps es Hpe F IH]; intros x Hx; [destruct Hx|].
    destruct Hx as [<- | Hx]; [|now apply IH].
    destruct (playlist_entry_shape p e Hpe) as [q [E [_ Hq]]]. now exists q. }
  assert (Hb : forallb no_break es = true).
  { apply forallb_forall. intros e He. destruct (Hes e He) as [q [-> Hq]].
    now apply entry_no_break. }
  unfold history_entries.
  destruct (lines_concat [] es eq_refl Hb) as [E _]. cbn [app] in E.
  rewrite E. cbn [lines lines_from app]. clear E Hb F.
  induction es as [|e es IH]; [reflexivity|].
  destruct (Hes e (or_introl eq_refl)) as [q [-> Hq]].
  cbn [map filter]. rewrite strip_trimmed_nl by now apply entry_trimmed.
  change (nonempty (scheme ++ q)) with true.
  change (startswith ((scheme ++ q) ++ nl) (lit "#")) with false.
  cbn [negb andb map]. rewrite strip_trimmed_nl by now apply entry_trimmed.
  f_equal. apply IH. intros x Hx. apply Hes. now right.
Qed.

Lemma Forall2_In_r {A B} (R : A -> B -> Prop) xs ys y :
  Forall2 R xs ys -> In y ys -> exists x, In x xs /\ R x y.
Proof.
  induction 1 as [|x0 y0 xs ys Hr F IH]; intros Hin; [destruct Hin|].
  destruct Hin as [<- | Hin].
  - exists x0. split; [now left | exact Hr].
  - destruct (IH Hin) as [x [Hx Hxy]]. exists x. split; [now right | exact Hxy].
Qed.

(** X10.  A video played at random is a scanned video: when the paths of
    the files found can be encoded, the first [scan_and_log_files] into
    the video log writes one [file:///] entry for each of them, in their
    order, and nothing else; read back, the log gives those entries; and
    whatever number is drawn, [play_random_media] on that log hands the
    player the path of one of the files found, decoded as it was. *)
Theorem random_video_is_a_scanned_file (walk : list (str * str))
    (extensions : list str) (r : nat) (spawns connects : bool) (s : Session) :
  forallb (forallb scalar) (scanned_files walk extensions) = true ->
  scanned_files walk extensions <> [] ->
  exists es t,
    Forall2 (fun p e => playlist_entry p = Some e)
            (scanned_files walk extensions) es
    /\ scan_and_log_files true walk extensions HISTORY_VIDEO None
       = (Some true, Some (flat_map (fun e => e ++ nl) es))
    /\ history_entries (flat_map (fun e => e ++ nl) es) = es
    /\ In t (scanned_files walk extensions)
    /\ play_random_media (Some (flat_map (fun e => e ++ nl) es)) r spawns connects s
       = (Playing t,
          launch_vlc {| target := t; popen_ok := spawns; connect_ok := connects |} s).
Proof.
  intros Hs Hne. destruct (history_lines_encoded _ Hs) as [es [E F]].
  exists es.
  assert (Hscan : scan_and_log_files true walk extensions HISTORY_VIDEO None
                  = (Some true, Some (flat_map (fun e => e ++ nl) es))).
  { unfold scan_and_log_files. cbn [negb]. fold (scanned_files walk extensions).
    destruct (scanned_files walk extensions) as [|x xs] eqn:Ef; [contradiction|].
    rewrite filter_all by reflexivity.
    change (endswith HISTORY_VIDEO m3u) with true. now rewrite E. }
  pose proof (history_entries_encoded _ _ F) as Hread.
  unfold play_random_media. rewrite Hread.
  destruct es as [|e es'].
  { inversion F as [Hf|]. symmetry in Hf. contradiction. }
  cbv beta iota zeta. set (sel := random_choice r (e :: es')).
  assert (Hin : In sel (e :: es')) by apply random_choice_In.
  destruct (Forall2_In_r _ _ _ _ F Hin) as [p [Hp Hpe]].
  destruct (playlist_entry_shape _ _ Hpe) as [q [Eq [Hq _]]].
  exists p. split; [exact F|]. split; [exact Hscan|]. split; [reflexivity|].
  split; [exact Hp|].
  change (random_choice r (e :: es')) with sel. rewrite Eq, startswith_app.
  change (skipn 8 (scheme ++ q)) with q. now rewrite (unquote_quote _ _ Hq).
Qed.

(** X11.  A document opened at random was opened before: on the log that
    [log_pdf_opened] built from the paths [ps], of one line each and
    that can be encoded, whatever number is drawn,
    [play_random_pdf_opened] picks one of those paths, reports it
    missing when its file does not exist, opens it when the file exists
    and the default application starts, and reports the failure when it
    does not start. *)
Theorem random_document_was_opened (ps : list str) (r : nat)
    (exists_ : str -> bool) (opens : bool) :
  forallb one_line ps = true ->
  forallb (forallb scalar) ps = true ->
  ps <> [] ->
  exists p, In p ps
    /\ play_random_pdf_opened (opened_log ps) r exists_ opens
       = if negb (exists_ p) then Missing p
         else if opens then Opening p else NotOpened p.
Proof.
  intros Hps _ Hne.
  destruct (opened_log_from ps None eq_refl Hps (NoDup_nil _)) as [_ [_ [Hall _]]].
  assert (Hmem : forall p, In p (entries (opened_log ps)) <-> In p ps).
  { intros p. unfold opened_log. rewrite (Hall p). cbn [entries In].
    split; [intros [[] | H]; exact H | now right]. }
  clear Hall. unfold play_random_pdf_opened.
  destruct (opened_log ps) as [content|] eqn:E; cbn [entries] in Hmem.
  - destruct (stripped_lines content) as [|x xs] eqn:El.
    + destruct ps as [|p ps']; [contradiction|].
      destruct (proj2 (Hmem p) (or_introl eq_refl)).
    + exists (random_choice r (x :: xs)). split.
      * apply Hmem, random_choice_In.
      * reflexivity.
  - destruct ps as [|p ps']; [contradiction|].
    destruct (proj2 (Hmem p) (or_introl eq_refl)).
Qed.

(** ** The index of the library *)

Lemma media_type_of_cases media_path :
  In (media_type_of media_path)
     [lit "MKV"; lit "MP4"; lit "AVI"; lit "Music"; lit "Video"].
Proof.
  unfold media_type_of.
  destruct (str_eqb _ (lit ".mkv")); [now left|].
  destruct (str_eqb _ (lit ".mp4")); [right; now left|].
  destruct (str_eqb _ (lit ".avi")); [right; right; now left|].
  destruct (mem _ _); [right; right; right; now left|].
  right; right; right; right; now left.
Qed.

Lemma read_descriptor_cases ls :
  In (snd (read_descriptor ls))
     [lit "MKV"; lit "MP4"; lit "AVI"; lit "Music"; lit "Video"].
Proof.
  induction ls as [|l ls IH]; cbn [read_descriptor snd].
  - right; right; right; right; now left.
  - destruct (startswith (strip l) scheme); [apply media_type_of_cases|].
    destruct (nonempty (strip l) && negb (startswith (strip l) (lit "#")));
      [|exact IH].
    right; right; right; right; now left.
Qed.

(** The fields of the entry of a descriptor. *)
Lemma descriptor_item_fields d f :
  name (descriptor_item d f) = fst (splitext f)
  /\ playlist (descriptor_item d f) = Some (join PLAYLIST_FOLDER f)
  /\ In (type (descriptor_item d f))
        [lit "MKV"; lit "MP4"; lit "AVI"; lit "Music"; lit "Video"]
  /\ (nonempty (album (descriptor_item d f)) = true
      \/ nonempty (artist (descriptor_item d f)) = true ->
      type (descriptor_item d f) = lit "Music"
      /\ nonempty (path (descriptor_item d f)) = true).
Proof.
  unfold descriptor_item.
  assert (Ht : In (snd (match read f d with
                        | Some content => read_descriptor (lines content)
                        | None => ([], lit "Video")
                        end))
                  [lit "MKV"; lit "MP4"; lit "AVI"; lit "Music"; lit "Video"]).
  { destruct (read f d); [apply read_descriptor_cases|].
    right; right; right; right; now left. }
  destruct (match read f d with Some _ => _ | None => _ end) as [media_path media_type].
  cbn [snd] in Ht. unfold artist_album.
  destruct (str_eqb media_type (lit "Music")) eqn:Em.
  - apply str_eqb_eq in Em. destruct (nonempty media_path) eqn:En; cbn [andb].
    + destruct (3 <=? _)%nat; cbn [name playlist type album artist path];
        (split; [reflexivity|]; split; [reflexivity|]; split; [exact Ht|];
         intros _; now split).
    + cbn [name playlist type album artist path nonempty].
      split; [reflexivity|]. split; [reflexivity|]. split; [exact Ht|].
      intros [X | X]; discriminate.
  - cbn [andb name playlist type album artist path nonempty].
    split; [reflexivity|]. split; [reflexivity|]. split; [exact Ht|].
    intros [X | X]; discriminate.
Qed.

(** An entry of the index is the entry of a descriptor of the folder that
    is no history log, or the entry of a document of the document log
    whose file exists. *)
Lemma refresh_library_In d exists_ item :
  In item (refresh_library d exists_) <->
  (exists f, In f (listdir d) /\ endswith f m3u = true
             /\ f <> lit "history.m3u" /\ f <> lit "history2.m3u"
             /\ item = descriptor_item d f)
  \/ (exists pdf_path, In pdf_path (pdf_paths d) /\ exists_ pdf_path = true
                       /\ item = pdf_item pdf_path).
Proof.
  unfold refresh_library, pdf_paths, stripped_lines. rewrite in_app_iff.
  assert (Hor : forall A B C D : Prop, (A <-> C) -> (B <-> D) -> (A \/ B <-> C \/ D)).
  { clear. intros A B C D [H1 H2] [H3 H4]. split; intros [H | H]; auto. }
  apply Hor; clear Hor.
  - rewrite in_map_iff. split.
    + intros [f [<- Hf]]. apply filter_In in Hf. destruct Hf as [Hl Hf].
      apply andb_true_iff in Hf. destruct Hf as [Hm Hh].
      exists f. split; [exact Hl|]. split; [exact Hm|].
      cbn [mem existsb] in Hh. rewrite orb_false_r in Hh.
      apply negb_true_iff, orb_false_iff in Hh. destruct Hh as [H1 H2].
      split; [|split; [|reflexivity]]; intros ->;
        [rewrite str_eqb_refl in H1 | rewrite str_eqb_refl in H2]; discriminate.
    + intros [f [Hl [Hm [H1 [H2 ->]]]]]. exists f. split; [reflexivity|].
      apply filter_In. split; [exact Hl|]. rewrite Hm. cbn [andb mem existsb].
      rewrite orb_false_r. apply negb_true_iff, orb_false_iff.
      split; apply not_true_is_false; intros E; apply str_eqb_eq in E; congruence.
  - destruct (read PDF_HISTORY_FILE d) as [content|].
    + rewrite in_map_iff. split.
      * intros [p [<- Hp]]. apply filter_In in Hp. destruct Hp as [Hl Hp].
        apply andb_true_iff in Hp. destruct Hp as [Hn He].
        exists p. split; [|split; [exact He | reflexivity]].
        apply filter_In. now split.
      * intros [p [Hp [He ->]]]. apply filter_In in Hp. destruct Hp as [Hl Hn].
        exists p. split; [reflexivity|]. apply filter_In. split; [exact Hl|].
        now rewrite Hn, He.
    + split; [intros [] | intros [p [[] _]]].
Qed.

(** X12.  A query with a comma shows music only: whatever the folder
    holds, every entry that [filter_library] shows from the index built by
    [refresh_library] for a query of two parts or more is the entry of a
    descriptor, of type [Music], with a media path: videos and documents
    have neither album nor artist. *)
Theorem comma_queries_show_music (d : directory) (exists_ : str -> bool)
    (entry : str) (item : LibraryEntry) :
  (2 <= List.length (query_parts entry))%nat ->
  In item (filter_library entry (refresh_library d exists_)) ->
  type item = lit "Music" /\ path item <> []
  /\ exists f, In f (listdir d) /\ playlist item = Some (join PLAYLIST_FOLDER f).
Proof.
  intros Hparts Hin.
  assert (Hq : nonempty (lower (strip entry)) = true).
  { destruct (nonempty (lower (strip entry))) eqn:E; [reflexivity|].
    unfold query_parts in Hparts. destruct (lower (strip entry)); [|discriminate].
    cbn in Hparts. lia. }
  rewrite (filter_library_nonempty entry _ Hq) in Hin.
  apply filter_In in Hin. destruct Hin as [Hitem Hqual].
  assert (Hfields : nonempty (album item) = true).
  { destruct (query_parts entry) as [|p1 [|p2 [|p3 [|p4 ps]]]];
      cbn [List.length] in Hparts; try lia; cbn [qualifies] in Hqual;
      try discriminate.
    - destruct (nonempty (album item)); [reflexivity|]. discriminate.
    - destruct (nonempty (album item)); [reflexivity|].
      now rewrite andb_false_r in Hqual. }
  apply refresh_library_In in Hitem.
  destruct Hitem as [[f [Hl [_ [_ [_ ->]]]]] | [p [_ [_ ->]]]].
  - destruct (descriptor_item_fields d f) as [_ [Hp [_ Hm]]].
    destruct (Hm (or_introl Hfields)) as [Ht Hn].
    split; [exact Ht|]. split.
    + intros E. rewrite E in Hn. discriminate.
    + exists f. now split.
  - discriminate.
Qed.

(** X13.  What the library shows can be searched: the name of every entry
    of a descriptor is a candidate title of [search_and_open], and so is
    the base name, extension kept, of the path of every entry of a
    document; the entries of documents are the documents of the document
    log whose file exists, in the order of the log; and no entry stands
    for a history log. *)
Theorem index_entries_are_candidates (d : directory) (exists_ : str -> bool) :
  (forall item, In item (refresh_library d exists_) ->
     match playlist item with
     | Some playlist_path =>
         In (name item) (playlist_titles d) /\ In (name item) (all_titles d)
         /\ (exists f, playlist_path = join PLAYLIST_FOLDER f
                       /\ f <> lit "history.m3u" /\ f <> lit "history2.m3u")
         /\ type item <> lit "PDF"
     | None =>
         In (basename (path item)) (all_titles d)
         /\ exists_ (path item) = true /\ type item = lit "PDF"
     end)
  /\ map path (filter (fun item => str_eqb (type item) (lit "PDF"))
                      (refresh_library d exists_))
     = filter exists_ (pdf_paths d).
Proof.
  split.
  - intros item Hin. apply refresh_library_In in Hin.
    destruct Hin as [[f [Hl [Hm [H1 [H2 ->]]]]] | [p [Hp [He ->]]]].
    + destruct (descriptor_item_fields d f) as [Hn [Hpl [Ht _]]].
      rewrite Hpl, Hn.
      assert (Hin : In (fst (splitext f)) (playlist_titles d)).
      { unfold playlist_titles. apply (in_map (fun f => fst (splitext f))).
        apply filter_In. now split. }
      split; [exact Hin|]. split; [unfold all_titles; apply in_or_app; now left|].
      split; [now exists f|].
      intros E. rewrite E in Ht.
      repeat (destruct Ht as [Ht | Ht]; [discriminate|]). exact Ht.
    + cbn [playlist pdf_item path type]. split; [|now split].
      unfold all_titles. apply in_or_app. right. now apply in_map.
  - unfold refresh_library. rewrite filter_app, map_app.
    replace (filter _ (map (descriptor_item d) _)) with (@nil LibraryEntry).
    + cbn [map app]. unfold pdf_paths, stripped_lines.
      destruct (read PDF_HISTORY_FILE d) as [content|]; [|reflexivity].
      induction (map strip (lines content)) as [|p ps IH]; [reflexivity|].
      cbn [filter]. destruct (nonempty p); cbn [andb filter map]; [|exact IH].
      destruct (exists_ p); cbn [map filter]; [|exact IH].
      change (str_eqb (type (pdf_item p)) (lit "PDF")) with true.
      cbn [map path pdf_item]. now rewrite IH.
    + symmetry. apply filter_none_in. intros item Hin.
      apply in_map_iff in Hin. destruct Hin as [f [<- _]].
      destruct (descriptor_item_fields d f) as [_ [_ [Ht _]]].
      apply not_true_is_false. intros E. apply str_eqb_eq in E. rewrite E in Ht.
      repeat (destruct Ht as [Ht | Ht]; [discriminate|]). exact Ht.
Qed.
(** ** The music scan *)

Lemma endswith_app a b : endswith (a ++ b) b = true.
Proof. unfold endswith. rewrite rev_app_distr. apply startswith_app. Qed.

Lemma fold_left_keeps {A B} (P : A -> Prop) (f : A -> B -> A) (l : list B) :
  (forall a b, P a -> P (f a b)) -> forall a, P a -> P (fold_left f l a).
Proof.
  intros Hf. induction l as [|b l IH]; intros a Ha; [exact Ha|].
  cbn [fold_left]. apply IH. now apply Hf.
Qed.

(** What a file of the folder that is no [.m3u] file sees of a store
    under a name that ends in [.m3u]. *)
Lemma store_descriptor_keeps n safe_name text d :
  endswith n m3u = false ->
  read n (store (safe_name ++ m3u) text d) = read n d.
Proof.
  intros H. apply read_store_other. intros E. subst n.
  rewrite endswith_app in H. discriminate.
Qed.

Lemma store_descriptor_names n safe_name text d :
  In n (listdir (store (safe_name ++ m3u) text d)) ->
  In n (listdir d) \/ endswith n m3u = true.
Proof.
  destruct (listdir_store (safe_name ++ m3u) text d) as [-> | ->]; [now left|].
  rewrite in_app_iff. intros [H | [<- | []]]; [now left | right].
  apply endswith_app.
Qed.

Lemma only_descriptors_refl d : only_descriptors d d.
Proof. split; [reflexivity | now left]. Qed.

Lemma only_descriptors_store safe_name text d d' :
  only_descriptors d d' -> only_descriptors d (store (safe_name ++ m3u) text d').
Proof.
  intros [Hr Hn]. split.
  - intros n H. rewrite store_descriptor_keeps by exact H. now apply Hr.
  - intros n H. apply store_descriptor_names in H.
    destruct H as [H | H]; [now apply Hn | now right].
Qed.

Lemma write_mkv_playlists_only mkv_files : forall d d',
  only_descriptors d d' ->
  only_descriptors d (snd (write_mkv_playlists mkv_files d')).
Proof.
  induction mkv_files as [|p ps IH]; intros d d' H; cbn [write_mkv_playlists];
    [exact H|].
  unfold mkv_playlist. destruct (playlist_entry p); [|exact H].
  apply IH. now apply only_descriptors_store.
Qed.

Lemma write_playlist_only name songs prefix d d' :
  only_descriptors d d' ->
  only_descriptors d (fst (write_playlist name songs prefix d')).
Proof.
  intros H. unfold write_playlist.
  destruct (music_safe_name name); cbn [fst]; [|exact H].
  now apply only_descriptors_store.
Qed.

Lemma write_song_playlist_only album_songs d w i :
  only_descriptors d (fst w) ->
  only_descriptors d (fst (write_song_playlist album_songs w i)).
Proof.
  intros H. unfold write_song_playlist. destruct (negb (snd w)); [exact H|].
  now apply write_playlist_only.
Qed.

Lemma album_scan_only artist_name artist_path d acc entry :
  only_descriptors d (fst (snd acc)) ->
  only_descriptors d (fst (snd (album_scan artist_name artist_path acc entry))).
Proof.
  intros H. destruct entry as [album_name [song_files|]]; cbn [album_scan].
  - destruct (negb (snd (snd acc))); [exact H|].
    destruct (map _ (filter is_song song_files)) as [|song_path rest];
      [exact H|].
    set (w := fold_left _ _ (snd acc)).
    assert (Hw : only_descriptors d (fst w)).
    { apply (fold_left_keeps (fun w => only_descriptors d (fst w))); [|exact H].
      intros w0 i Hw0. now apply write_song_playlist_only. }
    destruct (negb (snd w)); cbn [snd fst]; [exact Hw|].
    pose proof (write_playlist_only (artist_name ++ lit " - " ++ album_name)
                  (sort (song_path :: rest)) (lit "# Album") d (fst w) Hw) as Ha.
    destruct (negb (snd (write_playlist _ _ _ (fst w)))); exact Ha.
  - destruct (negb (snd (snd acc))); exact H.
Qed.

Lemma artist_scan_only folder d w entry :
  only_descriptors d (fst w) ->
  only_descriptors d (fst (artist_scan folder w entry)).
Proof.
  intros H. destruct entry as [artist_name [albums|]]; cbn [artist_scan].
  - destruct (negb (snd w)); [exact H|].
    assert (Ha : only_descriptors d
                   (fst (snd (fold_left (album_scan artist_name
                                           (join folder artist_name))
                                        albums ([], w))))).
    { apply (fold_left_keeps (fun acc => only_descriptors d (fst (snd acc))));
        [|exact H].
      intros acc entry Hacc. now apply album_scan_only. }
    destruct (fold_left _ albums ([], w)) as [all_artist_songs w1].
    cbn [snd] in Ha. destruct (negb (snd w1)); [exact Ha|].
    destruct all_artist_songs as [|s rest]; [exact Ha|].
    now apply write_playlist_only.
  - destruct (negb (snd w)); exact H.
Qed.

(** X14.  The scans write descriptors only: whatever the folders scanned
    hold, after [create_mkv_playlists] and after [create_music_playlists]
    every file of the playlist folder whose name does not end in [.m3u]
    reads as before (the document log, the opened-documents log and the
    search history among them), and every name that is new in the folder
    ends in [.m3u]. *)
Theorem scans_write_descriptors_only (n : str) (d : directory) :
  endswith n m3u = false ->
  (forall walk,
     read n (snd (create_mkv_playlists walk d)) = read n d
     /\ (In n (listdir (snd (create_mkv_playlists walk d))) -> In n (listdir d)))
  /\ (forall folder tree,
        read n (snd (create_music_playlists folder tree d)) = read n d
        /\ (In n (listdir (snd (create_music_playlists folder tree d)))
            -> In n (listdir d))).
Proof.
  intros Hn.
  assert (Huse : forall d', only_descriptors d d' ->
            read n d' = read n d /\ (In n (listdir d') -> In n (listdir d))).
  { intros d' [Hr Hl]. split; [now apply Hr|].
    intros H. destruct (Hl n H) as [H' | H']; [exact H' | congruence]. }
  split.
  - intros walk. apply Huse. unfold create_mkv_playlists.
    destruct (map _ _) as [|p ps]; [apply only_descriptors_refl|].
    apply write_mkv_playlists_only, only_descriptors_refl.
  - intros folder tree. apply Huse. unfold create_music_playlists.
    destruct (negb (nonempty folder)); [apply only_descriptors_refl|].
    destruct tree as [artists|]; [|apply only_descriptors_refl]. cbn [snd].
    apply (fold_left_keeps (fun w => only_descriptors d (fst w)));
      [|apply only_descriptors_refl].
    intros w entry H. now apply artist_scan_only.
Qed.


(** The rotation of an album starts at the song it is made for. *)
Lemma rotated_head album_songs i :
  (i < List.length album_songs)%nat ->
  exists rest, rotated album_songs i = nth i album_songs [] :: rest
               /\ List.length (rotated album_songs i) = List.length album_songs.
Proof.
  intros H. unfold rotated.
  assert (E : skipn i album_songs = nth i album_songs [] :: skipn (S i) album_songs).
  { clear -H. revert i H. induction album_songs as [|s l IH]; intros i H;
      cbn [List.length] in H; [lia|].
    destruct i as [|i]; [reflexivity|]. cbn [skipn nth]. apply IH. lia. }
  exists (skipn (S i) album_songs ++ firstn i album_songs). split.
  - now rewrite E.
  - rewrite length_app, length_skipn, length_firstn. lia.
Qed.

Lemma rotated_In album_songs i song :
  In song (rotated album_songs i) <-> In song album_songs.
Proof.
  unfold rotated. rewrite in_app_iff.
  rewrite <- (firstn_skipn i album_songs) at 3. rewrite in_app_iff. clear. tauto.
Qed.

(** The lines written for songs whose paths can be encoded: one entry
    for each, in their order. *)
Lemma song_lines_encoded songs :
  forallb (fun p => forallb scalar (abspath p)) songs = true ->
  exists es,
    song_lines songs = flat_map (fun e => e ++ nl) es
    /\ Forall2 (fun p e => playlist_entry (abspath p) = Some e) songs es.
Proof.
  induction songs as [|p ps IH]; intros H.
  - exists []. split; [reflexivity | constructor].
  - cbn [forallb] in H. apply andb_true_iff in H. destruct H as [Hp Hps].
    destruct (IH Hps) as [es [E F]]. destruct (quote_scalar _ Hp) as [q Hq].
    exists ((scheme ++ q) :: es). split.
    + cbn [song_lines flat_map]. rewrite Hq, E. now rewrite <- !app_assoc.
    + constructor; [|exact F]. unfold playlist_entry. now rewrite Hq.
Qed.

Lemma music_safe_name_scalar name :
  forallb scalar name = true -> exists safe_name, music_safe_name name = Some safe_name.
Proof.
  intros H. unfold music_safe_name. rewrite (encodable_scalar name H).
  destruct (nonempty _); eauto.
Qed.

(** X16.  The descriptor of a song starts with the song.  When the title
    of the song at [i] of an album holds no line break and can be
    encoded, and so can the paths of the songs of the album, the turn of
    the loop of [create_music_playlists] for that song writes a
    descriptor of one entry for each song of the album, from that song
    on, round to the one before it; and [refresh_library], reading the
    descriptor as that turn wrote it, indexes it under the path of that
    song, with the type of its extension. *)
Theorem song_descriptor_starts_with_song (album_songs : list str) (i : nat)
    (d : directory) :
  let song_path := nth i album_songs [] in
  let song_title := fst (splitext (basename song_path)) in
  (i < List.length album_songs)%nat ->
  no_break song_title = true ->
  forallb scalar song_title = true ->
  forallb (fun p => forallb scalar (abspath p)) album_songs = true ->
  exists safe_name es rest,
    music_safe_name song_title = Some safe_name
    /\ rotated album_songs i = song_path :: rest
    /\ List.length (rotated album_songs i) = List.length album_songs
    /\ (forall song, In song (rotated album_songs i) <-> In song album_songs)
    /\ Forall2 (fun p e => playlist_entry (abspath p) = Some e)
               (rotated album_songs i) es
    /\ write_song_playlist album_songs (d, true) i
       = (store (safe_name ++ m3u)
                (lit "# # Song: " ++ song_title ++ nl
                 ++ flat_map (fun e => e ++ nl) es) d,
          true)
    /\ path (descriptor_item (fst (write_song_playlist album_songs (d, true) i))
                             (safe_name ++ m3u))
       = abspath song_path
    /\ type (descriptor_item (fst (write_song_playlist album_songs (d, true) i))
                             (safe_name ++ m3u))
       = media_type_of (abspath song_path).
Proof.
  intros song_path song_title Hi Hb Ht Hs.
  destruct (rotated_head album_songs i Hi) as [rest [Er El]].
  fold song_path in Er.
  destruct (music_safe_name_scalar song_title Ht) as [safe_name Hn].
  assert (Hrs : forallb (fun p => forallb scalar (abspath p))
                        (rotated album_songs i) = true).
  { apply forallb_forall. intros p Hp. apply rotated_In in Hp.
    rewrite forallb_forall in Hs. now apply Hs. }
  destruct (song_lines_encoded _ Hrs) as [es [Es F]].
  exists safe_name, es, rest.
  assert (Hw : write_song_playlist album_songs (d, true) i
               = (store (safe_name ++ m3u)
                        (lit "# # Song: " ++ song_title ++ nl
                         ++ flat_map (fun e => e ++ nl) es) d, true)).
  { unfold write_song_playlist. cbn [snd negb fst]. fold song_path.
    fold song_title. unfold write_playlist.
    rewrite Hn, (encodable_scalar song_title Ht), Es. reflexivity. }
  split; [exact Hn|]. split; [exact Er|]. split; [exact El|].
  split; [intros song; apply rotated_In|]. split; [exact F|].
  split; [exact Hw|].
  rewrite Hw. cbn [fst].
  destruct es as [|e es'].
  { rewrite Er in F. inversion F. }
  rewrite Er in F. inversion F as [|p0 e0 ps0 es0 He _ E1 E2]. subst.
  destruct (playlist_entry_shape _ _ He) as [q [-> [Hq Hp]]].
  assert (Hh : no_break (lit "# # Song: " ++ song_title) = true).
  { unfold no_break. rewrite forallb_app. apply andb_true_iff. now split. }
  assert (Hitem : read_descriptor
                    (lines (lit "# # Song: " ++ song_title ++ nl
                            ++ flat_map (fun e => e ++ nl) ((scheme ++ q) :: es')))
                  = (abspath song_path, media_type_of (abspath song_path))).
  { cbn [flat_map].
    replace (lit "# # Song: " ++ song_title ++ nl
             ++ ((scheme ++ q) ++ nl) ++ flat_map (fun e => e ++ nl) es')
      with (((lit "# # Song: " ++ song_title) ++ nl)
            ++ ((scheme ++ q) ++ nl) ++ flat_map (fun e => e ++ nl) es')
      by now rewrite <- !app_assoc.
    unfold lines.
    rewrite lines_from_app;
      [| destruct song_title; discriminate | apply (complete_append [])].
    rewrite lines_from_line by exact Hh. cbn [rev app].
    change ((lit "# # Song: " ++ song_title) ++ nl)
      with (35 :: ((lit " # Song: " ++ song_title) ++ nl)).
    rewrite read_descriptor_comment.
    rewrite lines_from_app; [| discriminate | apply (complete_append [])].
    rewrite lines_from_line by now apply entry_no_break. cbn [rev app].
    rewrite read_descriptor_entry by trivial.
    now rewrite (unquote_quote _ _ Hq). }
  unfold descriptor_item. rewrite read_store_same, Hitem.
  destruct (artist_album _ _). now split.
Qed.

(** ** The order of an album *)

Lemma str_ltb_irrefl a : str_ltb a a = false.
Proof.
  induction a as [|x a IH]; [reflexivity|]. cbn [str_ltb].
  now rewrite N.ltb_irrefl, N.eqb_refl, IH.
Qed.

Lemma str_ltb_trans a : forall b c,
  str_ltb a b = true -> str_ltb b c = true -> str_ltb a c = true.
Proof.
  induction a as [|x a IH]; intros [|y b] [|z c]; cbn [str_ltb]; try discriminate;
    try reflexivity.
  intros H1 H2. apply orb_true_iff in H1, H2. apply orb_true_iff.
  destruct H1 as [H1 | H1], H2 as [H2 | H2].
  - left. apply N.ltb_lt in H1, H2. apply N.ltb_lt. now apply N.lt_trans with y.
  - apply andb_true_iff in H2. destruct H2 as [E _]. apply N.eqb_eq in E.
    subst z. now left.
  - apply andb_true_iff in H1. destruct H1 as [E _]. apply N.eqb_eq in E.
    subst y. now left.
  - apply andb_true_iff in H1, H2. destruct H1 as [E1 L1], H2 as [E2 L2].
    apply N.eqb_eq in E1, E2. subst y z. right.
    rewrite N.eqb_refl. cbn [andb]. now apply IH with b.
Qed.

(** Two strings are equal, or one comes before the other. *)
Lemma str_ltb_total a : forall b,
  str_ltb a b = false -> str_ltb b a = false -> a = b.
Proof.
  induction a as [|x a IH]; intros [|y b]; cbn [str_ltb]; try discriminate;
    try reflexivity.
  intros H1 H2. apply orb_false_iff in H1, H2.
  destruct H1 as [L1 A1], H2 as [L2 A2].
  apply N.ltb_ge in L1, L2. assert (E : x = y) by now apply N.le_antisymm.
  subst y. rewrite N.eqb_refl in A1, A2. cbn [andb] in A1, A2.
  f_equal. now apply IH.
Qed.

Lemma insert_sorted_perm x l : Permutation (insert_sorted x l) (x :: l).
Proof.
  induction l as [|y l IH]; cbn [insert_sorted]; [apply Permutation_refl|].
  destruct (str_ltb x y); [apply Permutation_refl|].
  apply Permutation_trans with (y :: x :: l); [now apply perm_skip | apply perm_swap].
Qed.

Lemma sort_perm l : Permutation (sort l) l.
Proof.
  unfold sort. induction l as [|x l IH]; cbn [fold_right]; [apply perm_nil|].
  apply Permutation_trans with (x :: fold_right insert_sorted [] l);
    [apply insert_sorted_perm | now apply perm_skip].
Qed.

Lemma insert_sorted_sorted x l :
  StronglySorted str_le l -> StronglySorted str_le (insert_sorted x l).
Proof.
  induction 1 as [|y l Hs IH Hall]; cbn [insert_sorted].
  - constructor; constructor.
  - destruct (str_ltb x y) eqn:E.
    + constructor; [now constructor|]. constructor.
      * unfold str_le. destruct (str_ltb y x) eqn:E'; [|reflexivity].
        rewrite <- (str_ltb_irrefl x). symmetry. now apply str_ltb_trans with y.
      * rewrite Forall_forall in *. intros z Hz. specialize (Hall z Hz).
        unfold str_le in *. destruct (str_ltb z x) eqn:E'; [|reflexivity].
        rewrite <- Hall. symmetry. now apply str_ltb_trans with x.
    + constructor; [exact IH|].
      rewrite Forall_forall in *. intros z Hz.
      apply (Permutation_in _ (insert_sorted_perm x l)) in Hz.
      destruct Hz as [<- | Hz]; [exact E | now apply Hall].
Qed.

Lemma sort_sorted l : StronglySorted str_le (sort l).
Proof.
  unfold sort. induction l as [|x l IH]; cbn [fold_right]; [constructor|].
  now apply insert_sorted_sorted.
Qed.

(** X17.  An album plays in the order of its file names.  For a
    directory that holds a song, when the scan of the album passes without
    an exception and the name of the album's descriptor and the paths of
    the songs can be encoded, the descriptor of the album, written after
    the descriptors of its songs, holds one entry for every song of the
    directory, each song once, in the order of the code points of their
    paths, and the songs join the songs of the artist in that order. *)
Theorem album_playlist_in_order (artist_name artist_path album_name : str)
    (song_files : list str) (acc : list str * (directory * bool)) :
  let found := map (join (join artist_path album_name)) (filter is_song song_files) in
  let name := artist_name ++ lit " - " ++ album_name in
  let after := album_scan artist_name artist_path acc (album_name, Some song_files) in
  snd (snd acc) = true ->
  filter is_song song_files <> [] ->
  snd (snd after) = true ->
  forallb scalar name = true ->
  forallb (fun p => forallb scalar (abspath p)) found = true ->
  exists safe_name album_songs es,
    music_safe_name name = Some safe_name
    /\ Permutation album_songs found
    /\ StronglySorted str_le album_songs
    /\ Forall2 (fun p e => playlist_entry (abspath p) = Some e) album_songs es
    /\ read (safe_name ++ m3u) (fst (snd after))
       = Some (lit "# # Album: " ++ name ++ nl ++ flat_map (fun e => e ++ nl) es)
    /\ fst after = fst acc ++ album_songs.
Proof.
  intros found name after Hrun Hne Hok Hn Hs.
  assert (Hf : found <> []).
  { unfold found. destruct (filter is_song song_files); [contradiction | discriminate]. }
  destruct (music_safe_name_scalar name Hn) as [safe_name Esafe].
  assert (Hss : forallb (fun p => forallb scalar (abspath p)) (sort found) = true).
  { apply forallb_forall. intros p Hp.
    apply (Permutation_in _ (sort_perm found)) in Hp.
    rewrite forallb_forall in Hs. now apply Hs. }
  destruct (song_lines_encoded _ Hss) as [es [Es F]].
  exists safe_name, (sort found), es.
  split; [exact Esafe|]. split; [apply sort_perm|]. split; [apply sort_sorted|].
  split; [exact F|].
  revert Hok. unfold after, album_scan. fold found. fold name.
  rewrite Hrun. cbn [negb].
  destruct found as [|song_path rest] eqn:Ef; [contradiction|].
  set (w := fold_left _ _ (snd acc)).
  destruct (snd w) eqn:Ew; cbn [negb snd fst]; [|intros H; rewrite Ew in H; discriminate].
  unfold write_playlist. rewrite Esafe, (encodable_scalar name Hn). cbn [snd negb fst].
  intros _. split; [|reflexivity].
  rewrite read_store_same, Es. reflexivity.
Qed.

(** ** The playlist converter *)

Lemma replace_from_skip old new a : forall s,
  replace_from old new (List.length a) (a ++ s) = replace_from old new 0 s.
Proof.
  induction a as [|c a IH]; intros s; [reflexivity|].
  cbn [List.length app replace_from]. apply IH.
Qed.

Lemma replace_str_head old new s :
  old <> [] -> replace_str old new (old ++ s) = new ++ replace_str old new s.
Proof.
  intros Hne. unfold replace_str. destruct old as [|c o]; [contradiction|].
  cbn [app replace_from].
  change (startswith (c :: o ++ s) (c :: o)) with (startswith ((c :: o) ++ s) (c :: o)).
  rewrite startswith_app.
  change (List.length (c :: o) - 1)%nat with (List.length o - 0)%nat.
  rewrite Nat.sub_0_r. now rewrite replace_from_skip.
Qed.

Lemma replace_str_none old new s :
  occurs old s = false -> replace_str old new s = s.
Proof.
  unfold replace_str. induction s as [|c s IH]; intros H; [reflexivity|].
  cbn [occurs] in H. apply orb_false_iff in H. destruct H as [H1 H2].
  cbn [replace_from]. rewrite H1. f_equal. now apply IH.
Qed.

Lemma strip_spaces_before ws s :
  forallb isspace ws = true -> strip (ws ++ s) = strip s.
Proof. intros H. unfold strip. now rewrite lstrip_spaces. Qed.

Lemma str_join_lines es :
  str_join nl es ++ (match es with [] => [] | _ :: _ => nl end)
  = flat_map (fun e => e ++ nl) es.
Proof.
  induction es as [|e es IH]; [reflexivity|].
  cbn [str_join flat_map]. destruct es as [|e' es'].
  - cbn [flat_map]. now rewrite app_nil_r.
  - rewrite <- IH. now rewrite <- !app_assoc.
Qed.

Lemma build_playlist_lines_flat names prefix :
  build_playlist_lines names prefix
  = flat_map (fun e => e ++ nl) (map (fun n => prefix ++ n) names).
Proof.
  unfold build_playlist_lines. rewrite <- str_join_lines.
  now destruct names.
Qed.

(** A name of [parse_m3u_paths] has no white space at either end. *)
Lemma parse_line_trimmed decode_percent raw_line filename :
  parse_line decode_percent raw_line = Some filename -> trimmed filename = true.
Proof.
  unfold parse_line. destruct (negb (nonempty (strip raw_line))); [discriminate|].
  destruct (startswith (strip raw_line) (lit "#")); [discriminate|].
  match goal with |- context [nonempty (strip ?x)] => set (name := x) end.
  destruct (nonempty (strip name)) eqn:E; [|discriminate].
  intros H. apply Some_eq in H. subst filename.
  destruct (strip_split name) as [_ [_ [_ [_ [_ [E0 | Ht]]]]]]; [|exact Ht].
  rewrite E0 in E. discriminate.
Qed.

Lemma parse_m3u_paths_trimmed text decode_percent n :
  In n (parse_m3u_paths text decode_percent) -> trimmed n = true.
Proof.
  unfold parse_m3u_paths. rewrite in_flat_map. intros [raw [_ H]].
  destruct (parse_line decode_percent raw) as [filename|] eqn:E; [|destruct H].
  destruct H as [<- | []]. eapply parse_line_trimmed; eassumption.
Qed.

(** The reader of converted files gets a name back from its line. *)
Lemma read_name_back n :
  trimmed n = true -> occurs (lit "# Playlist:") n = false ->
  strip (replace_str (lit "# Playlist:") [] (strip ((lit "# Playlist: " ++ n) ++ nl)))
  = n.
Proof.
  intros Ht Ho.
  assert (Hp : trimmed (lit "# Playlist: " ++ n) = true).
  { unfold trimmed in *. apply andb_true_iff in Ht. destruct Ht as [_ Hl].
    apply andb_true_iff. split; [reflexivity|].
    rewrite rev_app_distr. now apply nonspace_head_app. }
  rewrite strip_trimmed_nl by exact Hp.
  change (lit "# Playlist: " ++ n) with (lit "# Playlist:" ++ [32] ++ n).
  rewrite replace_str_head by discriminate.
  rewrite replace_str_none.
  - cbn [app]. change (32 :: n) with ([32] ++ n).
    rewrite strip_spaces_before by reflexivity. now apply strip_trimmed_id.
  - cbn [app occurs]. rewrite Ho. destruct n; reflexivity.
Qed.

Lemma newlines_app a b : newlines (a ++ b) = newlines a ++ newlines b.
Proof. unfold newlines. apply flat_map_app. Qed.

Lemma newlines_no_break e : no_break e = true -> newlines e = e.
Proof.
  induction e as [|c e IH]; intros H; [reflexivity|].
  unfold no_break in H. cbn [forallb] in H. apply andb_true_iff in H.
  destruct H as [Hc He]. apply andb_true_iff in Hc. destruct Hc as [H10 _].
  apply negb_true_iff in H10. unfold newlines in *. cbn [flat_map].
  rewrite H10. cbn [app]. f_equal. now apply IH.
Qed.

(** The text that reaches the file, line by line. *)
Lemma newlines_lines es :
  forallb no_break es = true ->
  newlines (flat_map (fun e => e ++ nl) es) = flat_map (fun e => e ++ linesep) es.
Proof.
  induction es as [|e es IH]; intros H; [reflexivity|].
  cbn [forallb] in H. apply andb_true_iff in H. destruct H as [He Hes].
  assert (Hnl : newlines nl = linesep).
  { unfold newlines, nl. cbn [flat_map]. change (10 =? 10) with true.
    apply app_nil_r. }
  cbn [flat_map]. rewrite !newlines_app, (newlines_no_break e He), (IH Hes), Hnl.
  reflexivity.
Qed.

Lemma lines_from_crlf_line e : forall cur rest,
  no_break e = true ->
  lines_from cur (e ++ [13; 10] ++ rest) = (rev cur ++ e ++ nl) :: lines_from [] rest.
Proof.
  induction e as [|c e IH]; intros cur rest H.
  - cbn [app]. rewrite lines_from_crlf. cbn [rev]. reflexivity.
  - unfold no_break in H. cbn [forallb] in H. apply andb_true_iff in H.
    destruct H as [Hc He]. apply andb_true_iff in Hc. destruct Hc as [H10 H13].
    apply negb_true_iff in H10, H13. apply N.eqb_neq in H10, H13.
    rewrite <- app_comm_cons, lines_from_other by assumption.
    rewrite IH by exact He. cbn [rev]. now rewrite <- app_assoc.
Qed.

(** Reading in text mode gives the lines back, whichever of the two line
    ends was written. *)
Lemma lines_of_written es :
  linesep = nl \/ linesep = [13; 10] ->
  forallb no_break es = true ->
  lines (flat_map (fun e => e ++ linesep) es) = map (fun e => e ++ nl) es.
Proof.
  intros [-> | ->] H.
  - destruct (lines_concat [] es eq_refl H) as [E _]. exact E.
  - unfold lines. induction es as [|e es IH]; [reflexivity|].
    cbn [forallb] in H. apply andb_true_iff in H. destruct H as [He Hes].
    cbn [flat_map map]. rewrite <- app_assoc.
    rewrite (lines_from_crlf_line e [] _ He). cbn [rev app]. f_equal.
    now apply IH.
Qed.

Lemma read_names_back names :
  forallb trimmed names = true ->
  forallb (fun n => negb (occurs (lit "# Playlist:") n)) names = true ->
  map (fun line => strip (replace_str (lit "# Playlist:") [] (strip line)))
      (filter (fun line => startswith line (lit "# Playlist:"))
              (map (fun e => e ++ nl) (map (fun n => lit "# Playlist: " ++ n) names)))
  = names.
Proof.
  induction names as [|n names IH]; intros Ht Ho; [reflexivity|].
  cbn [forallb] in Ho, Ht. apply andb_true_iff in Ho, Ht.
  destruct Ho as [Hon Ho], Ht as [Htn Ht].
  apply negb_true_iff in Hon.
  cbn [map filter].
  change (startswith ((lit "# Playlist: " ++ n) ++ nl) (lit "# Playlist:"))
    with (startswith (lit "# Playlist:" ++ ([32] ++ n ++ nl)) (lit "# Playlist:")).
  rewrite startswith_app. cbn [map]. rewrite read_name_back by assumption.
  f_equal. now apply IH.
Qed.

(** X18.  The converter and the reader of its files agree.  The names
    that [parse_m3u_paths] finds have no white space at either end.  When
    they can be encoded, [write_text] writes the block that
    [build_playlist_lines] makes of them, one [# Playlist:] line each,
    as UTF-8 with the line ends of the platform.  When the encoding of
    the locale, with which [read_m3u_file] opens the file, reads that
    text back from the bytes written, [read_m3u_file] returns the same
    names, in order, provided no name holds a line break or the text
    [# Playlist:], which the reader removes wherever it stands. *)
Theorem converter_round_trip (text : str) (decode_percent : bool)
    (names : list str) (block : str) :
  convert_file_uris_m3u_to_playlist_lines text decode_percent = (names, block) ->
  forallb no_break names = true ->
  forallb (fun n => negb (occurs (lit "# Playlist:") n)) names = true ->
  forallb (forallb scalar) names = true ->
  linesep = nl \/ linesep = [13; 10] ->
  (forall data, write_text block = Some data ->
                locale_decode data = Some (newlines block)) ->
  exists data,
    write_text block = Some data
    /\ read_m3u_file data = Some names
    /\ forallb trimmed names = true
    /\ List.length (lines (newlines block)) = List.length names.
Proof.
  unfold convert_file_uris_m3u_to_playlist_lines. intros H Hb Ho Hs Hsep Hloc.
  apply (f_equal fst) in H as Hn. apply (f_equal snd) in H. cbn [fst snd] in H, Hn.
  assert (Ht : forallb trimmed names = true).
  { apply forallb_forall. intros n Hin. rewrite <- Hn in Hin.
    eapply parse_m3u_paths_trimmed; eassumption. }
  rewrite Hn in H. subst block. clear Hn text decode_percent.
  rewrite build_playlist_lines_flat in *.
  set (es := map (fun n => lit "# Playlist: " ++ n) names) in *.
  assert (Hes : forallb no_break es = true).
  { apply forallb_forall. intros e He. apply in_map_iff in He.
    destruct He as [n [<- Hin]]. rewrite no_break_app.
    rewrite forallb_forall in Hb. now rewrite (Hb n Hin). }
  assert (Hsc : forallb scalar (flat_map (fun e => e ++ linesep) es) = true).
  { apply forallb_forall. intros c Hc. apply in_flat_map in Hc.
    destruct Hc as [e [He Hc]]. apply in_app_or in Hc. destruct Hc as [Hc | Hc].
    - apply in_map_iff in He. destruct He as [n [<- Hin]].
      apply in_app_or in Hc. destruct Hc as [Hc | Hc].
      + assert (A : forallb scalar (lit "# Playlist: ") = true) by reflexivity.
        rewrite forallb_forall in A. now apply A.
      + rewrite forallb_forall in Hs. specialize (Hs n Hin).
        rewrite forallb_forall in Hs. now apply Hs.
    - destruct Hsep as [E | E]; rewrite E in Hc.
      + destruct Hc as [<- | []]. reflexivity.
      + destruct Hc as [<- | [<- | []]]; reflexivity. }
  rewrite (newlines_lines es Hes) in *.
  pose proof (encodable_scalar _ Hsc) as Henc. unfold encodable in Henc.
  unfold write_text in *. rewrite (newlines_lines es Hes) in *.
  destruct (Urllib.utf8_encode (flat_map (fun e => e ++ linesep) es)) as [data|] eqn:E;
    [|discriminate].
  exists data. split; [reflexivity|].
  pose proof (lines_of_written es Hsep Hes) as El.
  split; [|split; [exact Ht|]].
  - unfold read_m3u_file. rewrite (Hloc data eq_refl), El.
    unfold es. now rewrite read_names_back.
  - rewrite El. unfold es. now rewrite !length_map.
Qed.

(** ** Replaying the history of the music player *)

Lemma logged_append f q :
  complete_file f = true -> forallb plain q = true ->
  logged (append_text f ((scheme ++ q) ++ nl)) = logged f ++ [scheme ++ q].
Proof.
  intros Hf Hq.
  assert (Hline : forall content, complete content = true ->
            history_entries (content ++ (scheme ++ q) ++ nl)
            = history_entries content ++ [scheme ++ q]).
  { intros content Hc. unfold history_entries.
    rewrite lines_append by (trivial; now apply entry_no_break).
    rewrite filter_app, map_app. cbn [filter].
    rewrite strip_trimmed_nl by now apply entry_trimmed.
    change (nonempty (scheme ++ q)) with true.
    change (startswith ((scheme ++ q) ++ nl) (lit "#")) with false.
    cbn [negb andb map]. now rewrite strip_trimmed_nl by now apply entry_trimmed. }
  destruct f as [content|]; cbn [append_text logged].
  - now apply Hline.
  - apply (Hline [] eq_refl).
Qed.

Lemma log_history_kept p f e :
  kept f -> encoded_entry p = Some e ->
  exists f', log_history p f = Some f' /\ kept f'
    /\ In (normalize e) (existing_entries f')
    /\ (forall k, In k (existing_entries f') ->
          In k (existing_entries f) \/ k = normalize e)
    /\ (forall x, In x (logged f') -> In x (logged f) \/ x = e)
    /\ (forall x, In x (logged f) -> In x (logged f')).
Proof.
  intros [Hc [Hk Hnd]] He. unfold log_history. rewrite He.
  destruct (encoded_entry_shape _ _ He) as [q [-> Hq]].
  destruct (mem (normalize (scheme ++ q)) (existing_entries f)) eqn:M.
  - exists f. split; [reflexivity|]. split; [now repeat split|].
    split; [now apply mem_In|]. split; [now left|]. split; [now left | trivial].
  - exists (append_text f ((scheme ++ q) ++ nl)). split; [reflexivity|].
    assert (Ha : existing_entries (append_text f ((scheme ++ q) ++ nl))
                 = existing_entries f ++ [normalize (scheme ++ q)])
      by now apply existing_entries_append.
    assert (Hl : logged (append_text f ((scheme ++ q) ++ nl))
                 = logged f ++ [scheme ++ q]) by now apply logged_append.
    split; [split; [|split]|].
    + destruct f as [content|]; cbn [append_text complete_file].
      * apply complete_append.
      * apply (complete_append []).
    + rewrite Ha, Hl, map_app, Hk. reflexivity.
    + rewrite Ha. apply NoDup_app; [exact Hnd | |].
      * apply NoDup_cons; [intros [] | apply NoDup_nil].
      * intros x Hx [<- | []]. apply mem_In in Hx. congruence.
    + rewrite Ha, Hl. split; [apply in_or_app; right; now left|].
      split; [|split].
      * intros k Hin. apply in_app_or in Hin.
        destruct Hin as [Hin | [<- | []]]; [now left | now right].
      * intros x Hin. apply in_app_or in Hin.
        destruct Hin as [Hin | [<- | []]]; [now left | now right].
      * intros x Hin. apply in_or_app. now left.
Qed.

Lemma log_all_kept ps : forall f,
  kept f -> forallb (fun p => forallb scalar (abspath p)) ps = true ->
  exists f', log_all ps f = Some f' /\ kept f'
    /\ (forall p e, In p ps -> encoded_entry p = Some e ->
          In (normalize e) (existing_entries f'))
    /\ (forall x, In x (logged f') ->
          In x (logged f) \/ exists p, In p ps /\ encoded_entry p = Some x)
    /\ (forall x, In x (logged f) -> In x (logged f')).
Proof.
  unfold log_all. induction ps as [|p ps IH]; intros f Hf Hs; cbn [fold_left].
  - exists f. split; [reflexivity|]. split; [exact Hf|].
    split; [intros p e []|]. split; [now left | trivial].
  - cbn [forallb] in Hs. apply andb_true_iff in Hs. destruct Hs as [Hp Hs].
    destruct (encoded_entry_scalar p Hp) as [e He].
    destruct (log_history_kept p f e Hf He) as [f1 [E1 [K1 [Hin1 [_ [Hl1 Hold1]]]]]].
    rewrite E1. destruct (IH f1 K1 Hs) as [f' [E' [K' [Hkeys [Hl' Hold']]]]].
    exists f'. split; [exact E'|]. split; [exact K'|]. split; [|split].
    + intros p0 e0 [<- | Hin] He0.
      * rewrite He in He0. apply Some_eq in He0. subst e0.
        destruct K1 as [_ [Hk1 _]], K' as [_ [Hk' _]].
        rewrite Hk1 in Hin1. apply in_map_iff in Hin1.
        destruct Hin1 as [x [Hx Hin1]].
        rewrite Hk', <- Hx. apply in_map. now apply Hold'.
      * now apply (Hkeys p0 e0).
    + intros x Hx. destruct (Hl' x Hx) as [H1 | [p0 [Hp0 He0]]].
      * destruct (Hl1 x H1) as [H | ->]; [now left|].
        right. exists p. split; [now left | exact He].
      * right. exists p0. split; [now right | exact He0].
    + intros x Hx. apply Hold', Hold1, Hx.
Qed.

(** X19.  The history of the music player can be replayed: after
    [log_history] logged the descriptors [ps] in turn, from no log at all
    and with paths that can be encoded, no call has raised, the log holds
    the key of every descriptor played and no key twice, and whatever
    number is drawn, [play_random_from_history] hands the player the
    entry of one of the descriptors played, as the [file:///] line the
    log holds, not decoded. *)
Theorem history_replay (ps : list str) (r : nat) :
  forallb (fun p => forallb scalar (abspath p)) ps = true ->
  ps <> [] ->
  exists f e p,
    log_all ps None = Some f
    /\ NoDup (existing_entries f)
    /\ (forall p0 e0, In p0 ps -> encoded_entry p0 = Some e0 ->
          In (normalize e0) (existing_entries f))
    /\ play_random_from_history f r = Playing e
    /\ In p ps /\ encoded_entry p = Some e.
Proof.
  intros Hs Hne.
  assert (K0 : kept None).
  { split; [reflexivity|]. split; [reflexivity | apply NoDup_nil]. }
  destruct (log_all_kept ps None K0 Hs) as [f [E [[Hc [Hk Hnd]] [Hkeys [Hl _]]]]].
  assert (Hlog : logged f <> []).
  { destruct ps as [|p ps']; [contradiction|].
    cbn [forallb] in Hs. apply andb_true_iff in Hs. destruct Hs as [Hp _].
    destruct (encoded_entry_scalar p Hp) as [e He].
    pose proof (Hkeys p e (or_introl eq_refl) He) as Hin.
    rewrite Hk in Hin. intros E0. rewrite E0 in Hin. destruct Hin. }
  destruct f as [content|]; cbn [logged] in Hlog, Hl; [|contradiction].
  destruct (history_entries content) as [|x xs] eqn:Ex; [contradiction|].
  destruct (Hl (random_choice r (x :: xs)) (random_choice_In r x xs))
    as [[] | [p [Hp He]]].
  exists (Some content), (random_choice r (x :: xs)), p.
  split; [exact E|]. split; [exact Hnd|]. split; [exact Hkeys|].
  split; [|now split].
  unfold play_random_from_history. now rewrite Ex.
Qed.

End Program.

(** * The properties at concrete inputs

    The platform of the examples: [/] as separator, absolute paths given
    as such, ASCII text. *)

(** C7 (amended) at a path with a space and non-ASCII characters. *)
Lemma path_codec_round_trip_witness :
  forallb scalar (lit "/home/a b/" ++ [233; 26144; 128512] ++ lit ".mkv") = true
  /\ exists e,
       playlist_entry (lit "/home/a b/" ++ [233; 26144; 128512] ++ lit ".mkv") = Some e
       /\ read_descriptor 47 None ascii_lower [e ++ nl]
          = (lit "/home/a b/" ++ [233; 26144; 128512] ++ lit ".mkv", lit "MKV").
Proof.
  split; [reflexivity|].
  destruct (path_codec_round_trip 47 None ascii_lower (fun p => p)
              (lit "/home/a b/" ++ [233; 26144; 128512] ++ lit ".mkv") eq_refl)
    as [e [He [_ [Hr _]]]].
  exists e. split; [exact He | exact Hr].
Defined.

(** C7 as stated fails: a file name that is not valid UTF-8 reaches the
    program with a lone surrogate in it (here the byte [E9] as [U+DCE9]),
    [quote] raises on the path, the path has no encoded form and
    [create_mkv_playlists] gives up without a descriptor. *)
Lemma surrogate_path_has_no_entry :
  playlist_entry (lit "/v/caf" ++ [56553] ++ lit ".mkv") = None
  /\ mkv_playlist 47 None (lit "/v/caf" ++ [56553] ++ lit ".mkv") = None
  /\ create_mkv_playlists 47 None (fun p => p) ascii_lower
       [(lit "/v", lit "caf" ++ [56553] ++ lit ".mkv")] []
     = (false, []).
Proof. repeat split. Qed.

(** The descriptor of a video named [Movie: Part 2?.mkv], on a platform
    whose separator is the slash. *)
Lemma movie_part_2 :
  mkv_playlist 47 None (lit "/v/Movie: Part 2?.mkv")
  = Some (lit "Movie Part 2.m3u",
          lit "# Movie: Movie: Part 2?" ++ nl
          ++ lit "file:////v/Movie%3A%20Part%202%3F.mkv" ++ nl).
Proof. reflexivity. Qed.

(** C1 as stated fails on a log whose last line is not finished: the
    first call completes that line with the new entry, the second call
    does not find the entry among the lines and appends it again.  So
    do [log_pdf_opened] and [log_history]. *)
Lemma append_after_unfinished_line :
  log_pdf_opened (lit "/docs/a.pdf") (Some (lit "/docs/b.pdf"))
  = Some (lit "/docs/b.pdf/docs/a.pdf" ++ nl)
  /\ log_pdf_opened (lit "/docs/a.pdf")
       (log_pdf_opened (lit "/docs/a.pdf") (Some (lit "/docs/b.pdf")))
     = Some (lit "/docs/b.pdf/docs/a.pdf" ++ nl ++ lit "/docs/a.pdf" ++ nl)
  /\ log_history 47 (fun p => p) ascii_lower (lit "/music/a.m3u")
       (Some (lit "file:////music/b.m3u"))
     = Some (Some (lit "file:////music/b.m3ufile:////music/a.m3u" ++ nl))
  /\ log_history 47 (fun p => p) ascii_lower (lit "/music/a.m3u")
       (Some (lit "file:////music/b.m3ufile:////music/a.m3u" ++ nl))
     = Some (Some (lit "file:////music/b.m3ufile:////music/a.m3u" ++ nl
                   ++ lit "file:////music/a.m3u" ++ nl)).
Proof. repeat split. Qed.

(** C1 (amended) at a log of one line and a path with a space. *)
Lemma history_append_idempotent_witness :
  complete_file (Some (lit "# opened" ++ nl)) = true
  /\ (forall f1,
        log_history 47 (fun p => p) ascii_lower (lit "/docs/a b.pdf")
                    (Some (lit "# opened" ++ nl)) = Some f1 ->
        log_history 47 (fun p => p) ascii_lower (lit "/docs/a b.pdf") f1 = Some f1)
  /\ (exists f1,
        log_history 47 (fun p => p) ascii_lower (lit "/docs/a b.pdf")
                    (Some (lit "# opened" ++ nl)) = Some f1)
  /\ log_pdf_opened (lit "/docs/a b.pdf")
       (log_pdf_opened (lit "/docs/a b.pdf") (Some (lit "# opened" ++ nl)))
     = log_pdf_opened (lit "/docs/a b.pdf") (Some (lit "# opened" ++ nl)).
Proof.
  split; [reflexivity|].
  destruct (history_append_idempotent 47 (fun p => p) ascii_lower
              (lit "/docs/a b.pdf") (Some (lit "# opened" ++ nl)) eq_refl)
    as [H1 [H2 H3]].
  split; [exact H1|]. split; [exact (H2 eq_refl) | exact (H3 eq_refl)].
Defined.

(** C2 fails on [scan_and_log_files]: a second scan of the same folder
    appends the same video again.  The lines of [history2.m3u] are
    [file:///] entries, the test [f not in existing_files] compares the
    plain path with them, so no scanned file is ever found in the log. *)
Theorem scan_and_log_files_duplicates :
  scan_and_log_files 47 (fun p => p) ascii_lower true
    [(lit "/v", lit "A.mkv")] [lit ".mkv"; lit ".mp4"; lit ".avi"]
    HISTORY_VIDEO None
  = (Some true, Some (lit "file:////v/A.mkv" ++ nl))
  /\ scan_and_log_files 47 (fun p => p) ascii_lower true
       [(lit "/v", lit "A.mkv")] [lit ".mkv"; lit ".mp4"; lit ".avi"]
       HISTORY_VIDEO (Some (lit "file:////v/A.mkv" ++ nl))
     = (Some true,
        Some (lit "file:////v/A.mkv" ++ nl ++ lit "file:////v/A.mkv" ++ nl)).
Proof. split; reflexivity. Qed.

(** C9 fails on [create_mkv_playlists]: it has no fallback for a name
    without any allowed character.  Two videos with such names are both
    written to the file [.m3u], named by the extension alone, and the
    second descriptor replaces the first. *)
Theorem create_mkv_playlists_extension_only :
  mkv_safe_name 47 None (lit "/v/" ++ [26144; 30011] ++ lit ".mkv") = []
  /\ create_mkv_playlists 47 None (fun p => p) ascii_lower
       [(lit "/v", [26144; 30011] ++ lit ".mkv");
        (lit "/v", [38899; 27005] ++ lit ".MKV")] []
     = (true,
        [(lit ".m3u",
          lit "# Movie: " ++ [38899; 27005] ++ nl
          ++ lit "file:////v/%E9%9F%B3%E6%A5%BD.MKV" ++ nl)]).
Proof. split; reflexivity. Qed.

(** Three launches in a row that all start their player. *)
Lemma session_exclusivity_witness :
  exists pa pb,
    VLC_PROCESS
      (launch_vlc {| target := lit "a.m3u"; popen_ok := true; connect_ok := true |}
         (launches [{| target := lit "x.m3u"; popen_ok := true; connect_ok := true |}] idle))
    = Some pa
    /\ running
         (launch_vlc {| target := lit "b.m3u"; popen_ok := true; connect_ok := false |}
            (launch_vlc {| target := lit "a.m3u"; popen_ok := true; connect_ok := true |}
               (launches [{| target := lit "x.m3u"; popen_ok := true; connect_ok := true |}] idle)))
       = [pb]
    /\ pa <> pb
    /\ In pa
         (killed
            (launch_vlc {| target := lit "b.m3u"; popen_ok := true; connect_ok := false |}
               (launch_vlc {| target := lit "a.m3u"; popen_ok := true; connect_ok := true |}
                  (launches [{| target := lit "x.m3u"; popen_ok := true; connect_ok := true |}] idle)))).
Proof.
  destruct (session_exclusivity
              [{| target := lit "x.m3u"; popen_ok := true; connect_ok := true |}]
              {| target := lit "a.m3u"; popen_ok := true; connect_ok := true |}
              {| target := lit "b.m3u"; popen_ok := true; connect_ok := false |})
    as [_ [_ [_ [_ [_ [_ H]]]]]].
  destruct (H eq_refl eq_refl) as [pa [pb [H1 [_ [_ [_ [_ [H2 [H3 H4]]]]]]]]].
  exists pa, pb. repeat split; assumption.
Defined.

(** C4 as stated fails: the document [report.pdf] scores 100, at least 60,
    but its file is gone, so nothing is opened and nothing is appended to
    the search history. *)
Lemma match_above_threshold_not_dispatched :
  extractOne exact_score (lit "report.pdf") (all_titles 47 None shelf)
  = Some (lit "report.pdf", 100%Z)
  /\ search_and_open 47 None exact_score (lit "report.pdf") true true true
       (desk (fun _ => false))
     = (MissingFile (lit "/docs/report.pdf"), desk (fun _ => false))
  /\ read SEARCH_HISTORY_FILE
       (folder (snd (search_and_open 47 None exact_score (lit "report.pdf")
                       true true true (desk (fun _ => false)))))
     = None.
Proof. repeat split. Qed.

(** C4 (amended) at the query [Inception]: the descriptor is played and
    the title is appended to the search history. *)
Lemma best_match_dispatch_witness :
  search_and_open 47 None exact_score (lit "Inception") true true true
    (desk (fun _ => true))
  = (OpeningPlaylist (lit "Inception"),
     {| folder := log_search_history (lit "Inception") shelf;
        on_disk := fun _ => true;
        session :=
          launch_vlc {| target := join 47 PLAYLIST_FOLDER (lit "Inception" ++ m3u);
                        popen_ok := true; connect_ok := true |} idle;
        opened := [] |})
  /\ read SEARCH_HISTORY_FILE (log_search_history (lit "Inception") shelf)
     = Some (lit "Inception" ++ nl).
Proof.
  destruct (best_match_dispatch 47 None exact_score (lit "Inception") true true
              true (desk (fun _ => true))) as [_ H].
  destruct (H (lit "Inception") 100%Z eq_refl) as [_ [_ [Hplay _]]].
  destruct Hplay as [E Hlog]; [discriminate | now left |].
  split; [exact E | exact (Hlog eq_refl)].
Defined.

(** C5 as stated fails: with an empty query the entry is shown, though no
    field of it reaches 70 against the empty term. *)
Lemma empty_query_shows_library :
  query_parts ascii_lower (lit "") = [[]]
  /\ qualifies ascii_lower exact_score [[]] abbey_road = false
  /\ filter_library ascii_lower exact_score (lit "") [abbey_road] = [abbey_road]
  /\ filter_library ascii_lower exact_score (lit "   ") [abbey_road] = [abbey_road].
Proof. repeat split. Qed.

(** C5 (amended) at the query [abbey road, the beatles]. *)
Lemma live_filter_rules_witness :
  filter_library ascii_lower exact_score (lit "Abbey Road, The Beatles") [abbey_road]
  = filter (qualifies ascii_lower exact_score
              (query_parts ascii_lower (lit "Abbey Road, The Beatles")))
           [abbey_road]
  /\ filter_library ascii_lower exact_score (lit "Abbey Road, The Beatles") [abbey_road]
     = [abbey_road].
Proof.
  destruct (live_filter_rules ascii_lower exact_score
              (lit "Abbey Road, The Beatles") [abbey_road]) as [H _].
  destruct (H eq_refl) as [E _]. split; [exact E | reflexivity].
Defined.

(** C6 as stated fails: the candidates hold the document's base name with
    its extension, [report.pdf] and not [report], and they hold [history],
    the name of a history log. *)
Lemma candidate_titles_of_shelf :
  all_titles 47 None shelf = [lit "Inception"; lit "history"; lit "report.pdf"]
  /\ In (lit "report.pdf") (all_titles 47 None shelf)
  /\ mem (lit "report") (all_titles 47 None shelf) = false
  /\ In (lit "history") (all_titles 47 None shelf).
Proof.
  split; [reflexivity|]. split; [right; right; now left|].
  split; [reflexivity|]. right. now left.
Qed.

(** C6 (amended) on the same folder. *)
Lemma best_match_title_universe_witness :
  In (lit "Inception") (all_titles 47 None shelf)
  /\ In (lit "report.pdf") (all_titles 47 None shelf).
Proof.
  destruct (best_match_title_universe 47 None shelf) as [_ [Hm Hd]]. split.
  - apply (Hm (lit "Inception.m3u")); [now left | reflexivity | discriminate | discriminate].
  - apply (Hd (lit "/docs/report.pdf" ++ nl) (lit "/docs/report.pdf"));
      [reflexivity | now left].
Defined.

(** C10 at a query of four parts. *)
Lemma four_parts_show_nothing_witness :
  (4 <= List.length (query_parts ascii_lower (lit "Track1, Abbey Road, The Beatles, 1969")))%nat
  /\ filter_library ascii_lower exact_score
       (lit "Track1, Abbey Road, The Beatles, 1969") [abbey_road] = [].
Proof.
  assert (H : (4 <= List.length
                 (query_parts ascii_lower
                    (lit "Track1, Abbey Road, The Beatles, 1969")))%nat)
    by (vm_compute; lia).
  split; [exact H|].
  exact (four_parts_show_nothing ascii_lower exact_score
           (lit "Track1, Abbey Road, The Beatles, 1969") [abbey_road] H).
Defined.

(** X3 at a video in a folder with a space in its name. *)
Lemma descriptor_round_trip_witness :
  read_descriptor 47 None ascii_lower
    (lines (lit "# Movie: Part 2" ++ nl ++ lit "file:////v/my%20films/Part%202.mkv" ++ nl))
  = (lit "/v/my films/Part 2.mkv", lit "MKV")
  /\ path (descriptor_item 47 None ascii_lower (fun p => p)
             (store (lit "Part 2.m3u")
                (lit "# Movie: Part 2" ++ nl
                 ++ lit "file:////v/my%20films/Part%202.mkv" ++ nl) shelf)
             (lit "Part 2.m3u"))
     = lit "/v/my films/Part 2.mkv".
Proof.
  destruct (descriptor_round_trip 47 None ascii_lower (fun p => p)
              (lit "/v/my films/Part 2.mkv") (lit "Part 2.m3u")
              (lit "# Movie: Part 2" ++ nl
               ++ lit "file:////v/my%20films/Part%202.mkv" ++ nl) shelf)
    as [H1 [H2 _]]; [vm_compute; reflexivity | vm_compute; reflexivity |].
  split; [exact H1 | exact H2].
Defined.

(** X1 on a platform whose separator is the backslash:
    [c:/a/b.mp3] after [C:\a\B.mp3] is not appended. *)
Lemma log_history_same_key_witness :
  log_history 92 (replace 47 92) ascii_lower (lit "C:\a\B.mp3") None
  = Some (Some (lit "file:///C%3A/a/B.mp3" ++ nl))
  /\ log_history 92 (replace 47 92) ascii_lower (lit "c:/a/b.mp3")
       (Some (lit "file:///C%3A/a/B.mp3" ++ nl))
     = Some (Some (lit "file:///C%3A/a/B.mp3" ++ nl)).
Proof.
  split; [reflexivity|].
  apply (log_history_same_key 92 (replace 47 92) ascii_lower
           (lit "C:\a\B.mp3") (lit "c:/a/b.mp3")
           (lit "file:///C%3A/a/B.mp3") (lit "file:///c%3A/a/b.mp3")
           None (Some (lit "file:///C%3A/a/B.mp3" ++ nl)));
    vm_compute; reflexivity.
Defined.

(** ** More of the program at concrete inputs *)

(** A playlist folder with the descriptor of a song and of a video and a
    document log, and a music folder of one artist with one album. *)
Definition music_shelf : directory :=
  [(lit "Track1.m3u",
    lit "# # Song: Track1" ++ nl
    ++ lit "file:////music/The%20Beatles/Abbey%20Road/Track1.aif" ++ nl
    ++ lit "file:////music/The%20Beatles/Abbey%20Road/Track2.aif" ++ nl);
   (lit "Inception.m3u", lit "# Movie: Inception" ++ nl
                         ++ lit "file:////v/Inception.mkv" ++ nl);
   (lit "pdf_history.txt", lit "/docs/report.pdf" ++ nl)].

Definition beatles : list (str * option (list (str * option (list str)))) :=
  [(lit "The Beatles",
    Some [(lit "Abbey Road",
           Some [lit "Track2.AIF"; lit "cover.jpg"; lit "Track1.aif"])]);
   (lit "notes.txt", None)].

(** X5 at a document opened twice, with another one in between. *)
Lemma opened_log_no_duplicates_witness :
  opened_log [lit "/docs/a.pdf"; lit "/docs/b.pdf"; lit "/docs/a.pdf"]
  = Some (lit "/docs/a.pdf" ++ nl ++ lit "/docs/b.pdf" ++ nl)
  /\ NoDup (entries (opened_log [lit "/docs/a.pdf"; lit "/docs/b.pdf";
                                 lit "/docs/a.pdf"])).
Proof.
  split; [reflexivity|].
  assert (H : forallb one_line [lit "/docs/a.pdf"; lit "/docs/b.pdf";
                                lit "/docs/a.pdf"] = true)
    by (vm_compute; reflexivity).
  assert (H' : forallb (forallb scalar) [lit "/docs/a.pdf"; lit "/docs/b.pdf";
                                         lit "/docs/a.pdf"] = true)
    by (vm_compute; reflexivity).
  destruct (opened_log_no_duplicates _ H H') as [_ [Hnd _]]. exact Hnd.
Defined.

(** X6 at the document log: the second scan of a folder with one
    document finds nothing new. *)
Lemma rescan_of_plain_log_witness :
  scan_and_log_files 47 (fun p => p) ascii_lower true
    [(lit "/docs", lit "report.pdf")] [lit ".pdf"] PDF_HISTORY_FILE None
  = (Some true, Some (lit "/docs/report.pdf" ++ nl))
  /\ scan_and_log_files 47 (fun p => p) ascii_lower true
       [(lit "/docs", lit "report.pdf")] [lit ".pdf"] PDF_HISTORY_FILE
       (snd (scan_and_log_files 47 (fun p => p) ascii_lower true
               [(lit "/docs", lit "report.pdf")] [lit ".pdf"]
               PDF_HISTORY_FILE None))
     = (Some false,
        snd (scan_and_log_files 47 (fun p => p) ascii_lower true
               [(lit "/docs", lit "report.pdf")] [lit ".pdf"]
               PDF_HISTORY_FILE None)).
Proof.
  split; [reflexivity|].
  assert (H1 : endswith PDF_HISTORY_FILE m3u = false) by reflexivity.
  assert (H2 : complete_file None = true) by reflexivity.
  assert (H3 : forallb one_line
                 (scanned_files 47 (fun p => p) ascii_lower
                    [(lit "/docs", lit "report.pdf")] [lit ".pdf"]) = true)
    by (vm_compute; reflexivity).
  assert (H4 : forallb (forallb scalar)
                 (scanned_files 47 (fun p => p) ascii_lower
                    [(lit "/docs", lit "report.pdf")] [lit ".pdf"]) = true)
    by (vm_compute; reflexivity).
  destruct (rescan_of_plain_log 47 (fun p => p) ascii_lower
              [(lit "/docs", lit "report.pdf")] [lit ".pdf"]
              PDF_HISTORY_FILE None H1 H2 H3 H4) as [r [_ [_ H]]].
  exact H.
Defined.

(** X8 at the query [report.pdf], the document being on disk. *)
Lemma searched_document_logged_once_witness :
  exists pdf_path,
    opened (snd (search_and_open 47 None exact_score (lit "report.pdf") true true
                   true (desk (fun _ => true))))
    = [] ++ [pdf_path]
    /\ basename 47 None pdf_path = lit "report.pdf"
    /\ In pdf_path
          (entries (read PDF_OPENED_HISTORY_FILE
                      (folder (snd (search_and_open 47 None exact_score
                                      (lit "report.pdf") true true true
                                      (desk (fun _ => true))))))).
Proof.
  assert (H1 : search_and_open 47 None exact_score (lit "report.pdf") true true
                 true (desk (fun _ => true))
               = (OpeningPDF (lit "report.pdf"),
                  snd (search_and_open 47 None exact_score (lit "report.pdf")
                         true true true (desk (fun _ => true)))))
    by (vm_compute; reflexivity).
  assert (H2 : complete_file
                 (read PDF_OPENED_HISTORY_FILE (folder (desk (fun _ => true))))
               = true) by reflexivity.
  destruct (searched_document_logged_once 47 None exact_score
              (lit "report.pdf") (lit "report.pdf") true true true
              (desk (fun _ => true)) _ H1 H2)
    as [pdf_path [Ho [_ [_ [Hb [Hl _]]]]]].
  exists pdf_path. split; [exact Ho|]. split; [exact Hb | exact Hl].
Defined.

(** X10 at a folder with one video. *)
Lemma random_video_is_a_scanned_file_witness :
  exists es t,
    Forall2 (fun p e => playlist_entry p = Some e)
            (scanned_files 47 (fun p => p) ascii_lower
               [(lit "/v/my films", lit "Part 2.mkv")]
               [lit ".mkv"; lit ".mp4"; lit ".avi"]) es
    /\ scan_and_log_files 47 (fun p => p) ascii_lower true
         [(lit "/v/my films", lit "Part 2.mkv")] [lit ".mkv"; lit ".mp4"; lit ".avi"]
         HISTORY_VIDEO None
       = (Some true, Some (flat_map (fun e => e ++ nl) es))
    /\ history_entries (flat_map (fun e => e ++ nl) es) = es
    /\ In t (scanned_files 47 (fun p => p) ascii_lower
               [(lit "/v/my films", lit "Part 2.mkv")]
               [lit ".mkv"; lit ".mp4"; lit ".avi"])
    /\ play_random_media (Some (flat_map (fun e => e ++ nl) es)) 7 true true idle
       = (Playing t,
          launch_vlc {| target := t; popen_ok := true; connect_ok := true |} idle).
Proof.
  apply (random_video_is_a_scanned_file 47 (fun p => p) ascii_lower
           [(lit "/v/my films", lit "Part 2.mkv")]
           [lit ".mkv"; lit ".mp4"; lit ".avi"] 7 true true idle).
  - vm_compute. reflexivity.
  - intros E. vm_compute in E. discriminate E.
Defined.

(** X11 at a log of two documents, one of them gone. *)
Lemma random_document_was_opened_witness :
  exists p,
    In p [lit "/docs/a.pdf"; lit "/docs/b.pdf"]
    /\ play_random_pdf_opened (opened_log [lit "/docs/a.pdf"; lit "/docs/b.pdf"]) 5
         (str_eqb (lit "/docs/a.pdf")) true
       = if negb (str_eqb (lit "/docs/a.pdf") p) then Missing p
         else if true then Opening p else NotOpened p.
Proof.
  apply (random_document_was_opened [lit "/docs/a.pdf"; lit "/docs/b.pdf"] 5
           (str_eqb (lit "/docs/a.pdf")) true).
  - vm_compute. reflexivity.
  - vm_compute. reflexivity.
  - discriminate.
Defined.

(** X12 at the query [abbey road, the beatles]: of the three entries of
    the index, the song is shown. *)
Lemma comma_queries_show_music_witness :
  filter_library ascii_lower exact_score (lit "Abbey Road, The Beatles")
    (refresh_library 47 None ascii_lower (fun p => p) music_shelf (fun _ => true))
  = [descriptor_item 47 None ascii_lower (fun p => p) music_shelf (lit "Track1.m3u")]
  /\ type (descriptor_item 47 None ascii_lower (fun p => p) music_shelf
             (lit "Track1.m3u")) = lit "Music"
  /\ path (descriptor_item 47 None ascii_lower (fun p => p) music_shelf
             (lit "Track1.m3u")) <> [].
Proof.
  assert (E : filter_library ascii_lower exact_score (lit "Abbey Road, The Beatles")
                (refresh_library 47 None ascii_lower (fun p => p) music_shelf
                   (fun _ => true))
              = [descriptor_item 47 None ascii_lower (fun p => p) music_shelf
                   (lit "Track1.m3u")])
    by (vm_compute; reflexivity).
  split; [exact E|].
  assert (H1 : (2 <= List.length
                  (query_parts ascii_lower (lit "Abbey Road, The Beatles")))%nat)
    by (vm_compute; lia).
  assert (H2 : In (descriptor_item 47 None ascii_lower (fun p => p) music_shelf
                     (lit "Track1.m3u"))
                  (filter_library ascii_lower exact_score
                     (lit "Abbey Road, The Beatles")
                     (refresh_library 47 None ascii_lower (fun p => p) music_shelf
                        (fun _ => true))))
    by (rewrite E; now left).
  destruct (comma_queries_show_music 47 None ascii_lower exact_score (fun p => p)
              music_shelf (fun _ => true) (lit "Abbey Road, The Beatles") _ H1 H2)
    as [Ht [Hp _]].
  split; [exact Ht | exact Hp].
Defined.

(** X14 at the document log, over a scan of videos and a scan of music. *)
Lemma scans_write_descriptors_only_witness :
  read PDF_HISTORY_FILE
    (snd (create_mkv_playlists 47 None (fun p => p) ascii_lower
            [(lit "/v", lit "A.mkv")] music_shelf))
  = read PDF_HISTORY_FILE music_shelf
  /\ read PDF_HISTORY_FILE
       (snd (create_music_playlists 47 None (fun p => p) ascii_lower
               (fun _ => lit "d41d8cd98f00b204e9800998ecf8427e")
               (lit "/music") (Some beatles) music_shelf))
     = read PDF_HISTORY_FILE music_shelf.
Proof.
  assert (H : endswith PDF_HISTORY_FILE m3u = false) by reflexivity.
  destruct (scans_write_descriptors_only 47 None (fun p => p) ascii_lower
              (fun _ => lit "d41d8cd98f00b204e9800998ecf8427e")
              PDF_HISTORY_FILE music_shelf H) as [Hv Hm].
  split.
  - exact (proj1 (Hv [(lit "/v", lit "A.mkv")])).
  - exact (proj1 (Hm (lit "/music") (Some beatles))).
Defined.

(** X16 at the second song of an album of two. *)
Lemma song_descriptor_starts_with_song_witness :
  write_song_playlist 47 None (fun p => p)
    (fun _ => lit "d41d8cd98f00b204e9800998ecf8427e")
    [lit "/music/The Beatles/Abbey Road/Track1.aif";
     lit "/music/The Beatles/Abbey Road/Track2.aif"] ([], true) 1
  = ([(lit "Track2.m3u",
       lit "# # Song: Track2" ++ nl
       ++ lit "file:////music/The%20Beatles/Abbey%20Road/Track2.aif" ++ nl
       ++ lit "file:////music/The%20Beatles/Abbey%20Road/Track1.aif" ++ nl)],
     true)
  /\ exists safe_name,
       music_safe_name (fun _ => lit "d41d8cd98f00b204e9800998ecf8427e")
         (fst (splitext 47 None
                 (basename 47 None (lit "/music/The Beatles/Abbey Road/Track2.aif"))))
       = Some safe_name
       /\ path (descriptor_item 47 None ascii_lower (fun p => p)
                  (fst (write_song_playlist 47 None (fun p => p)
                          (fun _ => lit "d41d8cd98f00b204e9800998ecf8427e")
                          [lit "/music/The Beatles/Abbey Road/Track1.aif";
                           lit "/music/The Beatles/Abbey Road/Track2.aif"]
                          ([], true) 1))
                  (safe_name ++ m3u))
          = lit "/music/The Beatles/Abbey Road/Track2.aif"
       /\ type (descriptor_item 47 None ascii_lower (fun p => p)
                  (fst (write_song_playlist 47 None (fun p => p)
                          (fun _ => lit "d41d8cd98f00b204e9800998ecf8427e")
                          [lit "/music/The Beatles/Abbey Road/Track1.aif";
                           lit "/music/The Beatles/Abbey Road/Track2.aif"]
                          ([], true) 1))
                  (safe_name ++ m3u))
          = lit "Music".
Proof.
  split; [vm_compute; reflexivity|].
  assert (H1 : (1 < List.length [lit "/music/The Beatles/Abbey Road/Track1.aif";
                                 lit "/music/The Beatles/Abbey Road/Track2.aif"])%nat)
    by (cbn; lia).
  destruct (song_descriptor_starts_with_song 47 None (fun p => p) ascii_lower
              (fun _ => lit "d41d8cd98f00b204e9800998ecf8427e") (fun p => p)
              [lit "/music/The Beatles/Abbey Road/Track1.aif";
               lit "/music/The Beatles/Abbey Road/Track2.aif"] 1 [] H1)
    as [safe_name [es [rest [Hn [_ [_ [_ [_ [_ [Hp Ht]]]]]]]]]];
    [vm_compute; reflexivity | vm_compute; reflexivity | vm_compute; reflexivity |].
  exists safe_name. split; [exact Hn|]. split; [exact Hp | exact Ht].
Defined.

(** X17 at an album of two songs and a picture. *)
Lemma album_playlist_in_order_witness :
  exists safe_name album_songs es,
    music_safe_name (fun _ => lit "d41d8cd98f00b204e9800998ecf8427e")
      (lit "The Beatles" ++ lit " - " ++ lit "Abbey Road") = Some safe_name
    /\ Permutation album_songs
         [lit "/music/The Beatles/Abbey Road/Track2.AIF";
          lit "/music/The Beatles/Abbey Road/Track1.aif"]
    /\ StronglySorted str_le album_songs
    /\ Forall2 (fun p e => playlist_entry p = Some e) album_songs es
    /\ read (safe_name ++ m3u)
         (fst (snd (album_scan 47 None (fun p => p) ascii_lower
                      (fun _ => lit "d41d8cd98f00b204e9800998ecf8427e")
                      (lit "The Beatles") (lit "/music/The Beatles")
                      ([], ([], true))
                      (lit "Abbey Road",
                       Some [lit "Track2.AIF"; lit "cover.jpg"; lit "Track1.aif"]))))
       = Some (lit "# # Album: " ++ (lit "The Beatles" ++ lit " - " ++ lit "Abbey Road")
               ++ nl ++ flat_map (fun e => e ++ nl) es).
Proof.
  assert (H : filter (is_song ascii_lower)
                [lit "Track2.AIF"; lit "cover.jpg"; lit "Track1.aif"] <> []).
  { intros E. vm_compute in E. discriminate E. }
  destruct (album_playlist_in_order 47 None (fun p => p) ascii_lower
              (fun _ => lit "d41d8cd98f00b204e9800998ecf8427e")
              (lit "The Beatles") (lit "/music/The Beatles") (lit "Abbey Road")
              [lit "Track2.AIF"; lit "cover.jpg"; lit "Track1.aif"]
              ([], ([], true)) eq_refl H)
    as [safe_name [album_songs [es [Hn [Hp [Hs [F [Hr _]]]]]]]];
    [vm_compute; reflexivity | vm_compute; reflexivity | vm_compute; reflexivity |].
  exists safe_name, album_songs, es.
  split; [exact Hn|]. split; [exact Hp|]. split; [exact Hs|].
  split; [exact F | exact Hr].
Defined.

(** X18 at a history of two descriptors and a comment, written with the
    line ends of Windows and read in a UTF-8 locale. *)
Lemma converter_round_trip_witness :
  convert_file_uris_m3u_to_playlist_lines 47 None ascii_lower
    (lit "#EXTM3U" ++ nl ++ lit "file:////playlists/Abbey%20Road.m3u" ++ nl
     ++ lit "FILE:///C:/lists/Track1.M3U" ++ nl) true
  = ([lit "Abbey Road"; lit "Track1"],
     lit "# Playlist: Abbey Road" ++ nl ++ lit "# Playlist: Track1" ++ nl)
  /\ exists data,
       write_text [13; 10]
         (lit "# Playlist: Abbey Road" ++ nl ++ lit "# Playlist: Track1" ++ nl)
       = Some data
       /\ read_m3u_file (fun bs => Some (Urllib.utf8_decode bs)) data
          = Some [lit "Abbey Road"; lit "Track1"].
Proof.
  assert (E : convert_file_uris_m3u_to_playlist_lines 47 None ascii_lower
                (lit "#EXTM3U" ++ nl ++ lit "file:////playlists/Abbey%20Road.m3u" ++ nl
                 ++ lit "FILE:///C:/lists/Track1.M3U" ++ nl) true
              = ([lit "Abbey Road"; lit "Track1"],
                 lit "# Playlist: Abbey Road" ++ nl ++ lit "# Playlist: Track1" ++ nl))
    by (vm_compute; reflexivity).
  split; [exact E|].
  destruct (converter_round_trip 47 None ascii_lower [13; 10]
              (fun bs => Some (Urllib.utf8_decode bs)) _ _ _ _ E)
    as [data [H1 [H2 _]]].
  - vm_compute. reflexivity.
  - vm_compute. reflexivity.
  - vm_compute. reflexivity.
  - right. reflexivity.
  - intros data H. f_equal. apply utf8_decode_encode. exact H.
  - exists data. split; [exact H1 | exact H2].
Defined.

(** X19 at two descriptors, the first played twice. *)
Lemma history_replay_witness :
  exists f e p,
    log_all 47 (fun p => p) ascii_lower
      [lit "/playlists/Abbey Road.m3u"; lit "/playlists/Track1.m3u";
       lit "/playlists/abbey road.m3u"] None = Some f
    /\ NoDup (existing_entries ascii_lower f)
    /\ play_random_from_history f 4 = Playing e
    /\ In p [lit "/playlists/Abbey Road.m3u"; lit "/playlists/Track1.m3u";
             lit "/playlists/abbey road.m3u"]
    /\ encoded_entry 47 (fun p => p) p = Some e.
Proof.
  assert (H1 : forallb (fun p => forallb scalar p)
                 [lit "/playlists/Abbey Road.m3u"; lit "/playlists/Track1.m3u";
                  lit "/playlists/abbey road.m3u"] = true)
    by (vm_compute; reflexivity).
  assert (H2 : [lit "/playlists/Abbey Road.m3u"; lit "/playlists/Track1.m3u";
                lit "/playlists/abbey road.m3u"] <> []) by discriminate.
  destruct (history_replay 47 (fun p => p) ascii_lower _ 4 H1 H2)
    as [f [e [p [E [Hnd [_ [Hplay [Hin He]]]]]]]].
  exists f, e, p. repeat split; assumption.
Defined.
